(** * RediSearch: document identity, schema-rule matching and dispatch

    A shallow embedding of the rule-matching and dispatch core of the
    repository ([src/spec.c], [src/rules/rules.c], [src/doc_table.h]) and the
    properties its specification states about it.

    Conventions.  C integers that are used as bit sets or return codes are
    [Z]; counts and array indices are [nat]; C strings are [string].  In
    rules.c, where index specs are reached through several globals and
    written in place, an [IndexSpec *] is an address in a store; the matcher
    only reads the name behind the pointer, and spec.c's registry is entered
    by value.  A [while] loop over an argument cursor is a fixpoint on a
    number of turns that the length of the cursor bounds; the theorems show
    that the bound is never met.  Collaborators whose code is not part of the
    sources (expression evaluator, indexing pipeline, rule parser, header
    constants) are section variables or members of a class, so every theorem
    holds for all of them; each module ends with a concrete environment on
    which the definitions are run. *)

From Stdlib Require Import ZArith Lia String Ascii List Bool.
From stdpp Require Import base option list gmap strings.

Local Open Scope string_scope.
Local Open Scope list_scope.
Local Open Scope Z_scope.

(** ** The Redis [dict] *)

Module Dict.

(** Modelled from the spec: the hash table [dict] (dict.h) is not among the
    sources.  The spec's MatchResult is "one entry per matching index,
    deduplicated by index identity"; the table is keyed by strings, [dictAdd]
    refuses a key that is already present and leaves the table as it is,
    [dictFind] returns the entry of a key.  Entries are kept in insertion
    order; nothing below depends on the iteration order. *)
Definition dict (V : Type) : Type := list (string * V).

Definition DICT_OK : Z := 0.
Definition DICT_ERR : Z := 1.

Section ops.
Context {V : Type}.

Definition dictCreate : dict V := [].

Fixpoint dictFind (d : dict V) (key : string) : option (string * V) :=
  match d with
  | [] => None
  | (k, v) :: d' => if String.eqb k key then Some (k, v) else dictFind d' key
  end.

Definition dictFetchValue (d : dict V) (key : string) : option V :=
  snd <$> dictFind d key.

Definition dictAdd (d : dict V) (key : string) (val : V) : Z * dict V :=
  match dictFind d key with
  | Some _ => (DICT_ERR, d)
  | None => (DICT_OK, d ++ [(key, val)])
  end.

Fixpoint dictDelete (d : dict V) (key : string) : Z * dict V :=
  match d with
  | [] => (DICT_ERR, [])
  | (k, v) :: d' =>
      if String.eqb k key then (DICT_OK, d')
      else let '(rc, d'') := dictDelete d' key in (rc, (k, v) :: d'')
  end.

Definition dictSize (d : dict V) : nat := length d.

Definition keys (d : dict V) : list string := map fst d.

Lemma dictFind_None (d : dict V) key :
  dictFind d key = None ↔ key ∉ keys d.
Proof.
  induction d as [|[k v] d IH]; simpl.
  - split; [intros _; apply not_elem_of_nil | done].
  - destruct (String.eqb_spec k key) as [->|Hne].
    + split; [done | intros H; exfalso; apply H; left].
    + rewrite IH, not_elem_of_cons. intuition congruence.
Qed.

Lemma dictFind_is_Some (d : dict V) key :
  is_Some (dictFind d key) ↔ key ∈ keys d.
Proof.
  destruct (dictFind d key) eqn:E.
  - split; [intros _ | eauto].
    destruct (decide (key ∈ keys d)) as [|Hn]; [done|].
    apply dictFind_None in Hn. congruence.
  - split; [intros [? ?]; done|].
    intros Hin. apply dictFind_None in E. done.
Qed.

Lemma dictFind_key (d : dict V) key k v :
  dictFind d key = Some (k, v) → k = key ∧ (k, v) ∈ d.
Proof.
  induction d as [|[k' v'] d IH]; simpl; [done|].
  destruct (String.eqb_spec k' key) as [->|Hne].
  - intros [= -> ->]. split; [done | left].
  - intros H. destruct (IH H) as [-> Hin]. split; [done | by right].
Qed.

Lemma keys_dictAdd (d : dict V) key val :
  keys (dictAdd d key val).2 =
    match dictFind d key with Some _ => keys d | None => keys d ++ [key] end.
Proof.
  unfold dictAdd. destruct (dictFind d key); simpl; [done|].
  unfold keys. by rewrite map_app.
Qed.

Lemma elem_of_keys_dictAdd (d : dict V) key val k :
  k ∈ keys (dictAdd d key val).2 ↔ k = key ∨ k ∈ keys d.
Proof.
  rewrite keys_dictAdd. destruct (dictFind d key) eqn:E.
  - split; [by right|]. intros [->|H]; [|done].
    apply dictFind_is_Some. eauto.
  - rewrite elem_of_app, list_elem_of_singleton. tauto.
Qed.

Lemma NoDup_keys_dictAdd (d : dict V) key val :
  NoDup (keys d) → NoDup (keys (dictAdd d key val).2).
Proof.
  intros Hnd. rewrite keys_dictAdd. destruct (dictFind d key) eqn:E; [done|].
  apply NoDup_app. split_and!; [done | | apply NoDup_singleton].
  intros x Hx Hx'. apply list_elem_of_singleton in Hx' as ->.
  apply dictFind_None in E. done.
Qed.

End ops.
End Dict.

(** ** Matching a key against the schema rules ([src/spec.c]) *)

Module Matcher.
Import Dict.

Section matching.
(** An [IndexSpec *]: matching only reads [spec->name]. *)
Variable SpecRef : Type.
Variable spec_name : SpecRef → string.

(** The expression evaluator (aggregate/expr/expression.h) is a
    collaborator: [EvalCtx_ForKey] stands for [EvalCtx_Create],
    [EvalCtx_AddHash] and [EvalCtx_Set] of ["__key"], and
    [EvalCtx_EvalExpr] returns its code together with the value it leaves
    in [r->res]. *)
Variable RSExpr : Type.
Variable EvalCtx : Type.
Variable RSValue : Type.
Variable EvalCtx_ForKey : string → EvalCtx.
Variable EvalCtx_EvalExpr : EvalCtx → RSExpr → Z * RSValue.
Variable RSValue_BoolTest : RSValue → bool.
Variable EXPR_EVAL_OK : Z.

Record SchemaPrefixNode := {
  prefix : string;
  index_specs : list SpecRef;
}.

Record SchemaRule := {
  spec : SpecRef;
  filter_exp : option RSExpr;
}.

(** Modelled from the spec: the prefix trie (util/triemap.h) is not among
    the sources.  "findPrefixes(k) returns every registered prefix p such
    that p is a prefix of k, and no others"; the trie is the list of its
    registered nodes. *)
Definition TrieMap_FindPrefixes (trie : list SchemaPrefixNode) (key : string)
  : list SchemaPrefixNode :=
  List.filter (λ node, String.prefix (prefix node) key) trie.

(** The inner loop over [node->index_specs]: the guard looks the node's
    prefix up in [specs], the entry is added under the index name. *)
Definition add_node_specs (specs : dict SpecRef) (node : SchemaPrefixNode)
  : dict SpecRef :=
  fold_left
    (λ specs spec,
       match dictFind specs (prefix node) with
       | None => (dictAdd specs (spec_name spec) spec).2
       | Some _ => specs
       end)
    (index_specs node) specs.

(** One iteration of the loop over [SchemaRules_g]. *)
Definition add_filter_rule (r : EvalCtx) (specs : dict SpecRef) (rule : SchemaRule)
  : dict SpecRef :=
  match filter_exp rule with
  | None => specs
  | Some e =>
      let '(rc, res) := EvalCtx_EvalExpr r e in
      if rc =? EXPR_EVAL_OK then
        if RSValue_BoolTest res then
          match dictFind specs (spec_name (spec rule)) with
          | None => (dictAdd specs (spec_name (spec rule)) (spec rule)).2
          | Some _ => specs
          end
        else specs
      else specs
  end.

Definition Indexes_FindMatchingSchemaRules
    (ScemaPrefixes_g : list SchemaPrefixNode) (SchemaRules_g : list SchemaRule)
    (key : string) : dict SpecRef :=
  let r := EvalCtx_ForKey key in
  let specs := dictCreate in
  let prefixes := TrieMap_FindPrefixes ScemaPrefixes_g key in
  let specs := fold_left add_node_specs prefixes specs in
  fold_left (add_filter_rule r) SchemaRules_g specs.

(** *** What the spec and the code say about membership *)

(** [name] is listed under a registered prefix that is a prefix of [key]. *)
Definition prefix_listed (trie : list SchemaPrefixNode) (key name : string) : Prop :=
  ∃ node sp, node ∈ TrieMap_FindPrefixes trie key ∧ sp ∈ index_specs node
             ∧ spec_name sp = name.

(** The predicate [e] evaluates without error to a true value on the
    record view of [key]. *)
Definition evaluates_true (key : string) (e : RSExpr) : Prop :=
  ∃ res, EvalCtx_EvalExpr (EvalCtx_ForKey key) e = (EXPR_EVAL_OK, res)
         ∧ RSValue_BoolTest res = true.

Definition filter_true (rules : list SchemaRule) (key name : string) : Prop :=
  ∃ rule e, rule ∈ rules ∧ filter_exp rule = Some e ∧ evaluates_true key e
            ∧ spec_name (spec rule) = name.

Definition included (trie : list SchemaPrefixNode) (rules : list SchemaRule)
    (key name : string) : Prop :=
  is_Some (dictFind (Indexes_FindMatchingSchemaRules trie rules key) name).

(** No registered prefix that matches [key] is spelled like the name of an
    index listed under a matching prefix. *)
Definition prefix_name_free (trie : list SchemaPrefixNode) (key : string) : Prop :=
  ∀ node node' sp,
    node ∈ TrieMap_FindPrefixes trie key →
    node' ∈ TrieMap_FindPrefixes trie key →
    sp ∈ index_specs node' → spec_name sp ≠ prefix node.

(** Some prefix registered for the rule's index is a prefix of the key. *)
Definition rule_prefix_matches (trie : list SchemaPrefixNode) (key : string)
    (rule : SchemaRule) : Prop :=
  prefix_listed trie key (spec_name (spec rule)).

(** The membership rule as the spec words it: a rule takes part only
    through a matching prefix, and then its predicate decides. *)
Definition match_by_prefix_and_predicate
    (trie : list SchemaPrefixNode) (rules : list SchemaRule) (key : string) : Prop :=
  ∀ rule, rule ∈ rules →
    (rule_prefix_matches trie key rule →
       match filter_exp rule with
       | None => included trie rules key (spec_name (spec rule))
       | Some e => included trie rules key (spec_name (spec rule))
                   ↔ evaluates_true key e
       end)
    ∧ (¬ rule_prefix_matches trie key rule →
         ¬ included trie rules key (spec_name (spec rule))).

(** *** The result has distinct keys *)

Local Abbreviation node_step p :=
  (λ (specs : dict SpecRef) (sp : SpecRef),
     match dictFind specs p with
     | None => (dictAdd specs (spec_name sp) sp).2
     | Some _ => specs
     end).

Lemma node_step_NoDup p (l : list SpecRef) (specs : dict SpecRef) :
  NoDup (keys specs) → NoDup (keys (fold_left (node_step p) l specs)).
Proof.
  revert specs. induction l as [|sp l IH]; intros specs Hnd; simpl; [done|].
  apply IH. destruct (dictFind specs p); [done|]. by apply NoDup_keys_dictAdd.
Qed.

Lemma node_step_sound p (l : list SpecRef) (specs : dict SpecRef) k :
  k ∈ keys (fold_left (node_step p) l specs) →
  k ∈ keys specs ∨ ∃ sp, sp ∈ l ∧ spec_name sp = k.
Proof.
  revert specs. induction l as [|sp l IH]; intros specs; simpl; [by left|].
  intros H. apply IH in H as [H | (sp' & Hin & Hn)].
  - destruct (dictFind specs p); [by left|].
    apply elem_of_keys_dictAdd in H as [-> | H]; [right | by left].
    exists sp. split; [left | done].
  - right. exists sp'. split; [by right | done].
Qed.

Lemma node_step_mono p (l : list SpecRef) (specs : dict SpecRef) k :
  k ∈ keys specs → k ∈ keys (fold_left (node_step p) l specs).
Proof.
  revert specs. induction l as [|sp l IH]; intros specs H; simpl; [done|].
  apply IH. destruct (dictFind specs p); [done|].
  apply elem_of_keys_dictAdd. by right.
Qed.

Lemma node_step_complete p (l : list SpecRef) (specs : dict SpecRef) sp :
  p ∉ keys specs → (∀ sp', sp' ∈ l → spec_name sp' ≠ p) →
  sp ∈ l → spec_name sp ∈ keys (fold_left (node_step p) l specs).
Proof.
  revert specs. induction l as [|sp0 l IH]; intros specs Hp Hl Hin; simpl.
  - by apply elem_of_nil in Hin.
  - assert (dictFind specs p = None) as -> by by apply dictFind_None.
    apply elem_of_cons in Hin as [-> | Hin].
    + apply node_step_mono, elem_of_keys_dictAdd. by left.
    + apply IH; [| intros sp' ?; apply Hl; by right | done].
      intros [Heq | ?]%elem_of_keys_dictAdd; [|done].
      apply (Hl sp0); [left | done].
Qed.

Lemma prefix_loop_NoDup (nodes : list SchemaPrefixNode) (specs : dict SpecRef) :
  NoDup (keys specs) → NoDup (keys (fold_left add_node_specs nodes specs)).
Proof.
  revert specs. induction nodes as [|node nodes IH]; intros specs Hnd; simpl; [done|].
  apply IH. by apply node_step_NoDup.
Qed.

Lemma prefix_loop_sound (nodes : list SchemaPrefixNode) (specs : dict SpecRef) k :
  k ∈ keys (fold_left add_node_specs nodes specs) →
  k ∈ keys specs ∨ ∃ node sp, node ∈ nodes ∧ sp ∈ index_specs node ∧ spec_name sp = k.
Proof.
  revert specs. induction nodes as [|node nodes IH]; intros specs; simpl; [by left|].
  intros H. apply IH in H as [H | (node' & sp & Hn & Hsp & Hk)].
  - apply node_step_sound in H as [H | (sp & Hsp & Hk)]; [by left|].
    right. exists node, sp. split_and!; [left | done | done].
  - right. exists node', sp. split_and!; [by right | done | done].
Qed.

Lemma prefix_loop_mono (nodes : list SchemaPrefixNode) (specs : dict SpecRef) k :
  k ∈ keys specs → k ∈ keys (fold_left add_node_specs nodes specs).
Proof.
  revert specs. induction nodes as [|node nodes IH]; intros specs H; simpl; [done|].
  by apply IH, node_step_mono.
Qed.

Lemma prefix_loop_complete (nodes : list SchemaPrefixNode) (specs : dict SpecRef)
    node sp :
  (∀ n, n ∈ nodes → prefix n ∉ keys specs) →
  (∀ n n' sp', n ∈ nodes → n' ∈ nodes → sp' ∈ index_specs n' →
               spec_name sp' ≠ prefix n) →
  node ∈ nodes → sp ∈ index_specs node →
  spec_name sp ∈ keys (fold_left add_node_specs nodes specs).
Proof.
  revert specs. induction nodes as [|n0 nodes IH]; intros specs Hfree Hclash Hn Hsp.
  - by apply elem_of_nil in Hn.
  - simpl. apply elem_of_cons in Hn as [-> | Hn].
    + apply prefix_loop_mono. unfold add_node_specs.
      apply node_step_complete; [apply Hfree; left | | done].
      intros sp' Hsp'. apply (Hclash n0 n0); [left | left | done].
    + apply IH; [ | | done | done].
      * intros n Hin Hk. unfold add_node_specs in Hk.
        apply node_step_sound in Hk as [Hk | (sp' & Hsp' & Hk)].
        -- apply (Hfree n); [by right | done].
        -- apply (Hclash n n0 sp'); [by right | left | done | done].
      * intros n n' sp' ? ? ?. apply (Hclash n n' sp'); [by right | by right | done].
Qed.

Lemma add_filter_rule_keys r (specs : dict SpecRef) rule k :
  k ∈ keys (add_filter_rule r specs rule) ↔
  k ∈ keys specs ∨
  ∃ e res, filter_exp rule = Some e ∧ EvalCtx_EvalExpr r e = (EXPR_EVAL_OK, res)
           ∧ RSValue_BoolTest res = true ∧ spec_name (spec rule) = k.
Proof.
  unfold add_filter_rule. destruct (filter_exp rule) as [e|].
  2:{ split; [by left | intros [?|(? & ? & ? & _)]; done]. }
  destruct (EvalCtx_EvalExpr r e) as [rc res] eqn:Hev.
  assert (∀ e' res', Some e = Some e' → EvalCtx_EvalExpr r e' = (EXPR_EVAL_OK, res') →
                     rc = EXPR_EVAL_OK ∧ res' = res) as Hinv.
  { intros e' res' [= <-] H. rewrite Hev in H. by injection H as -> ->. }
  destruct (Z.eqb_spec rc EXPR_EVAL_OK) as [-> | Hrc].
  2:{ split; [by left | intros [?|(e' & res' & He & H & _)]; [done|]].
      by destruct (Hinv _ _ He H). }
  destruct (RSValue_BoolTest res) eqn:Hb.
  2:{ split; [by left | intros [?|(e' & res' & He & H & Hb' & _)]; [done|]].
      destruct (Hinv _ _ He H) as [_ ->]. congruence. }
  destruct (dictFind specs (spec_name (spec rule))) eqn:Hf.
  - split; [by left | intros [?|(? & ? & _ & _ & _ & <-)]; [done|]].
    apply dictFind_is_Some. eauto.
  - rewrite elem_of_keys_dictAdd. split.
    + intros [-> | ?]; [right | by left]. by exists e, res.
    + intros [? | (? & ? & _ & _ & _ & <-)]; [by right | by left].
Qed.

Lemma add_filter_rule_NoDup r (specs : dict SpecRef) rule :
  NoDup (keys specs) → NoDup (keys (add_filter_rule r specs rule)).
Proof.
  intros Hnd. unfold add_filter_rule. destruct (filter_exp rule) as [e|]; [|done].
  destruct (EvalCtx_EvalExpr r e) as [rc res].
  destruct (rc =? EXPR_EVAL_OK); [|done].
  destruct (RSValue_BoolTest res); [|done].
  destruct (dictFind specs _); [done|]. by apply NoDup_keys_dictAdd.
Qed.

Lemma filter_loop_NoDup r (rules : list SchemaRule) (specs : dict SpecRef) :
  NoDup (keys specs) → NoDup (keys (fold_left (add_filter_rule r) rules specs)).
Proof.
  revert specs. induction rules as [|rule rules IH]; intros specs Hnd; simpl; [done|].
  by apply IH, add_filter_rule_NoDup.
Qed.

Lemma filter_loop_keys r (rules : list SchemaRule) (specs : dict SpecRef) k :
  k ∈ keys (fold_left (add_filter_rule r) rules specs) ↔
  k ∈ keys specs ∨
  ∃ rule e res, rule ∈ rules ∧ filter_exp rule = Some e
                ∧ EvalCtx_EvalExpr r e = (EXPR_EVAL_OK, res)
                ∧ RSValue_BoolTest res = true ∧ spec_name (spec rule) = k.
Proof.
  revert specs. induction rules as [|rule rules IH]; intros specs; simpl.
  - split; [by left | intros [?|(? & ? & ? & []%elem_of_nil & _)]; done].
  - rewrite IH, add_filter_rule_keys. split.
    + intros [[? | (e & res & ?)] | (rule' & e & res & Hin & ?)].
      * by left.
      * right. exists rule, e, res. split; [left | done].
      * right. exists rule', e, res. split; [by right | done].
    + intros [? | (rule' & e & res & Hin & ?)]; [by left; left|].
      apply elem_of_cons in Hin as [-> | Hin].
      * left. right. by exists e, res.
      * right. by exists rule', e, res.
Qed.

(** C2.  The match result holds at most one entry per index: the keys of the
    returned table (the index names) are pairwise distinct, however many of
    the index's registered prefixes are prefixes of the key. *)
Theorem match_one_entry_per_index
    (trie : list SchemaPrefixNode) (rules : list SchemaRule) (key : string) :
  NoDup (keys (Indexes_FindMatchingSchemaRules trie rules key)).
Proof.
  unfold Indexes_FindMatchingSchemaRules.
  apply filter_loop_NoDup, prefix_loop_NoDup. constructor.
Qed.

(** C1, as the code has it.  Where no matching prefix is spelled like the name
    of an index listed under a matching prefix, an index is in the match
    result exactly when it is listed under a registered prefix that is a
    prefix of the key (whether or not its rule has a predicate, and whatever
    the predicate evaluates to), or its rule has a predicate that evaluates
    without error to true on the key's record view (whether or not one of its
    prefixes matches the key). *)
Theorem match_by_prefix_or_predicate
    (trie : list SchemaPrefixNode) (rules : list SchemaRule) (key name : string) :
  prefix_name_free trie key →
  (included trie rules key name ↔
   prefix_listed trie key name ∨ filter_true rules key name).
Proof.
  intros Hfree. unfold included, Indexes_FindMatchingSchemaRules.
  rewrite dictFind_is_Some, filter_loop_keys. split.
  - intros [H | (rule & e & res & Hin & He & Hev & Hb & Hn)].
    + left. apply prefix_loop_sound in H as [H | (node & sp & ? & ? & ?)].
      * by apply elem_of_nil in H.
      * by exists node, sp.
    + right. exists rule, e. split_and!; try done. by exists res.
  - intros [(node & sp & Hn & Hsp & <-) | (rule & e & Hin & He & (res & Hev & Hb) & Hn)].
    + left. apply prefix_loop_complete with node; try done.
      intros n _. apply not_elem_of_nil.
    + right. by exists rule, e, res.
Qed.

(** *** Further facts about the matcher *)

Lemma keys_nil (d : dict SpecRef) : keys d = [] → d = [].
Proof. by destruct d. Qed.

Lemma node_step_blocked p (l : list SpecRef) (specs : dict SpecRef) :
  is_Some (dictFind specs p) → fold_left (node_step p) l specs = specs.
Proof.
  intros [ent Hent]. induction l as [|sp l IH]; simpl; [done|]. by rewrite Hent.
Qed.

Lemma dictFind_dictAdd_new (d : dict SpecRef) k v :
  dictFind d k = None →
  (dictAdd d k v).2 = d ++ [(k, v)] ∧ is_Some (dictFind (d ++ [(k, v)]) k).
Proof.
  intros Hnone. unfold dictAdd. rewrite Hnone. split; [done|].
  apply dictFind_is_Some. unfold keys. rewrite map_app, elem_of_app. right. left.
Qed.

Lemma filter_loop_no_filters r (rules : list SchemaRule) (specs : dict SpecRef) :
  (∀ rule, rule ∈ rules → filter_exp rule = None) →
  fold_left (add_filter_rule r) rules specs = specs.
Proof.
  revert specs. induction rules as [|rule rules IH]; intros specs Hall; simpl; [done|].
  unfold add_filter_rule at 2. rewrite (Hall rule) by left.
  apply IH. intros rule' ?. apply Hall. by right.
Qed.

(** X1.  A key that no registered prefix is a prefix of and on which no
    predicate evaluates to true matches nothing: the result is the empty
    table. *)
Theorem match_nothing
    (trie : list SchemaPrefixNode) (rules : list SchemaRule) (key : string) :
  (∀ node, node ∈ trie → String.prefix (prefix node) key = false) →
  (∀ rule e, rule ∈ rules → filter_exp rule = Some e → ¬ evaluates_true key e) →
  Indexes_FindMatchingSchemaRules trie rules key = [].
Proof.
  intros Hpre Hfil. apply keys_nil.
  destruct (keys (Indexes_FindMatchingSchemaRules trie rules key)) as [|k ks] eqn:Hk;
    [done|]. exfalso.
  assert (k ∈ keys (Indexes_FindMatchingSchemaRules trie rules key)) as Hin
    by (rewrite Hk; left).
  unfold Indexes_FindMatchingSchemaRules in Hin.
  apply filter_loop_keys in Hin as [Hin | (rule & e & res & Hr & He & Hev & Hb & _)].
  - apply prefix_loop_sound in Hin as [Hin | (node & sp & Hn & _)].
    + by apply elem_of_nil in Hin.
    + unfold TrieMap_FindPrefixes in Hn. apply list_elem_of_In, filter_In in Hn.
      destruct Hn as [Hn Hp]. apply list_elem_of_In in Hn.
      rewrite (Hpre node Hn) in Hp. done.
  - apply (Hfil rule e Hr He). by exists res.
Qed.

(** X2.  The empty prefix matches every key: an index listed under the
    prefix [""] is in the result for any key (where no matching prefix is
    spelled like the name of an index listed under a matching prefix). *)
Theorem empty_prefix_matches_all
    (trie : list SchemaPrefixNode) (rules : list SchemaRule) (key : string)
    (node : SchemaPrefixNode) (sp : SpecRef) :
  node ∈ trie → prefix node = "" → sp ∈ index_specs node →
  prefix_name_free trie key →
  included trie rules key (spec_name sp).
Proof.
  intros Hn Hp Hsp Hfree. unfold included, Indexes_FindMatchingSchemaRules.
  apply dictFind_is_Some, filter_loop_keys. left.
  assert (node ∈ TrieMap_FindPrefixes trie key) as Hm.
  { unfold TrieMap_FindPrefixes. apply list_elem_of_In, filter_In.
    split; [by apply list_elem_of_In|]. rewrite Hp. by destruct key. }
  apply prefix_loop_complete with node; [| exact Hfree | done | done].
  intros n _. apply not_elem_of_nil.
Qed.

(** X3.  The guard of the prefix loop looks up the prefix string: when the
    first index listed under a matching prefix is named exactly like the
    prefix, the indexes listed after it under that prefix are not added. *)
Theorem prefix_named_index_shadows
    (node : SchemaPrefixNode) (rules : list SchemaRule) (key : string)
    (sp : SpecRef) (rest : list SpecRef) :
  String.prefix (prefix node) key = true →
  index_specs node = sp :: rest → spec_name sp = prefix node →
  (∀ rule, rule ∈ rules → filter_exp rule = None) →
  Indexes_FindMatchingSchemaRules [node] rules key = [(prefix node, sp)].
Proof.
  intros Hpre Hspecs Hname Hnofilter. unfold Indexes_FindMatchingSchemaRules.
  rewrite filter_loop_no_filters by done.
  unfold TrieMap_FindPrefixes. simpl. rewrite Hpre. simpl.
  unfold add_node_specs. rewrite Hspecs. cbn [fold_left dictCreate dictFind].
  rewrite Hname. unfold dictCreate.
  destruct (dictFind_dictAdd_new [] (prefix node) sp eq_refl) as [-> Hfound].
  by apply node_step_blocked.
Qed.

End matching.

(** *** The spec's scenario: index [adults], prefix ["user:"], predicate
    [age >= 18] *)

(** Modelled from the spec: the PredicateEvaluator is not among the sources.
    A record view is the list of the record's integer fields; a comparison
    [field >= n] evaluates to its truth value, and to an evaluation error when
    the field is absent. *)
Inductive scenario_expr := FieldGe (field : string) (n : Z).

Definition scenario_view : Type := list (string * Z).

Definition scenario_keyspace (key : string) : scenario_view :=
  if String.eqb key "user:1" then [("age", 20)]
  else if String.eqb key "user:2" then [("age", 10)]
  else if String.eqb key "other:1" then [("age", 20)]
  else [].

Fixpoint scenario_field (r : scenario_view) (field : string) : option Z :=
  match r with
  | [] => None
  | (f, v) :: r' => if String.eqb f field then Some v else scenario_field r' field
  end.

Definition scenario_eval (r : scenario_view) (e : scenario_expr) : Z * bool :=
  match e with
  | FieldGe field n =>
      match scenario_field r field with
      | Some v => (1, n <=? v)
      | None => (0, false)
      end
  end.

Definition scenario_find :=
  Indexes_FindMatchingSchemaRules string id scenario_expr scenario_view bool
    scenario_keyspace scenario_eval id 1.

Definition adults_trie : list (SchemaPrefixNode string) :=
  [ {| prefix := "user:"; index_specs := ["adults"] |} ].

Definition adults_rules : list (SchemaRule string scenario_expr) :=
  [ {| spec := "adults"; filter_exp := Some (FieldGe "age" 18) |} ].

Example scenario_user1 : keys (scenario_find adults_trie adults_rules "user:1") = ["adults"].
Proof. reflexivity. Qed.

Example scenario_user2 : keys (scenario_find adults_trie adults_rules "user:2") = ["adults"].
Proof. reflexivity. Qed.

Example scenario_other1 : keys (scenario_find adults_trie adults_rules "other:1") = ["adults"].
Proof. reflexivity. Qed.

(** The guard of the prefix loop looks up the prefix, not the index name: an
    index named like the prefix shuts out the indexes listed after it. *)
Example scenario_prefix_named_index :
  keys (scenario_find [ {| prefix := "a"; index_specs := ["a"; "b"] |} ] [] "a1") = ["a"].
Proof. reflexivity. Qed.

(** C1 as the spec words it fails on the code: [user:2] (age 10) matches the
    prefix and fails the predicate, yet [adults] is in the result; [other:1]
    (age 20) matches no prefix, yet [adults] is in the result. *)
Lemma match_by_prefix_and_predicate_fails :
  ¬ match_by_prefix_and_predicate string id scenario_expr scenario_view bool
      scenario_keyspace scenario_eval id 1 adults_trie adults_rules "user:2"
  ∧ ¬ match_by_prefix_and_predicate string id scenario_expr scenario_view bool
      scenario_keyspace scenario_eval id 1 adults_trie adults_rules "other:1".
Proof.
  split; intros H.
  - destruct (H _ (list_elem_of_here _ _)) as [Hpre _]. simpl in Hpre.
    assert (evaluates_true scenario_expr scenario_view bool scenario_keyspace
              scenario_eval id 1 "user:2" (FieldGe "age" 18)) as (res & Hev & Hres).
    { apply Hpre.
      - exists {| prefix := "user:"; index_specs := ["adults"] |}, "adults".
        split_and!; [left | left | done].
      - by eexists. }
    vm_compute in Hev. injection Hev as <-. discriminate Hres.
  - destruct (H _ (list_elem_of_here _ _)) as [_ Hnone]. apply Hnone.
    + intros (node & sp & Hin & _). vm_compute in Hin. by apply elem_of_nil in Hin.
    + by eexists.
Qed.

Lemma match_by_prefix_or_predicate_witness :
  prefix_name_free string id adults_trie "user:2"
  ∧ (included string id scenario_expr scenario_view bool scenario_keyspace
       scenario_eval id 1 adults_trie adults_rules "user:2" "adults"
     ↔ prefix_listed string id adults_trie "user:2" "adults"
       ∨ filter_true string id scenario_expr scenario_view bool scenario_keyspace
           scenario_eval id 1 adults_rules "user:2" "adults").
Proof.
  assert (prefix_name_free string id adults_trie "user:2") as Hfree.
  { intros node node' sp Hn Hn' Hsp.
    apply list_elem_of_singleton in Hn as ->.
    apply list_elem_of_singleton in Hn' as ->.
    apply list_elem_of_singleton in Hsp as ->. done. }
  split; [exact Hfree|].
  apply (match_by_prefix_or_predicate string id scenario_expr scenario_view bool
           scenario_keyspace scenario_eval id 1 adults_trie adults_rules
           "user:2" "adults" Hfree).
Defined.

(** The spec's second scenario: [A] under ["x:"], [B] under [""]. *)
Definition ab_trie : list (SchemaPrefixNode string) :=
  [ {| prefix := "x:"; index_specs := ["A"] |};
    {| prefix := ""; index_specs := ["B"] |} ].

Example scenario_ab : keys (scenario_find ab_trie [] "x:1") = ["A"; "B"].
Proof. reflexivity. Qed.

Lemma match_nothing_witness :
  ((∀ node, node ∈ adults_trie → String.prefix (prefix _ node) "other:2" = false)
   ∧ (∀ rule e, rule ∈ adults_rules → filter_exp _ _ rule = Some e →
        ¬ evaluates_true scenario_expr scenario_view bool scenario_keyspace
            scenario_eval id 1 "other:2" e))
  ∧ scenario_find adults_trie adults_rules "other:2" = [].
Proof.
  assert (∀ node, node ∈ adults_trie → String.prefix (prefix _ node) "other:2" = false)
    as Hpre.
  { intros node Hn. apply list_elem_of_singleton in Hn as ->. reflexivity. }
  assert (∀ rule e, rule ∈ adults_rules → filter_exp _ _ rule = Some e →
            ¬ evaluates_true scenario_expr scenario_view bool scenario_keyspace
                scenario_eval id 1 "other:2" e) as Hfil.
  { intros rule e Hr He (res & Hev & _).
    apply list_elem_of_singleton in Hr as ->. injection He as <-.
    vm_compute in Hev. discriminate Hev. }
  split; [by split|].
  apply (match_nothing string id scenario_expr scenario_view bool scenario_keyspace
           scenario_eval id 1 adults_trie adults_rules "other:2" Hpre Hfil).
Defined.

Lemma empty_prefix_matches_all_witness :
  prefix_name_free string id ab_trie "zzz"
  ∧ included string id scenario_expr scenario_view bool scenario_keyspace
      scenario_eval id 1 ab_trie [] "zzz" "B".
Proof.
  assert (prefix_name_free string id ab_trie "zzz") as Hfree.
  { intros node node' sp Hn Hn' Hsp.
    apply list_elem_of_singleton in Hn as ->.
    apply list_elem_of_singleton in Hn' as ->.
    apply list_elem_of_singleton in Hsp as ->. done. }
  split; [exact Hfree|].
  apply (empty_prefix_matches_all string id scenario_expr scenario_view bool
           scenario_keyspace scenario_eval id 1 ab_trie [] "zzz"
           {| prefix := ""; index_specs := ["B"] |} "B").
  - right. left.
  - reflexivity.
  - left.
  - exact Hfree.
Defined.

Lemma prefix_named_index_shadows_witness :
  scenario_find [ {| prefix := "a"; index_specs := ["a"; "b"; "c"] |} ] [] "a1"
  = [("a", "a")].
Proof.
  apply (prefix_named_index_shadows string id scenario_expr scenario_view bool
           scenario_keyspace scenario_eval id 1
           {| prefix := "a"; index_specs := ["a"; "b"; "c"] |} [] "a1" "a" ["b"; "c"]).
  - reflexivity.
  - reflexivity.
  - reflexivity.
  - intros rule Hr. by apply elem_of_nil in Hr.
Defined.

End Matcher.

(** ** The identifier table ([src/doc_table.h]) *)

Module DocTable.

(** The metadata row of a document.  The score is a C [double]; the table
    only stores it, so it is kept as its 64-bit pattern. *)
Record RSDocumentMetadata := {
  key : string;
  score : Z;
  flags : Z;
  payload : option string;
}.

(** [typedef struct { TrieMapNode *tm; } DocIdMap]: external key to id. *)
Abbreviation DocIdMap := (gmap string N).

(** The fields of [struct DocTable]; [docs] is the array of rows indexed by
    id, a missing slot is a NULL (never written, or nulled by a delete). *)
Record DocTable := {
  size : nat;
  maxDocId : N;
  cap : nat;
  memsize : nat;
  docs : gmap N RSDocumentMetadata;
  dim : DocIdMap;
}.

(** Modelled from the spec: the bodies of the functions that [doc_table.h]
    declares are not among the sources.  [DocIdMap_Get] "returns 0 if the key
    is not in the map"; [DocIdMap_Put] puts "a new doc id in the map if it
    does not already exist". *)
Definition NewDocIdMap : DocIdMap := ∅.

Definition DocIdMap_Get (m : DocIdMap) (k : string) : N := default 0%N (m !! k).

Definition DocIdMap_Put (m : DocIdMap) (k : string) (docId : N) : DocIdMap :=
  match m !! k with
  | Some _ => m
  | None => <[k := docId]> m
  end.

Definition DocIdMap_Delete (m : DocIdMap) (k : string) : bool * DocIdMap :=
  match m !! k with
  | Some _ => (true, delete k m)
  | None => (false, m)
  end.

(** Modelled from the spec: "created empty at index-creation time". *)
Definition NewDocTable (cap : nat) : DocTable :=
  {| size := 0; maxDocId := 0; cap := cap; memsize := 0; docs := ∅; dim := NewDocIdMap |}.

Definition payload_size (p : option string) : nat :=
  match p with Some s => String.length s | None => 0%nat end.

(** Modelled from the spec: "put(key, score, flags, payload) -> id: allocates
    nextId = maxId+1 if key absent; appends metadata entry; grows storage if
    capacity exceeded (via doubling); updates reverse map.  If the map already
    holds the key, the prior id is returned and metadata is left unchanged". *)
Definition DocTable_Put (t : DocTable) (k : string) (sc : Z) (fl : Z)
    (pl : option string) : N * DocTable :=
  match dim t !! k with
  | Some xid => (xid, t)
  | None =>
      let docId := (maxDocId t + 1)%N in
      let cap' := if (cap t <=? N.to_nat docId)%nat then (cap t + cap t)%nat else cap t in
      let dmd := {| key := k; score := sc; flags := fl; payload := pl |} in
      (docId,
       {| size := S (size t);
          maxDocId := docId;
          cap := cap';
          memsize := (memsize t + String.length k + payload_size pl)%nat;
          docs := <[docId := dmd]> (docs t);
          dim := DocIdMap_Put (dim t) k docId |})
  end.

(** Modelled from the spec: "get(id) -> metadata | NotFound: NotFound if id is
    0, beyond maxId, or previously deleted". *)
Definition DocTable_Get (t : DocTable) (docId : N) : option RSDocumentMetadata :=
  if (docId =? 0)%N || (maxDocId t <? docId)%N then None else docs t !! docId.

(** Modelled from the spec: "getId(key) -> id | 0: 0 signals absence". *)
Definition DocTable_GetId (t : DocTable) (k : string) : N := DocIdMap_Get (dim t) k.

(** The row of a key, NULL when the table holds no live id for it
    ([DocTable_GetByKeyR] in the callers). *)
Definition DocTable_GetByKey (t : DocTable) (k : string) : option RSDocumentMetadata :=
  DocTable_Get t (DocTable_GetId t k).

(** Modelled from the spec: "delete(key) -> bool: removes reverse-map entry
    and frees the metadata slot's owned payload; the array slot becomes a
    tombstone; returns false if key was absent.  Deletion does not compact or
    reuse ids". *)
Definition DocTable_Delete (t : DocTable) (k : string) : bool * DocTable :=
  match dim t !! k with
  | None => (false, t)
  | Some docId =>
      (true,
       {| size := pred (size t);
          maxDocId := maxDocId t;
          cap := cap t;
          memsize :=
            (memsize t - (String.length k
                          + payload_size (docs t !! docId ≫= payload)))%nat;
          docs := delete docId (docs t);
          dim := (DocIdMap_Delete (dim t) k).2 |})
  end.

(** A caller's step on the table between two puts. *)
Inductive table_op :=
| OpPut (k : string) (sc fl : Z) (pl : option string)
| OpDelete (k : string).

Definition apply_op (t : DocTable) (op : table_op) : DocTable :=
  match op with
  | OpPut k sc fl pl => (DocTable_Put t k sc fl pl).2
  | OpDelete k => (DocTable_Delete t k).2
  end.

Definition deletes (k : string) (op : table_op) : bool :=
  match op with
  | OpDelete k' => String.eqb k' k
  | OpPut _ _ _ _ => false
  end.

Lemma put_holds (t : DocTable) k sc fl pl :
  dim (DocTable_Put t k sc fl pl).2 !! k = Some (DocTable_Put t k sc fl pl).1.
Proof.
  unfold DocTable_Put. destruct (dim t !! k) eqn:E; simpl; [done|].
  unfold DocIdMap_Put. rewrite E. apply lookup_insert_eq.
Qed.

Lemma apply_op_keeps (t : DocTable) op k docId :
  deletes k op = false → dim t !! k = Some docId → dim (apply_op t op) !! k = Some docId.
Proof.
  destruct op as [k' sc fl pl | k']; simpl; intros Hd Hk.
  - unfold DocTable_Put. destruct (dim t !! k') eqn:E; simpl; [done|].
    unfold DocIdMap_Put. rewrite E.
    rewrite lookup_insert_ne; [done | congruence].
  - apply String.eqb_neq in Hd.
    unfold DocTable_Delete. destruct (dim t !! k') eqn:E; simpl; [|done].
    unfold DocIdMap_Delete. rewrite E. simpl. by rewrite lookup_delete_ne.
Qed.

Lemma run_keeps (ops : list table_op) (t : DocTable) k docId :
  forallb (λ op, negb (deletes k op)) ops = true →
  dim t !! k = Some docId → dim (fold_left apply_op ops t) !! k = Some docId.
Proof.
  revert t. induction ops as [|op ops IH]; intros t Hops Hk; simpl in *; [done|].
  apply andb_prop in Hops as [Hop Hops]. apply negb_true_iff in Hop.
  apply IH; [done|]. by apply apply_op_keeps.
Qed.

(** C3.  [put] is idempotent by key: after a first [put k], and any further
    puts and deletes none of which deletes [k], a second [put k] returns the
    id of the first and leaves the table, hence the stored metadata of [k],
    as it was. *)
Theorem put_idempotent (t : DocTable) (k : string) sc1 fl1 pl1 sc2 fl2 pl2
    (ops : list table_op) :
  forallb (λ op, negb (deletes k op)) ops = true →
  let first := DocTable_Put t k sc1 fl1 pl1 in
  let t2 := fold_left apply_op ops first.2 in
  DocTable_Put t2 k sc2 fl2 pl2 = (first.1, t2)
  ∧ DocTable_GetId t2 k = first.1.
Proof.
  intros Hops first t2.
  assert (dim t2 !! k = Some first.1) as Hk.
  { apply run_keeps; [done | apply put_holds]. }
  split.
  - unfold DocTable_Put. by rewrite Hk.
  - unfold DocTable_GetId, DocIdMap_Get. by rewrite Hk.
Qed.

Lemma put_idempotent_witness :
  let ops := [OpPut "k2" 0 0 None; OpDelete "k2"; OpPut "k3" 0 0 (Some "p")] in
  forallb (λ op, negb (deletes "k" op)) ops = true
  ∧ (let first := DocTable_Put (NewDocTable 100) "k" 1 0 None in
     let t2 := fold_left apply_op ops first.2 in
     DocTable_Put t2 "k" 2 1 (Some "other") = (first.1, t2)
     ∧ DocTable_GetId t2 "k" = first.1).
Proof.
  split; [reflexivity|].
  apply (put_idempotent (NewDocTable 100) "k" 1 0 None 2 1 (Some "other")
           [OpPut "k2" 0 0 None; OpDelete "k2"; OpPut "k3" 0 0 (Some "p")]).
  reflexivity.
Defined.

(** The spec's scenario: ids 1 and 2, then [delete "k"]. *)
Example put_delete_scenario :
  let p1 := DocTable_Put (NewDocTable 100) "k" 1 0 None in
  let p2 := DocTable_Put p1.2 "k2" 1 0 None in
  let d := DocTable_Delete p2.2 "k" in
  p1.1 = 1%N ∧ p2.1 = 2%N ∧ d.1 = true
  ∧ DocTable_GetId d.2 "k" = 0%N ∧ DocTable_GetId d.2 "k2" = 2%N.
Proof. vm_compute. done. Qed.

End DocTable.

(** ** Dispatch, deletion and persistence of the rules ([src/rules/rules.c]) *)

Module Rules.
Import Dict.

(** The two return codes of the Redis module API (redismodule.h). *)
Definition REDISMODULE_OK : Z := 0.
Definition REDISMODULE_ERR : Z := 1.

Definition RULES_CURRENT_VERSION : Z := 0.

(** [QueryError e = {0}] has the code [QUERY_OK]. *)
Definition QUERY_OK : Z := 0.

Record QueryError := {
  code : Z;
  detail : option string;
}.

Definition QueryError_init : QueryError := {| code := 0; detail := None |}.

Definition QueryError_HasError (status : QueryError) : bool := negb (code status =? QUERY_OK).

Definition QueryError_ClearError (status : QueryError) : QueryError := QueryError_init.

(** The fields of [struct IndexSpec] that rules.c reads or writes. *)
Record IndexSpec := {
  name : string;
  flags : Z;
  docs : DocTable.DocTable;
}.

(** An [IndexSpec *] is an address; [store] is the memory holding the index
    specs, shared by [specDict], [rindexes_g] and the async queue. *)
Definition ptr : Type := nat.
Definition store : Type := ptr → IndexSpec.

Definition store_set (m : store) (p : ptr) (sp : IndexSpec) : store :=
  λ q, if Nat.eqb q p then sp else m q.

(** A C condition [flags & bit]. *)
Definition has_flag (flags bit : Z) : bool := negb (Z.land flags bit =? 0).

(** Modelled from the spec: the RDB stream of the Redis module API is not
    among the sources.  The rules are persisted in "a length-prefixed
    sequential encoding: count of rules, then per rule {indexName, ruleName,
    argCount, rawArgs...}".  [RedisModule_SaveUnsigned] and
    [RedisModule_SaveStringBuffer] write one entry each, the matching loads
    read one back; a load that meets the end of the stream or an entry of the
    other kind is an I/O error ([None]). *)
Inductive RdbItem :=
| RdbUnsigned (n : N)
| RdbString (s : string).

Definition RedisModule_LoadUnsigned (rdb : list RdbItem) : option (N * list RdbItem) :=
  match rdb with
  | RdbUnsigned n :: rdb' => Some (n, rdb')
  | _ => None
  end.

Definition RedisModule_LoadString (rdb : list RdbItem) : option (string * list RdbItem) :=
  match rdb with
  | RdbString s :: rdb' => Some (s, rdb')
  | _ => None
  end.

(** What a call returns: normally, or not at all because an [assert] failed. *)
Inductive outcome (A : Type) :=
| Done (a : A)
| AssertFailed.
Arguments Done {A} a.
Arguments AssertFailed {A}.

Section rules_c.
(** Constants of headers that are not among the sources. *)
Variable RULES_PROCESS_F_NOREINDEX RULES_PROCESS_F_ASYNC : Z.
Variable Index_Async : Z.
Variable QUERY_ENOIDXFIELDS : Z.
Variable REDISMODULE_NOTIFY_GENERIC REDISMODULE_NOTIFY_EXPIRED
         REDISMODULE_NOTIFY_EVICTED : Z.
Variable REDISMODULE_AUX_BEFORE_RDB : Z.

(** The parsed part of a rule and the attributes of a match are opaque here. *)
Variable RuleBody : Type.
Variable IndexItemAttrs : Type.

Record SchemaRule := {
  index : string;
  rule_name : string;
  rawrule : list string;
  body : RuleBody;
}.

Record MatchAction := {
  action_index : string;
  attrs : IndexItemAttrs;
}.

Record SchemaRules := {
  rules : list SchemaRule;
  actions : list MatchAction;
}.

(** A submission to the async queue: [AIQ_Submit(asyncQueue_g, spec, result, item)]. *)
Record AIQ_entry := {
  aiq_spec : ptr;
  aiq_result : MatchAction;
  aiq_key : string;
}.

Record Globals := {
  mem : store;
  specDict : dict ptr;
  rindexes_g : list ptr;
  SchemaRules_g : SchemaRules;
  asyncQueue_g : list AIQ_entry;
}.

Definition set_mem (g : Globals) (m : store) : Globals :=
  {| mem := m; specDict := specDict g; rindexes_g := rindexes_g g;
     SchemaRules_g := SchemaRules_g g; asyncQueue_g := asyncQueue_g g |}.

Definition set_rules (g : Globals) (r : SchemaRules) : Globals :=
  {| mem := mem g; specDict := specDict g; rindexes_g := rindexes_g g;
     SchemaRules_g := r; asyncQueue_g := asyncQueue_g g |}.

(** Collaborators: the rule engine's check and parser, the alias table and
    the indexing pipeline. *)
Variable SchemaRules_Check : SchemaRules → string → list MatchAction.
Variable SchemaRules_AddArgs :
  SchemaRules → string → string → list string → Z * QueryError * SchemaRules.
Variable IndexAlias_Get : string → option ptr.
Variable Document : Type.
Variable RSAddDocumentCtx : Type.
Variable Document_Init : string → IndexItemAttrs → Document.
Variable Document_LoadSchemaFields :
  Document → IndexSpec → QueryError → Z * Document * QueryError.
Variable ACTX_New : IndexSpec → Document → QueryError → option RSAddDocumentCtx * QueryError.
Variable ACTX_Index : RSAddDocumentCtx → IndexSpec → RSAddDocumentCtx * IndexSpec.
Variable ACTX_status : RSAddDocumentCtx → QueryError.

Definition SchemaRules_Create : SchemaRules := {| rules := []; actions := [] |}.

(** Modelled from the spec: "submit (index, match attrs, key) to
    AsyncIndexQueue; submission ... returns immediately; actual indexing
    happens later on a worker". *)
Definition AIQ_Submit (g : Globals) (p : ptr) (result : MatchAction) (key : string)
  : Globals :=
  {| mem := mem g; specDict := specDict g; rindexes_g := rindexes_g g;
     SchemaRules_g := SchemaRules_g g;
     asyncQueue_g := asyncQueue_g g ++ [ {| aiq_spec := p; aiq_result := result;
                                            aiq_key := key |} ] |}.

(** [IndexSpec_Load(ctx, name, 1)] ([src/spec.c], [IndexSpec_LoadEx]): the
    registry first, then the aliases. *)
Definition IndexSpec_Load (g : Globals) (ixname : string) : option ptr :=
  match dictFetchValue (specDict g) ixname with
  | Some p => Some p
  | None => IndexAlias_Get ixname
  end.

Definition SchemaRules_InitACTX (sp : IndexSpec) (key : string) (a : IndexItemAttrs)
    (e : QueryError) : option RSAddDocumentCtx * QueryError :=
  let d := Document_Init key a in
  let '(rv, d, e) := Document_LoadSchemaFields d sp e in
  if negb (rv =? REDISMODULE_OK) then (None, e)
  else ACTX_New sp d e.

Definition SchemaRules_IndexDocument (g : Globals) (p : ptr) (key : string)
    (a : IndexItemAttrs) (e : QueryError) : outcome (Z * QueryError * Globals) :=
  let sp := mem g p in
  match SchemaRules_InitACTX sp key a e with
  | (None, e) => Done (REDISMODULE_ERR, e, g)
  | (Some aCtx, e) =>
      let '(aCtx, sp') := ACTX_Index aCtx sp in
      if QueryError_HasError (ACTX_status aCtx) then AssertFailed
      else Done (REDISMODULE_OK, e, set_mem g (store_set (mem g) p sp'))
  end.

(** The guard of the loop body: in SCAN mode and the document already exists
    in the index. *)
Definition already_indexed (flags : Z) (sp : IndexSpec) (key : string) : bool :=
  has_flag flags RULES_PROCESS_F_NOREINDEX
  && bool_decide (is_Some (DocTable.DocTable_GetByKey (docs sp) key)).

(** The rest of the loop body: submit to the queue, or index now. *)
Definition index_match (flags : Z) (key : string) (g : Globals) (p : ptr)
    (result : MatchAction) : outcome Globals :=
  let sp := mem g p in
  if has_flag flags RULES_PROCESS_F_ASYNC || has_flag (Rules.flags sp) Index_Async then
    Done (AIQ_Submit g p result key)
  else
    let e := QueryError_init in
    match SchemaRules_IndexDocument g p key (attrs result) e with
    | AssertFailed => AssertFailed
    | Done (rc, e, g') =>
        let rc :=
          if negb (rc =? REDISMODULE_OK) then
            if code e =? QUERY_ENOIDXFIELDS then REDISMODULE_OK else rc
          else rc in
        if rc =? REDISMODULE_OK then Done g' else AssertFailed
    end.

Definition process_match (flags : Z) (key : string) (g : Globals) (result : MatchAction)
  : outcome Globals :=
  match IndexSpec_Load g (action_index result) with
  | None => AssertFailed
  | Some p =>
      if already_indexed flags (mem g p) key then Done g
      else index_match flags key g p result
  end.

Fixpoint process_matches (flags : Z) (key : string) (g : Globals)
    (results : list MatchAction) : outcome Globals :=
  match results with
  | [] => Done g
  | result :: results' =>
      match process_match flags key g result with
      | AssertFailed => AssertFailed
      | Done g' => process_matches flags key g' results'
      end
  end.

Definition SchemaRules_ProcessItem (g : Globals) (key : string) (flags : Z)
  : outcome Globals :=
  process_matches flags key g (SchemaRules_Check (SchemaRules_g g) key).

(** [*action == 'd'] *)
Definition starts_with_d (action : string) : bool :=
  match action with
  | String c _ => Ascii.eqb c "d"%char
  | EmptyString => false
  end.

Definition DocTable_DeleteR (sp : IndexSpec) (keyname : string) : IndexSpec :=
  {| name := name sp; flags := Rules.flags sp;
     docs := (DocTable.DocTable_Delete (docs sp) keyname).2 |}.

Definition delCallback (g : Globals) (event : Z) (action : string) (keyname : string)
  : Z * Globals :=
  let shouldDelete :=
    if has_flag event (Z.lor REDISMODULE_NOTIFY_EVICTED REDISMODULE_NOTIFY_EXPIRED)
    then true
    else if (event =? REDISMODULE_NOTIFY_GENERIC) && starts_with_d action then true
    else false in
  if negb shouldDelete then (REDISMODULE_OK, g)
  else
    let m :=
      fold_left (λ m p, store_set m p (DocTable_DeleteR (m p) keyname))
        (rindexes_g g) (mem g) in
    (REDISMODULE_OK, set_mem g m).

Definition save_rule (r : SchemaRule) : list RdbItem :=
  RdbString (index r) :: RdbString (rule_name r)
  :: RdbUnsigned (N.of_nat (length (rawrule r)))
  :: map RdbString (rawrule r).

Definition rulesAuxSave (g : Globals) (when : Z) : list RdbItem :=
  if negb (when =? REDISMODULE_AUX_BEFORE_RDB) then []
  else
    let registry := SchemaRules_g g in
    RdbUnsigned (N.of_nat (length (rules registry)))
    :: concat (map save_rule (rules registry)).

Fixpoint load_args (nargs : nat) (rdb : list RdbItem)
  : option (list string * list RdbItem) :=
  match nargs with
  | O => Some ([], rdb)
  | S n =>
      match RedisModule_LoadString rdb with
      | None => None
      | Some (s, rdb) =>
          match load_args n rdb with
          | None => None
          | Some (args, rdb) => Some (s :: args, rdb)
          end
      end
  end.

Fixpoint load_rules (nrules : nat) (rules : SchemaRules) (rdb : list RdbItem)
  : option (Z * SchemaRules * list RdbItem) :=
  match nrules with
  | O => Some (REDISMODULE_OK, rules, rdb)
  | S n =>
      '(index, rdb) ← RedisModule_LoadString rdb;
      '(name, rdb) ← RedisModule_LoadString rdb;
      '(nargs, rdb) ← RedisModule_LoadUnsigned rdb;
      '(args, rdb) ← load_args (N.to_nat nargs) rdb;
      let '(rc, status, rules) := SchemaRules_AddArgs rules index name args in
      if negb (rc =? REDISMODULE_OK) then Some (REDISMODULE_ERR, rules, rdb)
      else load_rules n rules rdb
  end.

Definition rulesAuxLoad (g : Globals) (rdb : list RdbItem) (encver when : Z)
  : option (Z * Globals * list RdbItem) :=
  if RULES_CURRENT_VERSION <? encver then Some (REDISMODULE_ERR, g, rdb)
  else if negb (when =? REDISMODULE_AUX_BEFORE_RDB) then Some (REDISMODULE_OK, g, rdb)
  else
    '(nrules, rdb) ← RedisModule_LoadUnsigned rdb;
    '(rc, rules, rdb) ← load_rules (N.to_nat nrules) (SchemaRules_g g) rdb;
    Some (rc, set_rules g rules, rdb).

(** *** Deletion dispatch *)

Variable REDISMODULE_NOTIFY_HASH : Z.

(** [hashCallback]: the key is processed with no flag set. *)
Definition hashCallback (g : Globals) (unused : Z) (action : string) (key : string)
  : outcome (Z * Globals) :=
  match SchemaRules_ProcessItem g key 0 with
  | AssertFailed => AssertFailed
  | Done g' => Done (REDISMODULE_OK, g')
  end.

(** A subscription made with [RedisModule_SubscribeToKeyspaceEvents]: the
    classes of events asked for and the callback. *)
Record Subscription := {
  sub_types : Z;
  sub_callback : Globals → Z → string → string → outcome (Z * Globals);
}.

(** [SchemaRules_InitGlobal]: the queue and the registry are created;
    [hashCallback] is subscribed to the hash events and [delCallback] to the
    generic and the expired events. *)
Definition SchemaRules_InitGlobal (g : Globals) : Globals * list Subscription :=
  ({| mem := mem g; specDict := specDict g; rindexes_g := rindexes_g g;
      SchemaRules_g := SchemaRules_Create; asyncQueue_g := [] |},
   [ {| sub_types := REDISMODULE_NOTIFY_HASH; sub_callback := hashCallback |};
     {| sub_types := Z.lor REDISMODULE_NOTIFY_GENERIC REDISMODULE_NOTIFY_EXPIRED;
        sub_callback := λ g event action keyname,
                          Done (delCallback g event action keyname) |} ]).

(** The server's side of the module API, which is not among the sources: a
    keyspace event is handed to the callback of every subscription that asked
    for a class the event is of, in the order the subscriptions were made. *)
Fixpoint notify (subs : list Subscription) (g : Globals) (event : Z)
    (action key : string) : outcome Globals :=
  match subs with
  | [] => Done g
  | s :: subs' =>
      if has_flag event (sub_types s) then
        match sub_callback s g event action key with
        | AssertFailed => AssertFailed
        | Done (_, g') => notify subs' g' event action key
        end
      else notify subs' g event action key
  end.

(** The notifications of a deleted or an expired key: the event ["del"] of the
    generic class, an event of the expired class. *)
Definition key_deleted_or_expired (event : Z) (action : string) : bool :=
  (event =? REDISMODULE_NOTIFY_GENERIC) && has_flag event REDISMODULE_NOTIFY_GENERIC
  && String.eqb action "del"
  || has_flag event REDISMODULE_NOTIFY_EXPIRED.

(** Deletion as the spec words it: after the notification no index that held
    the key holds it. *)
Definition deletion_reaches_every_holder (subs : list Subscription) (g : Globals)
    (event : Z) (action key : string) : Prop :=
  ∀ p, DocTable.DocTable_GetId (docs (mem g p)) key ≠ 0%N →
       ∃ g', notify subs g event action key = Done g'
             ∧ DocTable.DocTable_GetId (docs (mem g' p)) key = 0%N.

Lemma has_flag_lor (flags a b : Z) :
  has_flag flags (Z.lor a b) = has_flag flags a || has_flag flags b.
Proof.
  unfold has_flag. rewrite Z.land_lor_distr_r.
  destruct (Z.eqb_spec (Z.land flags a) 0) as [Ha | Ha];
    destruct (Z.eqb_spec (Z.land flags b) 0) as [Hb | Hb]; simpl.
  - rewrite Ha, Hb. reflexivity.
  - apply negb_true_iff, Z.eqb_neq. rewrite Z.lor_eq_0_iff. tauto.
  - apply negb_true_iff, Z.eqb_neq. rewrite Z.lor_eq_0_iff. tauto.
  - apply negb_true_iff, Z.eqb_neq. rewrite Z.lor_eq_0_iff. tauto.
Qed.

Lemma DocTable_DeleteR_GetId (sp : IndexSpec) keyname :
  DocTable.DocTable_GetId (docs (DocTable_DeleteR sp keyname)) keyname = 0%N.
Proof.
  unfold DocTable_DeleteR, DocTable.DocTable_GetId, DocTable.DocIdMap_Get,
    DocTable.DocTable_Delete, DocTable.DocIdMap_Delete. simpl.
  destruct (DocTable.dim (docs sp) !! keyname) eqn:E; simpl.
  - by rewrite lookup_delete_eq.
  - by rewrite E.
Qed.

Lemma DocTable_DeleteR_row (sp : IndexSpec) keyname docId :
  DocTable.dim (docs sp) !! keyname = Some docId →
  DocTable.docs (docs (DocTable_DeleteR sp keyname)) !! docId = None.
Proof.
  intros E. unfold DocTable_DeleteR, DocTable.DocTable_Delete. simpl.
  rewrite E. simpl. apply lookup_delete_eq.
Qed.

Lemma DocTable_DeleteR_idem (sp : IndexSpec) keyname :
  DocTable_DeleteR (DocTable_DeleteR sp keyname) keyname = DocTable_DeleteR sp keyname.
Proof.
  assert (DocTable.dim (docs (DocTable_DeleteR sp keyname)) !! keyname = None) as E.
  { pose proof (DocTable_DeleteR_GetId sp keyname) as H.
    unfold DocTable_DeleteR, DocTable.DocTable_Delete, DocTable.DocIdMap_Delete in *.
    simpl in *. destruct (DocTable.dim (docs sp) !! keyname) eqn:E'; simpl.
    - by rewrite lookup_delete_eq.
    - done. }
  unfold DocTable_DeleteR at 1. unfold DocTable.DocTable_Delete. rewrite E. done.
Qed.

Lemma broadcast_delete (l : list ptr) (m : store) keyname p :
  fold_left (λ m p, store_set m p (DocTable_DeleteR (m p) keyname)) l m p =
  if bool_decide (p ∈ l) then DocTable_DeleteR (m p) keyname else m p.
Proof.
  revert m. induction l as [|a l IH]; intros m.
  - case_bool_decide as Hin; [by apply elem_of_nil in Hin | done].
  - cbn [fold_left]. rewrite IH. unfold store_set.
    destruct (Nat.eqb_spec p a) as [-> | Hne].
    + rewrite (bool_decide_eq_true_2 (a ∈ a :: l)); [|left].
      case_bool_decide; [apply DocTable_DeleteR_idem | done].
    + destruct (decide (p ∈ l)) as [Hin | Hin].
      * rewrite !bool_decide_eq_true_2; [done | by right | done].
      * rewrite !bool_decide_eq_false_2; [done | | done].
        rewrite not_elem_of_cons. done.
Qed.

(** A notification that no subscription asked for changes nothing. *)
Lemma notify_undelivered (g0 g : Globals) (event : Z) (action keyname : string) :
  has_flag event REDISMODULE_NOTIFY_HASH = false →
  has_flag event (Z.lor REDISMODULE_NOTIFY_GENERIC REDISMODULE_NOTIFY_EXPIRED) = false →
  notify (SchemaRules_InitGlobal g0).2 g event action keyname = Done g.
Proof. intros Hhash Hdel. simpl. by rewrite Hhash, Hdel. Qed.

(** C4.  When the notification of a deleted or an expired key (not a hash
    event) is delivered to the callbacks that [SchemaRules_InitGlobal]
    subscribed, every index of [rindexes_g] loses the key: its table answers 0
    for the key and the row of the id it held is gone; an index outside the
    list is left as it is.  The rule registry is not consulted: the outcome is
    the same whatever rules are registered. *)
Theorem delete_dispatch (g0 g : Globals) (event : Z) (action keyname : string) :
  key_deleted_or_expired event action = true →
  has_flag event REDISMODULE_NOTIFY_HASH = false →
  ∃ g',
    notify (SchemaRules_InitGlobal g0).2 g event action keyname = Done g'
    ∧ (∀ p, p ∈ rindexes_g g →
         DocTable.DocTable_GetId (docs (mem g' p)) keyname = 0%N
         ∧ DocTable.DocTable_GetByKey (docs (mem g' p)) keyname = None
         ∧ ∀ docId, DocTable.dim (docs (mem g p)) !! keyname = Some docId →
                    DocTable.docs (docs (mem g' p)) !! docId = None)
    ∧ (∀ p, p ∉ rindexes_g g → mem g' p = mem g p)
    ∧ (∀ registry,
         notify (SchemaRules_InitGlobal g0).2 (set_rules g registry) event action keyname
         = Done (set_rules g' registry)).
Proof.
  intros Hev Hhash.
  assert (has_flag event (Z.lor REDISMODULE_NOTIFY_GENERIC REDISMODULE_NOTIFY_EXPIRED)
          = true) as Hdelivered.
  { rewrite has_flag_lor. unfold key_deleted_or_expired in Hev.
    destruct (has_flag event REDISMODULE_NOTIFY_EXPIRED); [apply orb_true_r|].
    rewrite orb_false_r in Hev. apply andb_prop in Hev as [Hev _].
    apply andb_prop in Hev as [_ ->]. done. }
  assert (∀ g1, delCallback g1 event action keyname
                = (REDISMODULE_OK,
                   set_mem g1
                     (fold_left (λ m p, store_set m p (DocTable_DeleteR (m p) keyname))
                        (rindexes_g g1) (mem g1)))) as Hdel.
  { intros g1. unfold delCallback. rewrite has_flag_lor.
    unfold key_deleted_or_expired in Hev.
    destruct (has_flag event REDISMODULE_NOTIFY_EXPIRED); [by rewrite orb_true_r|].
    rewrite orb_false_r in Hev |- *. apply andb_prop in Hev as [Hev Hact].
    apply andb_prop in Hev as [-> _]. apply String.eqb_eq in Hact as ->.
    by destruct (has_flag event REDISMODULE_NOTIFY_EVICTED). }
  simpl. rewrite Hhash, Hdelivered, !Hdel. eexists. split; [done|]. simpl.
  split_and!.
  - intros p Hin. rewrite broadcast_delete.
    rewrite bool_decide_eq_true_2 by done.
    assert (DocTable.DocTable_GetId (docs (DocTable_DeleteR (mem g p) keyname)) keyname
            = 0%N) as H0 by apply DocTable_DeleteR_GetId.
    split_and!; [done | | apply DocTable_DeleteR_row].
    unfold DocTable.DocTable_GetByKey. rewrite H0. done.
  - intros p Hp. rewrite broadcast_delete. by rewrite bool_decide_eq_false_2.
  - intros registry. rewrite Hdel. done.
Qed.

(** *** Persistence of the rules *)

(** Running the creation-time parser over the raw arguments of each rule of
    [l], in order, stopping at the first that fails. *)
Fixpoint replay (registry : SchemaRules) (l : list SchemaRule) : Z * SchemaRules :=
  match l with
  | [] => (REDISMODULE_OK, registry)
  | r :: l' =>
      let '(rc, status, registry') :=
        SchemaRules_AddArgs registry (index r) (rule_name r) (rawrule r) in
      if negb (rc =? REDISMODULE_OK) then (REDISMODULE_ERR, registry')
      else replay registry' l'
  end.

(** Every rule of [l] parses again. *)
Fixpoint reparses (registry : SchemaRules) (l : list SchemaRule) : bool :=
  match l with
  | [] => true
  | r :: l' =>
      let '(rc, status, registry') :=
        SchemaRules_AddArgs registry (index r) (rule_name r) (rawrule r) in
      (rc =? REDISMODULE_OK) && reparses registry' l'
  end.

Lemma replay_rc (registry : SchemaRules) (l : list SchemaRule) :
  (replay registry l).1 = if reparses registry l then REDISMODULE_OK else REDISMODULE_ERR.
Proof.
  revert registry. induction l as [|r l IH]; intros registry; simpl; [done|].
  destruct (SchemaRules_AddArgs registry (index r) (rule_name r) (rawrule r))
    as [[rc status] registry'].
  destruct (rc =? REDISMODULE_OK); simpl; [apply IH | done].
Qed.

Lemma load_args_saved (args : list string) (rest : list RdbItem) :
  load_args (length args) (map RdbString args ++ rest) = Some (args, rest).
Proof.
  induction args as [|a args IH]; simpl; [done|]. by rewrite IH.
Qed.

Lemma load_rules_saved (l : list SchemaRule) (registry : SchemaRules)
    (rest : list RdbItem) :
  ∃ rest', load_rules (length l) registry (concat (map save_rule l) ++ rest)
           = Some ((replay registry l).1, (replay registry l).2, rest')
           ∧ ((replay registry l).1 = REDISMODULE_OK → rest' = rest).
Proof.
  revert registry. induction l as [|r l IH]; intros registry; simpl.
  - by exists rest.
  - rewrite Nat2N.id. rewrite <- app_assoc, load_args_saved. simpl.
    destruct (SchemaRules_AddArgs registry (index r) (rule_name r) (rawrule r))
      as [[rc status] registry'].
    destruct (rc =? REDISMODULE_OK); simpl.
    + apply IH.
    + eexists. split; [done | done].
Qed.

(** The loader re-runs the parser on what the serializer wrote: the same
    index names, rule names and raw arguments, in the same order. *)
Lemma load_reruns_parser (saved g0 : Globals) :
  ∃ g' rest,
    rulesAuxLoad g0 (rulesAuxSave saved REDISMODULE_AUX_BEFORE_RDB)
      RULES_CURRENT_VERSION REDISMODULE_AUX_BEFORE_RDB
    = Some ((replay (SchemaRules_g g0) (rules (SchemaRules_g saved))).1, g', rest)
    ∧ SchemaRules_g g' = (replay (SchemaRules_g g0) (rules (SchemaRules_g saved))).2
    ∧ ((replay (SchemaRules_g g0) (rules (SchemaRules_g saved))).1 = REDISMODULE_OK →
       rest = []).
Proof.
  unfold rulesAuxLoad, rulesAuxSave. rewrite Z.eqb_refl, Z.ltb_irrefl. simpl.
  rewrite Nat2N.id.
  destruct (load_rules_saved (rules (SchemaRules_g saved)) (SchemaRules_g g0) [])
    as (rest' & Hload & Hrest).
  rewrite app_nil_r in Hload. rewrite Hload. simpl.
  eexists _, _. split_and!; [done | done | done].
Qed.

(** For a registry whose rules are what the creation-time parser makes of
    their raw arguments, loading what the serializer wrote into an empty
    registry succeeds, reads the whole stream and gives the registry back. *)
Lemma load_saved_registry (g : Globals) :
  replay SchemaRules_Create (rules (SchemaRules_g g)) = (REDISMODULE_OK, SchemaRules_g g) →
  ∃ g',
    rulesAuxLoad (set_rules g SchemaRules_Create)
      (rulesAuxSave g REDISMODULE_AUX_BEFORE_RDB)
      RULES_CURRENT_VERSION REDISMODULE_AUX_BEFORE_RDB
    = Some (REDISMODULE_OK, g', [])
    ∧ SchemaRules_g g' = SchemaRules_g g
    ∧ map (λ r, (index r, rule_name r, rawrule r)) (rules (SchemaRules_g g'))
      = map (λ r, (index r, rule_name r, rawrule r)) (rules (SchemaRules_g g)).
Proof.
  intros Hparsed.
  destruct (load_reruns_parser g (set_rules g SchemaRules_Create))
    as (g' & rest & Hload & Hrules & Hrest).
  simpl in *. rewrite Hparsed in *. simpl in *.
  exists g'. rewrite Hload, (Hrest eq_refl), Hrules. done.
Qed.

(** C6.  The loader returns the error code, whatever the stream, when the
    encoding version is newer than the current one; on a stream the serializer
    wrote it returns the error code when some rule's raw arguments fail to
    parse again, and success only when every rule parses. *)
Theorem load_error_is_fatal (saved g0 : Globals) (rdb : list RdbItem)
    (newer older when : Z) :
  RULES_CURRENT_VERSION < newer → older ≤ RULES_CURRENT_VERSION →
  rulesAuxLoad g0 rdb newer when = Some (REDISMODULE_ERR, g0, rdb)
  ∧ ∃ g' rest,
      rulesAuxLoad g0 (rulesAuxSave saved REDISMODULE_AUX_BEFORE_RDB)
        older REDISMODULE_AUX_BEFORE_RDB
      = Some (if reparses (SchemaRules_g g0) (rules (SchemaRules_g saved))
              then REDISMODULE_OK else REDISMODULE_ERR, g', rest).
Proof.
  intros Hnew Hold. split.
  - unfold rulesAuxLoad. by rewrite (proj2 (Z.ltb_lt _ _) Hnew).
  - destruct (load_reruns_parser saved g0) as (g' & rest & Hload & _).
    exists g', rest. rewrite <- replay_rc, <- Hload.
    unfold rulesAuxLoad. rewrite Z.ltb_irrefl.
    by rewrite (proj2 (Z.ltb_ge _ _) Hold).
Qed.

(** *** Dispatch of a match *)

(** What indexing a document now comes to, in the spec's terms: the document
    was indexed; the indexing context could not be set up and the error is
    [QUERY_ENOIDXFIELDS]; or anything else went wrong, in the set-up or in
    [ACTX_Index]. *)
Inductive sync_result :=
| Indexed (sp' : IndexSpec)
| NoIndexableFields
| OtherFailure.

Definition sync_index (sp : IndexSpec) (key : string) (a : IndexItemAttrs) : sync_result :=
  match SchemaRules_InitACTX sp key a QueryError_init with
  | (None, e) => if code e =? QUERY_ENOIDXFIELDS then NoIndexableFields else OtherFailure
  | (Some aCtx, _) =>
      let '(aCtx, sp') := ACTX_Index aCtx sp in
      if QueryError_HasError (ACTX_status aCtx) then OtherFailure else Indexed sp'
  end.

(** Neither the caller nor the index asks for asynchronous indexing. *)
Definition synchronous (flags : Z) (sp : IndexSpec) : bool :=
  negb (has_flag flags RULES_PROCESS_F_ASYNC || has_flag (Rules.flags sp) Index_Async).

Lemma index_match_result (flags : Z) (key : string) (g : Globals) (p : ptr)
    (result : MatchAction) :
  index_match flags key g p result =
    if synchronous flags (mem g p) then
      match sync_index (mem g p) key (attrs result) with
      | Indexed sp' => Done (set_mem g (store_set (mem g) p sp'))
      | NoIndexableFields => Done g
      | OtherFailure => AssertFailed
      end
    else Done (AIQ_Submit g p result key).
Proof.
  unfold index_match, synchronous, sync_index, SchemaRules_IndexDocument.
  destruct (has_flag flags RULES_PROCESS_F_ASYNC || has_flag _ Index_Async); simpl; [done|].
  destruct (SchemaRules_InitACTX (mem g p) key (attrs result) QueryError_init)
    as [[aCtx|] e]; simpl.
  - destruct (ACTX_Index aCtx (mem g p)) as [aCtx' sp'].
    destruct (QueryError_HasError (ACTX_status aCtx')); done.
  - destruct (code e =? QUERY_ENOIDXFIELDS); done.
Qed.

(** C7.  On the synchronous path a document with no indexable fields counts
    as success, nothing is changed and the next match is processed; any other
    indexing failure fails the assertion. *)
Theorem sync_failure_handling (flags : Z) (key : string) (g : Globals)
    (result : MatchAction) (rest : list MatchAction) (p : ptr) :
  IndexSpec_Load g (action_index result) = Some p →
  already_indexed flags (mem g p) key = false →
  synchronous flags (mem g p) = true →
  process_matches flags key g (result :: rest) =
    match sync_index (mem g p) key (attrs result) with
    | NoIndexableFields => process_matches flags key g rest
    | OtherFailure => AssertFailed
    | Indexed sp' => process_matches flags key (set_mem g (store_set (mem g) p sp')) rest
    end.
Proof.
  intros Hload Hnew Hsync. simpl. unfold process_match.
  rewrite Hload, Hnew, index_match_result, Hsync.
  destruct (sync_index (mem g p) key (attrs result)); done.
Qed.

(** C8.  With the no-reindex flag, a match whose index holds a live row for
    the key is skipped: nothing is submitted or indexed and the next match is
    processed.  Without the flag, or when the index holds no row for the key,
    the match is indexed: submitted to the queue, or indexed now. *)
Theorem noreindex_skips (flags : Z) (key : string) (g : Globals)
    (result : MatchAction) (rest : list MatchAction) (p : ptr) :
  IndexSpec_Load g (action_index result) = Some p →
  (has_flag flags RULES_PROCESS_F_NOREINDEX = true →
   is_Some (DocTable.DocTable_GetByKey (docs (mem g p)) key) →
   process_match flags key g result = Done g
   ∧ process_matches flags key g (result :: rest) = process_matches flags key g rest)
  ∧ (has_flag flags RULES_PROCESS_F_NOREINDEX = false
     ∨ DocTable.DocTable_GetByKey (docs (mem g p)) key = None →
     process_match flags key g result =
       if synchronous flags (mem g p) then
         match sync_index (mem g p) key (attrs result) with
         | Indexed sp' => Done (set_mem g (store_set (mem g) p sp'))
         | NoIndexableFields => Done g
         | OtherFailure => AssertFailed
         end
       else Done (AIQ_Submit g p result key)).
Proof.
  intros Hload. split.
  - intros Hflag Hrow.
    assert (process_match flags key g result = Done g) as Hskip.
    { unfold process_match, already_indexed. rewrite Hload, Hflag.
      by rewrite bool_decide_eq_true_2. }
    split; [done|]. simpl. by rewrite Hskip.
  - intros Hno. unfold process_match, already_indexed. rewrite Hload.
    rewrite <- index_match_result.
    destruct Hno as [-> | ->]; [done|].
    rewrite bool_decide_eq_false_2; [by rewrite andb_false_r | by intros [? ?]].
Qed.

(** *** Further facts about dispatch, deletion and persistence *)

Lemma DocTable_DeleteR_other (sp : IndexSpec) keyname k :
  k ≠ keyname →
  DocTable.DocTable_GetId (docs (DocTable_DeleteR sp keyname)) k
  = DocTable.DocTable_GetId (docs sp) k.
Proof.
  intros Hne. unfold DocTable_DeleteR, DocTable.DocTable_GetId, DocTable.DocIdMap_Get,
    DocTable.DocTable_Delete, DocTable.DocIdMap_Delete. simpl.
  destruct (DocTable.dim (docs sp) !! keyname) eqn:E; simpl; [|done].
  by rewrite lookup_delete_ne.
Qed.

Lemma delCallback_result (g : Globals) (event : Z) (action keyname : string) :
  delCallback g event action keyname = (REDISMODULE_OK, g)
  ∨ delCallback g event action keyname
    = (REDISMODULE_OK,
       set_mem g
         (fold_left (λ m p, store_set m p (DocTable_DeleteR (m p) keyname))
            (rindexes_g g) (mem g))).
Proof. unfold delCallback. destruct (negb _); [by left | by right]. Qed.

(** X4.  The delete broadcast returns [REDISMODULE_OK] and is confined to the
    key it is given: whatever the event, an index that is not in [rindexes_g]
    is left as it is, every other key keeps its id in every index, no index
    changes its name or flags, and the registry, the list of indexes, the
    rules and the queue are untouched. *)
Theorem delCallback_frame (g : Globals) (event : Z) (action keyname : string) :
  let r := delCallback g event action keyname in
  r.1 = REDISMODULE_OK
  ∧ specDict r.2 = specDict g ∧ rindexes_g r.2 = rindexes_g g
  ∧ SchemaRules_g r.2 = SchemaRules_g g ∧ asyncQueue_g r.2 = asyncQueue_g g
  ∧ (∀ p, p ∉ rindexes_g g → mem r.2 p = mem g p)
  ∧ (∀ p k, k ≠ keyname →
       DocTable.DocTable_GetId (docs (mem r.2 p)) k
       = DocTable.DocTable_GetId (docs (mem g p)) k)
  ∧ (∀ p, name (mem r.2 p) = name (mem g p)
          ∧ Rules.flags (mem r.2 p) = Rules.flags (mem g p)).
Proof.
  intros r. subst r.
  destruct (delCallback_result g event action keyname) as [-> | ->]; simpl.
  { by split_and!. }
  split_and!; try done.
  - intros p Hp. rewrite broadcast_delete. by rewrite bool_decide_eq_false_2.
  - intros p k Hk. rewrite broadcast_delete. case_bool_decide; [|done].
    by apply DocTable_DeleteR_other.
  - intros p. rewrite broadcast_delete. by case_bool_decide.
Qed.

(** X5.  The delete broadcast is idempotent: a second notification for the
    same key leaves every index as the first one left it. *)
Theorem delCallback_idempotent (g : Globals) (event : Z) (action keyname : string) :
  ∀ p, mem (delCallback (delCallback g event action keyname).2 event action keyname).2 p
       = mem (delCallback g event action keyname).2 p.
Proof.
  intros p. unfold delCallback.
  set (shouldDelete :=
         if has_flag event (Z.lor REDISMODULE_NOTIFY_EVICTED REDISMODULE_NOTIFY_EXPIRED)
         then true
         else if (event =? REDISMODULE_NOTIFY_GENERIC) && starts_with_d action then true
              else false).
  destruct shouldDelete; simpl; [|done].
  rewrite !broadcast_delete.
  case_bool_decide; [apply DocTable_DeleteR_idem | done].
Qed.

(** The submissions of a run in forced asynchronous mode: one for each match
    that is not skipped, in the order of the matches. *)
Definition async_submissions (flags : Z) (key : string) (g : Globals)
    (results : list MatchAction) : list AIQ_entry :=
  omap
    (λ result,
       match IndexSpec_Load g (action_index result) with
       | Some p =>
           if already_indexed flags (mem g p) key then None
           else Some {| aiq_spec := p; aiq_result := result; aiq_key := key |}
       | None => None
       end)
    results.

Lemma IndexSpec_Load_specDict (g g' : Globals) ixname :
  specDict g' = specDict g → IndexSpec_Load g' ixname = IndexSpec_Load g ixname.
Proof. unfold IndexSpec_Load. by intros ->. Qed.

Lemma forced_async_gen (flags : Z) (key : string) (g : Globals)
    (results : list MatchAction) :
  has_flag flags RULES_PROCESS_F_ASYNC = true →
  ∀ g1, specDict g1 = specDict g → mem g1 = mem g → rindexes_g g1 = rindexes_g g →
        SchemaRules_g g1 = SchemaRules_g g →
  process_matches flags key g1 results =
    if forallb (λ r, bool_decide (is_Some (IndexSpec_Load g (action_index r)))) results
    then Done {| mem := mem g; specDict := specDict g; rindexes_g := rindexes_g g;
                 SchemaRules_g := SchemaRules_g g;
                 asyncQueue_g := asyncQueue_g g1 ++ async_submissions flags key g results |}
    else AssertFailed.
Proof.
  intros Hasync. induction results as [|r rs IH]; intros g1 Hd Hm Hr Hs.
  - simpl. rewrite app_nil_r. destruct g1; simpl in *. by subst.
  - cbn [process_matches forallb]. unfold process_match.
    rewrite (IndexSpec_Load_specDict g g1) by done.
    unfold async_submissions. cbn [omap list_omap].
    fold (async_submissions flags key g rs).
    destruct (IndexSpec_Load g (action_index r)) as [p|] eqn:Hload; [|done].
    rewrite bool_decide_eq_true_2 by eauto. cbn [andb]. rewrite Hm.
    destruct (already_indexed flags (mem g p) key).
    + by apply IH.
    + unfold index_match. rewrite Hasync. cbn [orb].
      rewrite (IH (AIQ_Submit g1 p r key)) by done.
      destruct (forallb _ rs); [|done]. simpl. by rewrite <- app_assoc.
Qed.

(** X6.  In forced asynchronous mode processing a key only queues: it fails
    only when a match names an index that cannot be loaded; otherwise the
    store and the other globals are unchanged and the queue is extended by
    one submission for each match that is not skipped, in match order. *)
Theorem forced_async_only_queues (flags : Z) (key : string) (g : Globals)
    (results : list MatchAction) :
  has_flag flags RULES_PROCESS_F_ASYNC = true →
  process_matches flags key g results =
    if forallb (λ r, bool_decide (is_Some (IndexSpec_Load g (action_index r)))) results
    then Done {| mem := mem g; specDict := specDict g; rindexes_g := rindexes_g g;
                 SchemaRules_g := SchemaRules_g g;
                 asyncQueue_g := asyncQueue_g g ++ async_submissions flags key g results |}
    else AssertFailed.
Proof. intros Hasync. by apply forced_async_gen. Qed.

Lemma index_match_frame (flags : Z) (key : string) (g g' : Globals) (p : ptr)
    (result : MatchAction) :
  index_match flags key g p result = Done g' →
  specDict g' = specDict g ∧ rindexes_g g' = rindexes_g g
  ∧ SchemaRules_g g' = SchemaRules_g g
  ∧ ∀ q, q ≠ p → mem g' q = mem g q.
Proof.
  rewrite index_match_result. destruct (synchronous flags (mem g p)).
  - destruct (sync_index (mem g p) key (attrs result)) as [sp'| |];
      intros [= <-]; simpl; split_and!; try done.
    intros q Hq. unfold store_set. by destruct (Nat.eqb_spec q p).
  - intros [= <-]. by split_and!.
Qed.

(** X7.  Processing a key changes no index but those its matches name: when
    it returns, the registry, the list of indexes and the rules are as before,
    and every index that no match resolves to is untouched. *)
Theorem process_touches_matched_only (flags : Z) (key : string) (g g' : Globals)
    (results : list MatchAction) :
  process_matches flags key g results = Done g' →
  specDict g' = specDict g ∧ rindexes_g g' = rindexes_g g
  ∧ SchemaRules_g g' = SchemaRules_g g
  ∧ ∀ q, (∀ r, r ∈ results → IndexSpec_Load g (action_index r) ≠ Some q) →
         mem g' q = mem g q.
Proof.
  revert g. induction results as [|r rs IH]; intros g; simpl.
  - intros [= <-]. by split_and!.
  - unfold process_match.
    destruct (IndexSpec_Load g (action_index r)) as [p|] eqn:Hload; [|done].
    assert (∀ g1, specDict g1 = specDict g → rindexes_g g1 = rindexes_g g →
                  SchemaRules_g g1 = SchemaRules_g g →
                  (∀ q, q ≠ p → mem g1 q = mem g q) →
                  process_matches flags key g1 rs = Done g' →
                  specDict g' = specDict g ∧ rindexes_g g' = rindexes_g g
                  ∧ SchemaRules_g g' = SchemaRules_g g
                  ∧ ∀ q, (∀ r0, r0 ∈ r :: rs →
                               IndexSpec_Load g (action_index r0) ≠ Some q) →
                         mem g' q = mem g q) as Hstep.
    { intros g1 Hd Hr Hs Hm Hrest.
      destruct (IH g1 Hrest) as (Hd' & Hr' & Hs' & Hm').
      split_and!; [congruence | congruence | congruence |].
      intros q Hq. rewrite Hm'.
      - apply Hm. intros ->. apply (Hq r); [left | done].
      - intros r0 Hr0. rewrite (IndexSpec_Load_specDict g g1) by done.
        apply Hq. by right. }
    destruct (already_indexed flags (mem g p) key).
    + by apply Hstep.
    + destruct (index_match flags key g p r) as [g1|] eqn:Him; [|done].
      apply index_match_frame in Him as (Hd & Hr & Hs & Hm). by apply Hstep.
Qed.

(** X8.  The loader reads exactly what the serializer wrote: when every saved
    rule parses, it succeeds and leaves whatever follows in the stream
    untouched. *)
Theorem load_leaves_rest (saved g0 : Globals) (rest : list RdbItem) :
  reparses (SchemaRules_g g0) (rules (SchemaRules_g saved)) = true →
  ∃ g',
    rulesAuxLoad g0 (rulesAuxSave saved REDISMODULE_AUX_BEFORE_RDB ++ rest)
      RULES_CURRENT_VERSION REDISMODULE_AUX_BEFORE_RDB
    = Some (REDISMODULE_OK, g', rest)
    ∧ SchemaRules_g g' = (replay (SchemaRules_g g0) (rules (SchemaRules_g saved))).2.
Proof.
  intros Hparse. unfold rulesAuxLoad, rulesAuxSave.
  rewrite Z.eqb_refl, Z.ltb_irrefl. simpl. rewrite Nat2N.id.
  destruct (load_rules_saved (rules (SchemaRules_g saved)) (SchemaRules_g g0) rest)
    as (rest' & Hload & Hrest).
  pose proof (replay_rc (SchemaRules_g g0) (rules (SchemaRules_g saved))) as Hrc.
  rewrite Hparse in Hrc. rewrite Hload. simpl. rewrite (Hrest Hrc), Hrc.
  by eexists.
Qed.

End rules_c.

(** *** A concrete environment

    Two indexes [adults] (address 0) and [all] (address 1) both hold the key
    ["user:1"]; the pipeline reports "no indexable fields" for the document
    ["empty"] and indexes every other document by putting it in the table; the
    parser accepts no arguments or a [PREFIX] clause. *)

Arguments Build_SchemaRule {RuleBody}.
Arguments Build_MatchAction {IndexItemAttrs}.
Arguments Build_SchemaRules {RuleBody IndexItemAttrs}.
Arguments Build_Globals {RuleBody IndexItemAttrs}.
Arguments mem {RuleBody IndexItemAttrs}.
Arguments rindexes_g {RuleBody IndexItemAttrs}.
Arguments SchemaRules_g {RuleBody IndexItemAttrs}.
Arguments asyncQueue_g {RuleBody IndexItemAttrs}.
Arguments rules {RuleBody IndexItemAttrs}.

Definition demo_NOREINDEX : Z := 1.
Definition demo_ASYNC : Z := 2.
Definition demo_Index_Async : Z := 2048.
Definition demo_ENOIDXFIELDS : Z := 21.
Definition demo_GENERIC : Z := 4.
Definition demo_EXPIRED : Z := 256.
Definition demo_EVICTED : Z := 512.
Definition demo_BEFORE_RDB : Z := 1.

Definition demo_LoadSchemaFields (d : string) (sp : IndexSpec) (e : QueryError)
  : Z * string * QueryError :=
  if String.eqb d "empty"
  then (REDISMODULE_ERR, d, {| code := demo_ENOIDXFIELDS; detail := Some "no fields" |})
  else (REDISMODULE_OK, d, e).

Definition demo_ACTX_New (sp : IndexSpec) (d : string) (e : QueryError)
  : option string * QueryError := (Some d, e).

Definition demo_ACTX_Index (aCtx : string) (sp : IndexSpec) : string * IndexSpec :=
  (aCtx, {| name := name sp; flags := flags sp;
            docs := (DocTable.DocTable_Put (docs sp) aCtx 0 0 None).2 |}).

Definition demo_AddArgs (registry : SchemaRules (list string) unit)
    (ix nm : string) (args : list string)
  : Z * QueryError * SchemaRules (list string) unit :=
  let added :=
    {| rules := rules registry
                ++ [ {| index := ix; rule_name := nm; rawrule := args;
                        body := skipn 2 args |} ];
       actions := actions _ _ registry |} in
  match args with
  | [] => (REDISMODULE_OK, QueryError_init, added)
  | kw :: _ =>
      if String.eqb kw "PREFIX" then (REDISMODULE_OK, QueryError_init, added)
      else (REDISMODULE_ERR, {| code := 3; detail := Some "Unknown argument" |}, registry)
  end.

Definition demo_table : DocTable.DocTable :=
  (DocTable.DocTable_Put (DocTable.NewDocTable 100) "user:1" 0 0 None).2.

Definition demo_mem : store :=
  λ p, match p with
       | O => {| name := "adults"; flags := 0; docs := demo_table |}
       | 1%nat => {| name := "all"; flags := demo_Index_Async; docs := demo_table |}
       | _ => {| name := ""; flags := 0; docs := DocTable.NewDocTable 100 |}
       end.

Definition demo_registry : SchemaRules (list string) unit :=
  {| rules := [ {| index := "adults"; rule_name := "r1";
                   rawrule := ["PREFIX"; "1"; "user:"]; body := ["user:"] |};
                {| index := "all"; rule_name := "r2"; rawrule := []; body := [] |} ];
     actions := [] |}.

Definition demo_g : Globals (list string) unit :=
  {| mem := demo_mem;
     specDict := [("adults", 0%nat); ("all", 1%nat)];
     rindexes_g := [0%nat; 1%nat];
     SchemaRules_g := demo_registry;
     asyncQueue_g := [] |}.

(** A registry holding a rule whose raw arguments the parser refuses. *)
Definition demo_bad_g : Globals (list string) unit :=
  set_rules _ _ demo_g
    {| rules := rules demo_registry
                ++ [ {| index := "all"; rule_name := "r3"; rawrule := ["BOGUS"];
                        body := [] |} ];
       actions := [] |}.

Definition demo_result (ix : string) : MatchAction unit :=
  {| action_index := ix; attrs := tt |}.

Local Abbreviation demo_process_matches :=
  (process_matches demo_NOREINDEX demo_ASYNC demo_Index_Async demo_ENOIDXFIELDS
     (list string) unit (λ _, None) string string (λ k _, k) demo_LoadSchemaFields
     demo_ACTX_New demo_ACTX_Index (λ _, QueryError_init)).

Local Abbreviation demo_process_match :=
  (process_match demo_NOREINDEX demo_ASYNC demo_Index_Async demo_ENOIDXFIELDS
     (list string) unit (λ _, None) string string (λ k _, k) demo_LoadSchemaFields
     demo_ACTX_New demo_ACTX_Index (λ _, QueryError_init)).

Local Abbreviation demo_sync_index :=
  (sync_index demo_ENOIDXFIELDS unit string string (λ k _, k) demo_LoadSchemaFields
     demo_ACTX_New demo_ACTX_Index (λ _, QueryError_init)).

Local Abbreviation demo_delCallback :=
  (delCallback demo_GENERIC demo_EXPIRED demo_EVICTED (list string) unit).

Local Abbreviation demo_Load :=
  (rulesAuxLoad demo_BEFORE_RDB (list string) unit demo_AddArgs).

Local Abbreviation demo_Save := (rulesAuxSave demo_BEFORE_RDB (list string) unit).

Example demo_expired_deletes :
  let g' := (demo_delCallback demo_g demo_EXPIRED "expired" "user:1").2 in
  DocTable.DocTable_GetId (docs (mem demo_g 0%nat)) "user:1" = 1%N
  ∧ DocTable.DocTable_GetId (docs (mem g' 0%nat)) "user:1" = 0%N
  ∧ DocTable.DocTable_GetId (docs (mem g' 1%nat)) "user:1" = 0%N.
Proof. vm_compute. done. Qed.

Example demo_save :
  demo_Save demo_g demo_BEFORE_RDB =
    [ RdbUnsigned 2;
      RdbString "adults"; RdbString "r1"; RdbUnsigned 3;
      RdbString "PREFIX"; RdbString "1"; RdbString "user:";
      RdbString "all"; RdbString "r2"; RdbUnsigned 0 ].
Proof. reflexivity. Qed.

(** *** The match-driven deletion of spec.c

    [Indexes_DeleteMatchingWithSchemaRules] deletes the key from the indexes
    that the matcher returns for it.  No notification handler in the sources
    calls it: [delCallback] above is the one subscribed to the generic and
    expired events. *)

Section match_delete.
Variable RSExpr EvalCtx RSValue : Type.
Variable EvalCtx_ForKey : string → EvalCtx.
Variable EvalCtx_EvalExpr : EvalCtx → RSExpr → Z * RSValue.
Variable RSValue_BoolTest : RSValue → bool.
Variable EXPR_EVAL_OK : Z.

(** [IndexSpec_DeleteHash]; the document count, the garbage collector and
    the replication of the command are outside this model. *)
Definition IndexSpec_DeleteHash (m : store) (p : ptr) (key : string) : store :=
  let id := DocTable.DocTable_GetId (docs (m p)) key in
  if (id =? 0)%N then m
  else store_set m p (DocTable_DeleteR (m p) key).

Definition Indexes_DeleteMatchingWithSchemaRules (m : store)
    (ScemaPrefixes_g : list (Matcher.SchemaPrefixNode ptr))
    (SchemaRules_g : list (Matcher.SchemaRule ptr RSExpr)) (key : string) : store :=
  let specs :=
    Matcher.Indexes_FindMatchingSchemaRules ptr (λ p, name (m p)) RSExpr EvalCtx RSValue
      EvalCtx_ForKey EvalCtx_EvalExpr RSValue_BoolTest EXPR_EVAL_OK
      ScemaPrefixes_g SchemaRules_g key in
  fold_left (λ m ent, IndexSpec_DeleteHash m ent.2 key) specs m.

Lemma IndexSpec_DeleteHash_at (m : store) (p q : ptr) (key : string) :
  IndexSpec_DeleteHash m p key q =
    if Nat.eqb q p then
      if (DocTable.DocTable_GetId (docs (m p)) key =? 0)%N then m p
      else DocTable_DeleteR (m p) key
    else m q.
Proof.
  unfold IndexSpec_DeleteHash.
  destruct (DocTable.DocTable_GetId (docs (m p)) key =? 0)%N eqn:E.
  - by destruct (Nat.eqb_spec q p) as [-> | ?].
  - unfold store_set. by destruct (Nat.eqb q p).
Qed.

Lemma IndexSpec_DeleteHash_gone (m : store) (p q : ptr) (key : string) :
  q = p ∨ DocTable.DocTable_GetId (docs (m q)) key = 0%N →
  DocTable.DocTable_GetId (docs (IndexSpec_DeleteHash m p key q)) key = 0%N.
Proof.
  intros Hq. rewrite IndexSpec_DeleteHash_at.
  destruct (Nat.eqb_spec q p) as [-> | Hne].
  - destruct (DocTable.DocTable_GetId (docs (m p)) key =? 0)%N eqn:E.
    + by apply N.eqb_eq.
    + apply DocTable_DeleteR_GetId.
  - by destruct Hq.
Qed.

Lemma IndexSpec_DeleteHash_other_key (m : store) (p q : ptr) (key k : string) :
  k ≠ key →
  DocTable.DocTable_GetId (docs (IndexSpec_DeleteHash m p key q)) k
  = DocTable.DocTable_GetId (docs (m q)) k.
Proof.
  intros Hk. rewrite IndexSpec_DeleteHash_at.
  destruct (Nat.eqb_spec q p) as [-> | Hne]; [|done].
  destruct (_ =? _)%N; [done|]. by apply DocTable_DeleteR_other.
Qed.

Lemma delete_entries (l : list (string * ptr)) (m : store) (key : string) :
  let m' := fold_left (λ m ent, IndexSpec_DeleteHash m ent.2 key) l m in
  (∀ q, (∃ ent, ent ∈ l ∧ ent.2 = q) ∨ DocTable.DocTable_GetId (docs (m q)) key = 0%N →
        DocTable.DocTable_GetId (docs (m' q)) key = 0%N)
  ∧ (∀ q, (∀ ent, ent ∈ l → ent.2 ≠ q) → m' q = m q)
  ∧ (∀ q k, k ≠ key →
       DocTable.DocTable_GetId (docs (m' q)) k = DocTable.DocTable_GetId (docs (m q)) k).
Proof.
  revert m. induction l as [|ent0 l IH]; intros m; simpl.
  - split_and!; [|done|done]. intros q [(ent & Hin & _) | H]; [|done].
    by apply elem_of_nil in Hin.
  - destruct (IH (IndexSpec_DeleteHash m ent0.2 key)) as (Hgone & Hframe & Hother).
    split_and!.
    + intros q Hq. apply Hgone.
      destruct Hq as [(ent & Hin & Hent) | Hq].
      * apply elem_of_cons in Hin as [-> | Hin]; [|left; eauto].
        right. apply IndexSpec_DeleteHash_gone. by left.
      * right. apply IndexSpec_DeleteHash_gone. by right.
    + intros q Hq. rewrite Hframe.
      * rewrite IndexSpec_DeleteHash_at.
        destruct (Nat.eqb_spec q ent0.2) as [-> | ?]; [|done].
        exfalso. apply (Hq ent0); [left | done].
      * intros ent Hin. apply Hq. by right.
    + intros q k Hk. rewrite Hother by done. by apply IndexSpec_DeleteHash_other_key.
Qed.

(** X9.  The match-driven deletion removes the key from exactly the indexes
    that the matcher returns for it: each of them answers 0 for the key
    afterwards, an index that is not in the match result is left as it is
    even when it holds the key, and no other key loses its id. *)
Theorem match_delete_exact (m : store)
    (ScemaPrefixes_g : list (Matcher.SchemaPrefixNode ptr))
    (SchemaRules_g : list (Matcher.SchemaRule ptr RSExpr)) (key : string) :
  let specs :=
    Matcher.Indexes_FindMatchingSchemaRules ptr (λ p, name (m p)) RSExpr EvalCtx RSValue
      EvalCtx_ForKey EvalCtx_EvalExpr RSValue_BoolTest EXPR_EVAL_OK
      ScemaPrefixes_g SchemaRules_g key in
  let m' := Indexes_DeleteMatchingWithSchemaRules m ScemaPrefixes_g SchemaRules_g key in
  (∀ ent, ent ∈ specs → DocTable.DocTable_GetId (docs (m' ent.2)) key = 0%N)
  ∧ (∀ q, (∀ ent, ent ∈ specs → ent.2 ≠ q) → m' q = m q)
  ∧ (∀ q k, k ≠ key →
       DocTable.DocTable_GetId (docs (m' q)) k = DocTable.DocTable_GetId (docs (m q)) k).
Proof.
  intros specs m'. subst m'. unfold Indexes_DeleteMatchingWithSchemaRules.
  fold specs. destruct (delete_entries specs m key) as (Hgone & Hframe & Hother).
  split_and!; [|done|done].
  intros ent Hin. apply Hgone. left. by exists ent.
Qed.

End match_delete.

(** The index [adults] (prefix ["user:"], filter [age >= 18]) holds the key
    ["gone:1"], whose record has no fields left.  The match-driven deletion
    leaves the id in the table; the broadcast of [delCallback] removes it. *)
Definition demo_gone_table : DocTable.DocTable :=
  (DocTable.DocTable_Put (DocTable.NewDocTable 100) "gone:1" 0 0 None).2.

Definition demo_gone_mem : store :=
  λ p, {| name := "adults"; flags := 0; docs := demo_gone_table |}.

Example match_driven_delete_keeps_unmatched :
  let m' :=
    Indexes_DeleteMatchingWithSchemaRules Matcher.scenario_expr Matcher.scenario_view bool
      Matcher.scenario_keyspace Matcher.scenario_eval id 1 demo_gone_mem
      [ {| Matcher.prefix := "user:"; Matcher.index_specs := [0%nat] |} ]
      [ {| Matcher.spec := 0%nat;
           Matcher.filter_exp := Some (Matcher.FieldGe "age" 18) |} ]
      "gone:1" in
  let g' :=
    (delCallback demo_GENERIC demo_EXPIRED demo_EVICTED (list string) unit
       {| mem := demo_gone_mem; specDict := [("adults", 0%nat)]; rindexes_g := [0%nat];
          SchemaRules_g := demo_registry; asyncQueue_g := [] |}
       demo_GENERIC "del" "gone:1").2 in
  DocTable.DocTable_GetId (docs (m' 0%nat)) "gone:1" = 1%N
  ∧ DocTable.DocTable_GetId (docs (mem g' 0%nat)) "gone:1" = 0%N.
Proof. vm_compute. done. Qed.

(** The subscriptions of [SchemaRules_InitGlobal], with the event classes as
    redismodule.h numbers them and a rule check that matches nothing. *)
Definition demo_HASH : Z := 64.

Local Abbreviation demo_subscriptions :=
  ((SchemaRules_InitGlobal demo_NOREINDEX demo_ASYNC demo_Index_Async demo_ENOIDXFIELDS
      demo_GENERIC demo_EXPIRED demo_EVICTED (list string) unit (λ _ _, []) (λ _, None)
      string string (λ k _, k) demo_LoadSchemaFields demo_ACTX_New demo_ACTX_Index
      (λ _, QueryError_init) demo_HASH demo_g).2).

(** Both indexes hold ["user:1"], but only [adults] is in the list of the
    indexes that the delete callback goes through. *)
Definition demo_unlisted : Globals (list string) unit :=
  {| mem := demo_mem;
     specDict := [("adults", 0%nat); ("all", 1%nat)];
     rindexes_g := [0%nat];
     SchemaRules_g := demo_registry;
     asyncQueue_g := [] |}.

(** After the notification of the deleted key ["user:1"] the index [all],
    which held the key and is not in the list, still holds it. *)
Lemma deletion_reaches_every_holder_fails :
  ¬ deletion_reaches_every_holder (list string) unit demo_subscriptions demo_unlisted
      demo_GENERIC "del" "user:1".
Proof.
  intros Hall. destruct (Hall 1%nat) as (g' & Hrun & Hgone).
  { vm_compute. discriminate. }
  vm_compute in Hrun. injection Hrun as <-. vm_compute in Hgone. discriminate Hgone.
Qed.

(** An evicted key: the callback would delete it, but no subscription asks
    for the evicted events, so the notification changes nothing. *)
Example demo_evicted_not_delivered :
  notify (list string) unit demo_subscriptions demo_g demo_EVICTED "evicted" "user:1"
  = Done demo_g
  ∧ DocTable.DocTable_GetId
      (docs (mem (demo_delCallback demo_g demo_EVICTED "evicted" "user:1").2 0%nat))
      "user:1" = 0%N
  ∧ DocTable.DocTable_GetId (docs (mem demo_g 0%nat)) "user:1" = 1%N.
Proof.
  split; [by apply notify_undelivered|]. vm_compute. done.
Qed.

Lemma delete_dispatch_witness :
  (key_deleted_or_expired demo_GENERIC demo_EXPIRED demo_GENERIC "del" = true
   ∧ has_flag demo_GENERIC demo_HASH = false)
  ∧ ∃ g',
      notify (list string) unit demo_subscriptions demo_g demo_GENERIC "del" "user:1"
      = Done g'
      ∧ (∀ p, p ∈ rindexes_g demo_g →
           DocTable.DocTable_GetId (docs (mem g' p)) "user:1" = 0%N
           ∧ DocTable.DocTable_GetByKey (docs (mem g' p)) "user:1" = None
           ∧ ∀ docId, DocTable.dim (docs (mem demo_g p)) !! "user:1" = Some docId →
                      DocTable.docs (docs (mem g' p)) !! docId = None)
      ∧ (∀ p, p ∉ rindexes_g demo_g → mem g' p = mem demo_g p)
      ∧ (∀ registry,
           notify (list string) unit demo_subscriptions (set_rules _ _ demo_g registry)
             demo_GENERIC "del" "user:1"
           = Done (set_rules _ _ g' registry)).
Proof.
  split; [split; reflexivity|].
  apply (delete_dispatch demo_NOREINDEX demo_ASYNC demo_Index_Async demo_ENOIDXFIELDS
           demo_GENERIC demo_EXPIRED demo_EVICTED (list string) unit (λ _ _, [])
           (λ _, None) string string (λ k _, k) demo_LoadSchemaFields demo_ACTX_New
           demo_ACTX_Index (λ _, QueryError_init) demo_HASH demo_g demo_g demo_GENERIC
           "del" "user:1" eq_refl eq_refl).
Defined.

Example demo_registry_roundtrip :
  ∃ g', demo_Load (set_rules _ _ demo_g (SchemaRules_Create _ _))
          (demo_Save demo_g demo_BEFORE_RDB) RULES_CURRENT_VERSION demo_BEFORE_RDB
        = Some (REDISMODULE_OK, g', [])
        ∧ SchemaRules_g g' = SchemaRules_g demo_g.
Proof.
  destruct (load_saved_registry demo_BEFORE_RDB (list string) unit demo_AddArgs demo_g)
    as (g' & Hload & Hrules & _); [reflexivity|].
  by exists g'.
Qed.

Lemma load_error_is_fatal_witness :
  (RULES_CURRENT_VERSION < 1 ∧ 0 ≤ RULES_CURRENT_VERSION)
  ∧ demo_Load (set_rules _ _ demo_g (SchemaRules_Create _ _)) [] 1 demo_BEFORE_RDB
    = Some (REDISMODULE_ERR, set_rules _ _ demo_g (SchemaRules_Create _ _), [])
  ∧ ∃ g' rest,
      demo_Load (set_rules _ _ demo_g (SchemaRules_Create _ _))
        (demo_Save demo_bad_g demo_BEFORE_RDB) 0 demo_BEFORE_RDB
      = Some (if reparses (list string) unit demo_AddArgs (SchemaRules_Create _ _)
                   (rules (SchemaRules_g demo_bad_g))
              then REDISMODULE_OK else REDISMODULE_ERR, g', rest).
Proof.
  split; [split; [reflexivity | discriminate]|].
  apply (load_error_is_fatal demo_BEFORE_RDB (list string) unit demo_AddArgs
           demo_bad_g).
  - reflexivity.
  - discriminate.
Defined.

Example demo_bad_rule_aborts :
  reparses (list string) unit demo_AddArgs (SchemaRules_Create _ _)
    (rules (SchemaRules_g demo_bad_g)) = false
  ∧ ∃ g' rest,
      demo_Load (set_rules _ _ demo_g (SchemaRules_Create _ _))
        (demo_Save demo_bad_g demo_BEFORE_RDB) 0 demo_BEFORE_RDB
      = Some (REDISMODULE_ERR, g', rest).
Proof. split; [reflexivity | by eexists _, _]. Qed.

Lemma sync_failure_handling_witness :
  (IndexSpec_Load (list string) unit (λ _, None) demo_g
     (action_index _ (demo_result "adults")) = Some 0%nat
   ∧ already_indexed demo_NOREINDEX 0 (mem demo_g 0%nat) "empty" = false
   ∧ synchronous demo_ASYNC demo_Index_Async 0 (mem demo_g 0%nat) = true)
  ∧ demo_sync_index (mem demo_g 0%nat) "empty" tt = NoIndexableFields
  ∧ demo_process_matches 0 "empty" demo_g [demo_result "adults"; demo_result "all"]
    = match demo_sync_index (mem demo_g 0%nat) "empty" (attrs _ (demo_result "adults")) with
      | NoIndexableFields => demo_process_matches 0 "empty" demo_g [demo_result "all"]
      | OtherFailure => AssertFailed
      | Indexed sp' =>
          demo_process_matches 0 "empty"
            (set_mem _ _ demo_g (store_set (mem demo_g) 0%nat sp')) [demo_result "all"]
      end.
Proof.
  split; [split_and!; reflexivity|]. split; [reflexivity|].
  apply (sync_failure_handling demo_NOREINDEX demo_ASYNC demo_Index_Async
           demo_ENOIDXFIELDS (list string) unit (λ _, None) string string (λ k _, k)
           demo_LoadSchemaFields demo_ACTX_New demo_ACTX_Index (λ _, QueryError_init)
           0 "empty" demo_g (demo_result "adults") [demo_result "all"] 0%nat);
    reflexivity.
Defined.

Lemma noreindex_skips_witness :
  IndexSpec_Load (list string) unit (λ _, None) demo_g
    (action_index _ (demo_result "adults")) = Some 0%nat
  ∧ has_flag demo_NOREINDEX demo_NOREINDEX = true
  ∧ is_Some (DocTable.DocTable_GetByKey (docs (mem demo_g 0%nat)) "user:1")
  ∧ demo_process_match demo_NOREINDEX "user:1" demo_g (demo_result "adults") = Done demo_g
  ∧ demo_process_matches demo_NOREINDEX "user:1" demo_g
      [demo_result "adults"; demo_result "all"]
    = demo_process_matches demo_NOREINDEX "user:1" demo_g [demo_result "all"].
Proof.
  assert (is_Some (DocTable.DocTable_GetByKey (docs (mem demo_g 0%nat)) "user:1"))
    as Hrow by (vm_compute; eauto).
  split_and!; [reflexivity | reflexivity | exact Hrow | |];
    apply (noreindex_skips demo_NOREINDEX demo_ASYNC demo_Index_Async
             demo_ENOIDXFIELDS (list string) unit (λ _, None) string string (λ k _, k)
             demo_LoadSchemaFields demo_ACTX_New demo_ACTX_Index (λ _, QueryError_init)
             demo_NOREINDEX "user:1" demo_g (demo_result "adults") [demo_result "all"]
             0%nat eq_refl); [reflexivity | exact Hrow | reflexivity | exact Hrow].
Defined.

Lemma forced_async_only_queues_witness :
  has_flag demo_ASYNC demo_ASYNC = true
  ∧ demo_process_matches demo_ASYNC "user:9" demo_g
      [demo_result "adults"; demo_result "all"]
    = Done {| mem := mem demo_g; specDict := specDict _ _ demo_g;
              rindexes_g := rindexes_g demo_g; SchemaRules_g := SchemaRules_g demo_g;
              asyncQueue_g :=
                [ {| aiq_spec := 0%nat; aiq_result := demo_result "adults";
                     aiq_key := "user:9" |};
                  {| aiq_spec := 1%nat; aiq_result := demo_result "all";
                     aiq_key := "user:9" |} ] |}.
Proof.
  split; [reflexivity|].
  apply (forced_async_only_queues demo_NOREINDEX demo_ASYNC demo_Index_Async
           demo_ENOIDXFIELDS (list string) unit (λ _, None) string string (λ k _, k)
           demo_LoadSchemaFields demo_ACTX_New demo_ACTX_Index (λ _, QueryError_init)
           demo_ASYNC "user:9" demo_g [demo_result "adults"; demo_result "all"]).
  reflexivity.
Defined.

(** A synchronous run on a key that [adults] indexes now and that [all], an
    asynchronous index, gets queued. *)
Definition demo_after_sync : Globals (list string) unit :=
  match demo_process_matches 0 "user:9" demo_g
          [demo_result "adults"; demo_result "all"] with
  | Done g' => g'
  | AssertFailed => demo_g
  end.

Example demo_sync_run :
  demo_process_matches 0 "user:9" demo_g [demo_result "adults"; demo_result "all"]
  = Done demo_after_sync
  ∧ DocTable.DocTable_GetId (docs (mem demo_after_sync 0%nat)) "user:9" = 2%N
  ∧ DocTable.DocTable_GetId (docs (mem demo_after_sync 1%nat)) "user:9" = 0%N
  ∧ length (asyncQueue_g demo_after_sync) = 1%nat.
Proof. vm_compute. done. Qed.

Lemma process_touches_matched_only_witness :
  demo_process_matches 0 "user:9" demo_g [demo_result "adults"] = Done
    (match demo_process_matches 0 "user:9" demo_g [demo_result "adults"] with
     | Done g' => g' | AssertFailed => demo_g end)
  ∧ mem (match demo_process_matches 0 "user:9" demo_g [demo_result "adults"] with
         | Done g' => g' | AssertFailed => demo_g end) 1%nat
    = mem demo_g 1%nat.
Proof.
  assert (demo_process_matches 0 "user:9" demo_g [demo_result "adults"] = Done
            (match demo_process_matches 0 "user:9" demo_g [demo_result "adults"] with
             | Done g' => g' | AssertFailed => demo_g end)) as Hrun by reflexivity.
  split; [exact Hrun|].
  apply (process_touches_matched_only demo_NOREINDEX demo_ASYNC demo_Index_Async
           demo_ENOIDXFIELDS (list string) unit (λ _, None) string string (λ k _, k)
           demo_LoadSchemaFields demo_ACTX_New demo_ACTX_Index (λ _, QueryError_init)
           0 "user:9" demo_g _ [demo_result "adults"] Hrun).
  intros r Hr. apply list_elem_of_singleton in Hr as ->. discriminate.
Defined.

Lemma load_leaves_rest_witness :
  reparses (list string) unit demo_AddArgs (SchemaRules_Create _ _)
    (rules (SchemaRules_g demo_g)) = true
  ∧ ∃ g', demo_Load (set_rules _ _ demo_g (SchemaRules_Create _ _))
            (demo_Save demo_g demo_BEFORE_RDB ++ [RdbUnsigned 7; RdbString "next"])
            RULES_CURRENT_VERSION demo_BEFORE_RDB
          = Some (REDISMODULE_OK, g', [RdbUnsigned 7; RdbString "next"])
          ∧ SchemaRules_g g'
            = (replay (list string) unit demo_AddArgs (SchemaRules_Create _ _)
                 (rules (SchemaRules_g demo_g))).2.
Proof.
  split; [reflexivity|].
  apply (load_leaves_rest demo_BEFORE_RDB (list string) unit demo_AddArgs demo_g
           (set_rules _ _ demo_g (SchemaRules_Create _ _))
           [RdbUnsigned 7; RdbString "next"]).
  reflexivity.
Defined.

End Rules.

(** ** Index creation and schema fields ([src/spec.c]) *)

Module Spec.
Import Dict.

(** [struct FieldSpec].  The weight is a C [double], kept as its 64-bit
    pattern; [tagSep] is a [char]. *)
Module FS.
Record FieldSpec := {
  name : string;
  types : Z;
  options : Z;
  ftId : Z;
  ftWeight : Z;
  sortIdx : Z;
  tagFlags : Z;
  tagSep : Z;
  index : nat;
}.
End FS.
Export FS (FieldSpec).

(** [memset] of a field spec to zero. *)
Definition FieldSpec_zero : FieldSpec :=
  {| FS.name := ""; FS.types := 0; FS.options := 0; FS.ftId := 0; FS.ftWeight := 0;
     FS.sortIdx := 0; FS.tagFlags := 0; FS.tagSep := 0; FS.index := 0 |}.

(** The sorting table: only its length is touched directly by spec.c. *)
Record RSSortingTable := {
  len : Z;
  sort_fields : list (string * Z);
}.

Definition QueryError := Rules.QueryError.

(** What the header files (spec.h, field_spec.h, redisearch.h, query_error.h,
    util/args.h, sortable.h), which are not among the sources, give to
    spec.c: keywords, bit masks, limits, error codes, and the collaborators
    spec.c calls on a field, a sorting table, a rule or an error. *)
Class Header := {
  SPEC_TEXT_STR : string;
  NUMERIC_STR : string;
  GEO_STR : string;
  SPEC_TAG_STR : string;
  SPEC_SEPARATOR_STR : string;
  SPEC_NOSTEM_STR : string;
  SPEC_WEIGHT_STR : string;
  SPEC_PHONETIC_STR : string;
  SPEC_SORTABLE_STR : string;
  SPEC_NOINDEX_STR : string;
  SPEC_SCHEMA_STR : string;
  INDEXFLD_T_FULLTEXT : Z;
  INDEXFLD_T_NUMERIC : Z;
  INDEXFLD_T_GEO : Z;
  INDEXFLD_T_TAG : Z;
  FieldSpec_Sortable : Z;
  FieldSpec_NoStemming : Z;
  FieldSpec_NotIndexable : Z;
  FieldSpec_Phonetics : Z;
  FieldSpec_Dynamic : Z;
  Index_StoreFieldFlags : Z;
  Index_WideSchema : Z;
  Index_HasPhonetic : Z;
  Index_Temporary : Z;
  Index_HasCustomStopwords : Z;
  INDEX_DEFAULT_FLAGS : Z;
  SPEC_MAX_FIELDS : nat;
  SPEC_MAX_FIELD_ID : Z;
  SPEC_WIDEFIELD_THRESHOLD : Z;
  (** [(t_fieldId)-1] *)
  T_FIELDID_NONE : Z;
  TAG_FIELD_DEFAULT_FLAGS : Z;
  TAG_FIELD_DEFAULT_SEP : Z;
  QUERY_EPARSEARGS : Z;
  QUERY_EINVAL : Z;
  QUERY_ELIMIT : Z;
  QUERY_EBADOPTION : Z;
  QUERY_EINDEXEXISTS : Z;
  AC_OK : Z;
  AC_ERR_PARSE : Z;
  AC_ERR_NOARG : Z;
  AC_ERR_ENOENT : Z;
  (** [strtod] on a whole argument: the parsed double, if it is one. *)
  parse_double : string → option Z;
  DOUBLE_ONE : Z;
  QueryError_SetError : QueryError → Z → string → QueryError;
  QueryError_SetCode : QueryError → Z → QueryError;
  QueryError_SetCode_code :
    ∀ status c, Rules.code status = Rules.QUERY_OK →
                Rules.code (QueryError_SetCode status c) = c;
  FieldSpec_Cleanup : FieldSpec → FieldSpec;
  fieldTypeToValueType : Z → Z;
  NewSortingTable : RSSortingTable;
  RSSortingTable_Add : RSSortingTable → string → Z → RSSortingTable * Z;
}.

(** *** The argument cursor *)

(** Modelled from the spec: the argument cursor (util/args.h) is not among
    the sources; rule and index creation parse "a recognized-option argument
    cursor".  The cursor is the list of the arguments not yet consumed;
    keywords are matched without regard to case. *)
Definition ArgsCursor : Type := list string.

Definition tolower (c : ascii) : ascii :=
  let n := nat_of_ascii c in
  if (65 <=? n)%nat && (n <=? 90)%nat then ascii_of_nat (n + 32) else c.

Fixpoint strtolower (s : string) : string :=
  match s with
  | EmptyString => EmptyString
  | String c s' => String (tolower c) (strtolower s')
  end.

(** [!strcasecmp(a, b)] *)
Definition strcaseeq (a b : string) : bool := String.eqb (strtolower a) (strtolower b).

Definition AC_IsAtEnd (ac : ArgsCursor) : bool :=
  match ac with [] => true | _ => false end.

Definition AC_NumRemaining (ac : ArgsCursor) : nat := length ac.

Definition AC_GetStringNC (ac : ArgsCursor) : option string * ArgsCursor :=
  match ac with
  | [] => (None, [])
  | s :: ac' => (Some s, ac')
  end.

Definition AC_AdvanceIfMatch (ac : ArgsCursor) (s : string) : bool * ArgsCursor :=
  match ac with
  | [] => (false, ac)
  | cur :: ac' => if strcaseeq s cur then (true, ac') else (false, ac)
  end.

Section spec_c.
Context `{Header}.

Definition AC_GetDouble (ac : ArgsCursor) : Z * Z * ArgsCursor :=
  match ac with
  | [] => (AC_ERR_NOARG, 0, ac)
  | s :: ac' =>
      match parse_double s with
      | Some d => (AC_OK, d, ac')
      | None => (AC_ERR_PARSE, 0, ac)
      end
  end.

(** *** Fields *)

Definition has_flag := Rules.has_flag.

Definition FIELD_IS (f : FieldSpec) (t : Z) : bool := has_flag (FS.types f) t.
Definition FieldSpec_IsSortable (fs : FieldSpec) : bool :=
  has_flag (FS.options fs) FieldSpec_Sortable.
Definition FieldSpec_IsIndexable (fs : FieldSpec) : bool :=
  negb (has_flag (FS.options fs) FieldSpec_NotIndexable).
Definition FieldSpec_IsPhonetics (fs : FieldSpec) : bool :=
  has_flag (FS.options fs) FieldSpec_Phonetics.

Definition set_options (fs : FieldSpec) (o : Z) : FieldSpec :=
  {| FS.name := FS.name fs; FS.types := FS.types fs; FS.options := o;
     FS.ftId := FS.ftId fs; FS.ftWeight := FS.ftWeight fs; FS.sortIdx := FS.sortIdx fs;
     FS.tagFlags := FS.tagFlags fs; FS.tagSep := FS.tagSep fs; FS.index := FS.index fs |}.

Definition set_ftWeight (fs : FieldSpec) (d : Z) : FieldSpec :=
  {| FS.name := FS.name fs; FS.types := FS.types fs; FS.options := FS.options fs;
     FS.ftId := FS.ftId fs; FS.ftWeight := d; FS.sortIdx := FS.sortIdx fs;
     FS.tagFlags := FS.tagFlags fs; FS.tagSep := FS.tagSep fs; FS.index := FS.index fs |}.

Definition set_ftId (fs : FieldSpec) (i : Z) : FieldSpec :=
  {| FS.name := FS.name fs; FS.types := FS.types fs; FS.options := FS.options fs;
     FS.ftId := i; FS.ftWeight := FS.ftWeight fs; FS.sortIdx := FS.sortIdx fs;
     FS.tagFlags := FS.tagFlags fs; FS.tagSep := FS.tagSep fs; FS.index := FS.index fs |}.

Definition set_sortIdx (fs : FieldSpec) (i : Z) : FieldSpec :=
  {| FS.name := FS.name fs; FS.types := FS.types fs; FS.options := FS.options fs;
     FS.ftId := FS.ftId fs; FS.ftWeight := FS.ftWeight fs; FS.sortIdx := i;
     FS.tagFlags := FS.tagFlags fs; FS.tagSep := FS.tagSep fs; FS.index := FS.index fs |}.

Definition set_tagSep (fs : FieldSpec) (c : Z) : FieldSpec :=
  {| FS.name := FS.name fs; FS.types := FS.types fs; FS.options := FS.options fs;
     FS.ftId := FS.ftId fs; FS.ftWeight := FS.ftWeight fs; FS.sortIdx := FS.sortIdx fs;
     FS.tagFlags := FS.tagFlags fs; FS.tagSep := c; FS.index := FS.index fs |}.

Definition FieldSpec_SetSortable (fs : FieldSpec) : FieldSpec :=
  set_options fs (Z.lor (FS.options fs) FieldSpec_Sortable).

Definition FieldSpec_Initialize (sp : FieldSpec) (types : Z) : FieldSpec :=
  let sp :=
    {| FS.name := FS.name sp; FS.types := Z.lor (FS.types sp) types;
       FS.options := FS.options sp; FS.ftId := FS.ftId sp; FS.ftWeight := FS.ftWeight sp;
       FS.sortIdx := FS.sortIdx sp; FS.tagFlags := FS.tagFlags sp;
       FS.tagSep := FS.tagSep sp; FS.index := FS.index sp |} in
  if FIELD_IS sp INDEXFLD_T_TAG then
    {| FS.name := FS.name sp; FS.types := FS.types sp; FS.options := FS.options sp;
       FS.ftId := FS.ftId sp; FS.ftWeight := FS.ftWeight sp; FS.sortIdx := FS.sortIdx sp;
       FS.tagFlags := TAG_FIELD_DEFAULT_FLAGS; FS.tagSep := TAG_FIELD_DEFAULT_SEP;
       FS.index := FS.index sp |}
  else sp.

Definition checkPhoneticAlgorithmAndLang (matcher : string) : bool :=
  match matcher with
  | String m0 (String m1 (String m2 (String m3 (String m4 EmptyString)))) =>
      if negb (Ascii.eqb m0 "d") || negb (Ascii.eqb m1 "m") || negb (Ascii.eqb m2 ":")
      then false
      else
        existsb
          (λ lang, match lang with
                   | String l0 (String l1 _) => Ascii.eqb m3 l0 && Ascii.eqb m4 l1
                   | _ => false
                   end)
          ["en"; "pt"; "fr"; "es"]
  | _ => false
  end.

(** The [while (!AC_IsAtEnd(ac))] loop of [parseTextField]; every turn that
    goes on consumes an argument, so [length ac] turns are enough.  [None]:
    out of fuel. *)
Fixpoint parseTextField_loop (fuel : nat) (sp : FieldSpec) (ac : ArgsCursor)
    (status : QueryError) : option (Z * FieldSpec * ArgsCursor * QueryError) :=
  if AC_IsAtEnd ac then Some (1, sp, ac, status)
  else
    match fuel with
    | O => None
    | S fuel =>
        let '(m, ac1) := AC_AdvanceIfMatch ac SPEC_NOSTEM_STR in
        if m then
          parseTextField_loop fuel
            (set_options sp (Z.lor (FS.options sp) FieldSpec_NoStemming)) ac1 status
        else
          let '(m, ac1) := AC_AdvanceIfMatch ac SPEC_WEIGHT_STR in
          if m then
            let '(rc, d, ac2) := AC_GetDouble ac1 in
            if negb (rc =? AC_OK) then
              Some (0, sp, ac2,
                    QueryError_SetError status QUERY_EPARSEARGS "Bad arguments for weight")
            else parseTextField_loop fuel (set_ftWeight sp d) ac2 status
          else
            let '(m, ac1) := AC_AdvanceIfMatch ac SPEC_PHONETIC_STR in
            if m then
              if AC_IsAtEnd ac1 then
                Some (0, sp, ac1,
                      QueryError_SetError status QUERY_EPARSEARGS
                        (SPEC_PHONETIC_STR ++ " requires an argument"))
              else
                let '(matcher, ac2) := AC_GetStringNC ac1 in
                if negb (checkPhoneticAlgorithmAndLang (default "" matcher)) then
                  Some (0, sp, ac2,
                        QueryError_SetError status QUERY_EINVAL "Matcher Format")
                else
                  parseTextField_loop fuel
                    (set_options sp (Z.lor (FS.options sp) FieldSpec_Phonetics)) ac2 status
            else Some (1, sp, ac, status)
    end.

Definition parseTextField (sp : FieldSpec) (ac : ArgsCursor) (status : QueryError)
  : option (Z * FieldSpec * ArgsCursor * QueryError) :=
  parseTextField_loop (length ac) sp ac status.

(** The second loop of [parseFieldSpec]: [SORTABLE] and [NOINDEX]. *)
Fixpoint parseFieldSpec_options (fuel : nat) (sp : FieldSpec) (ac : ArgsCursor)
  : option (FieldSpec * ArgsCursor) :=
  if AC_IsAtEnd ac then Some (sp, ac)
  else
    match fuel with
    | O => None
    | S fuel =>
        let '(m, ac1) := AC_AdvanceIfMatch ac SPEC_SORTABLE_STR in
        if m then parseFieldSpec_options fuel (FieldSpec_SetSortable sp) ac1
        else
          let '(m, ac1) := AC_AdvanceIfMatch ac SPEC_NOINDEX_STR in
          if m then
            parseFieldSpec_options fuel
              (set_options sp (Z.lor (FS.options sp) FieldSpec_NotIndexable)) ac1
          else Some (sp, ac)
    end.

(** The [error:] label of [parseFieldSpec]. *)
Definition parseFieldSpec_error (sp : FieldSpec) (ac : ArgsCursor) (status : QueryError)
  : Z * FieldSpec * ArgsCursor * QueryError :=
  let status :=
    if negb (Rules.QueryError_HasError status) then
      QueryError_SetError status QUERY_EPARSEARGS
        ("Could not parse schema for field `" ++ FS.name sp ++ "`")
    else status in
  (0, FieldSpec_Cleanup sp, ac, status).

Definition parseFieldSpec (ac : ArgsCursor) (sp : FieldSpec) (status : QueryError)
  : option (Z * FieldSpec * ArgsCursor * QueryError) :=
  if AC_IsAtEnd ac then
    Some (0, sp, ac,
          QueryError_SetError status QUERY_EPARSEARGS
            ("Field `" ++ FS.name sp ++ "` does not have a type"))
  else
    let typed : option (bool * FieldSpec * ArgsCursor * QueryError) :=
      let '(m, ac1) := AC_AdvanceIfMatch ac SPEC_TEXT_STR in
      if m then
        let sp := FieldSpec_Initialize sp INDEXFLD_T_FULLTEXT in
        '(rc, sp, ac2, status) ← parseTextField sp ac1 status;
        Some (negb (rc =? 0), sp, ac2, status)
      else
        let '(m, ac1) := AC_AdvanceIfMatch ac NUMERIC_STR in
        if m then Some (true, FieldSpec_Initialize sp INDEXFLD_T_NUMERIC, ac1, status)
        else
          let '(m, ac1) := AC_AdvanceIfMatch ac GEO_STR in
          if m then Some (true, FieldSpec_Initialize sp INDEXFLD_T_GEO, ac1, status)
          else
            let '(m, ac1) := AC_AdvanceIfMatch ac SPEC_TAG_STR in
            if m then
              let sp := FieldSpec_Initialize sp INDEXFLD_T_TAG in
              let '(m, ac2) := AC_AdvanceIfMatch ac1 SPEC_SEPARATOR_STR in
              if m then
                if AC_IsAtEnd ac2 then
                  Some (false, sp, ac2,
                        QueryError_SetError status QUERY_EPARSEARGS
                          (SPEC_SEPARATOR_STR ++ " requires an argument"))
                else
                  let '(sep, ac3) := AC_GetStringNC ac2 in
                  match default "" sep with
                  | String c EmptyString =>
                      Some (true, set_tagSep sp (Z.of_nat (nat_of_ascii c)), ac3, status)
                  | _ =>
                      Some (false, sp, ac3,
                            QueryError_SetError status QUERY_EPARSEARGS
                              "Tag separator must be a single character")
                  end
              else Some (true, sp, ac2, status)
            else
              Some (false, sp, ac1,
                    QueryError_SetError status QUERY_EPARSEARGS
                      ("Invalid field type for field `" ++ FS.name sp ++ "`"))
    in
    '(ok, sp, ac, status) ← typed;
    if negb ok then Some (parseFieldSpec_error sp ac status)
    else
      '(sp, ac) ← parseFieldSpec_options (length ac) sp ac;
      Some (1, sp, ac, status).

(** *** The index spec *)

(** The rule of an index and its compiled filter are made by
    [SchemaRule_Create] (rules/), which is not among the sources. *)
Variable SchemaRule : Type.

Record SchemaRuleArgs := {
  type : option string;
  filter_exp_str : option string;
  score_field : option string;
  lang_field : option string;
  payload_field : option string;
  prefixes : list string;
  nprefixes : nat;
}.

Inductive StopWordList :=
| DefaultStopWordList
| NewStopWordListCStr (words : list string).

(** The fields of [struct IndexSpec] that spec.c reads or writes here.
    [fields] is the allocated array, of which the first [numFields] cells are
    the schema; [spcache] tells whether a spec cache is attached. *)
Record IndexSpec := {
  name : string;
  fields : list FieldSpec;
  numFields : nat;
  flags : Z;
  sortables : RSSortingTable;
  spcache : bool;
  rule : option SchemaRule;
  stopwords : StopWordList;
  timeout : Z;
  uniqueId : Z;
  docs : DocTable.DocTable;
}.

Definition set_fields (sp : IndexSpec) (l : list FieldSpec) : IndexSpec :=
  {| name := name sp; fields := l; numFields := numFields sp; flags := flags sp;
     sortables := sortables sp; spcache := spcache sp; rule := rule sp;
     stopwords := stopwords sp; timeout := timeout sp; uniqueId := uniqueId sp;
     docs := docs sp |}.

Definition set_numFields (sp : IndexSpec) (n : nat) : IndexSpec :=
  {| name := name sp; fields := fields sp; numFields := n; flags := flags sp;
     sortables := sortables sp; spcache := spcache sp; rule := rule sp;
     stopwords := stopwords sp; timeout := timeout sp; uniqueId := uniqueId sp;
     docs := docs sp |}.

Definition set_flags (sp : IndexSpec) (f : Z) : IndexSpec :=
  {| name := name sp; fields := fields sp; numFields := numFields sp; flags := f;
     sortables := sortables sp; spcache := spcache sp; rule := rule sp;
     stopwords := stopwords sp; timeout := timeout sp; uniqueId := uniqueId sp;
     docs := docs sp |}.

Definition set_sortables (sp : IndexSpec) (t : RSSortingTable) : IndexSpec :=
  {| name := name sp; fields := fields sp; numFields := numFields sp; flags := flags sp;
     sortables := t; spcache := spcache sp; rule := rule sp;
     stopwords := stopwords sp; timeout := timeout sp; uniqueId := uniqueId sp;
     docs := docs sp |}.

Definition set_spcache (sp : IndexSpec) (c : bool) : IndexSpec :=
  {| name := name sp; fields := fields sp; numFields := numFields sp; flags := flags sp;
     sortables := sortables sp; spcache := c; rule := rule sp;
     stopwords := stopwords sp; timeout := timeout sp; uniqueId := uniqueId sp;
     docs := docs sp |}.

Definition set_rule (sp : IndexSpec) (r : option SchemaRule) : IndexSpec :=
  {| name := name sp; fields := fields sp; numFields := numFields sp; flags := flags sp;
     sortables := sortables sp; spcache := spcache sp; rule := r;
     stopwords := stopwords sp; timeout := timeout sp; uniqueId := uniqueId sp;
     docs := docs sp |}.

Definition set_stopwords (sp : IndexSpec) (w : StopWordList) : IndexSpec :=
  {| name := name sp; fields := fields sp; numFields := numFields sp; flags := flags sp;
     sortables := sortables sp; spcache := spcache sp; rule := rule sp;
     stopwords := w; timeout := timeout sp; uniqueId := uniqueId sp;
     docs := docs sp |}.

Definition set_timeout (sp : IndexSpec) (t : Z) : IndexSpec :=
  {| name := name sp; fields := fields sp; numFields := numFields sp; flags := flags sp;
     sortables := sortables sp; spcache := spcache sp; rule := rule sp;
     stopwords := stopwords sp; timeout := t; uniqueId := uniqueId sp;
     docs := docs sp |}.

Definition set_uniqueId (sp : IndexSpec) (u : Z) : IndexSpec :=
  {| name := name sp; fields := fields sp; numFields := numFields sp; flags := flags sp;
     sortables := sortables sp; spcache := spcache sp; rule := rule sp;
     stopwords := stopwords sp; timeout := timeout sp; uniqueId := u;
     docs := docs sp |}.

(** [sp->fields[i]] and the assignment to it. *)
Definition field_at (sp : IndexSpec) (i : nat) : FieldSpec :=
  default FieldSpec_zero (fields sp !! i).

Definition set_field (sp : IndexSpec) (i : nat) (fs : FieldSpec) : IndexSpec :=
  set_fields sp (<[i := fs]> (fields sp)).

(** [strncmp] and [strncasecmp] on the first [len] characters. *)
Definition strn_eq (useCase : bool) (a b : string) (len : nat) : bool :=
  if useCase then String.eqb (substring 0 len a) (substring 0 len b)
  else strcaseeq (substring 0 len a) (substring 0 len b).

Definition getFieldCommon (spec : IndexSpec) (nm : string) (len : nat) (useCase : bool)
  : option FieldSpec :=
  List.find
    (λ fs, Nat.eqb len (String.length (FS.name fs)) && strn_eq useCase (FS.name fs) nm len)
    (take (numFields spec) (fields spec)).

Definition IndexSpec_GetField (spec : IndexSpec) (nm : string) (len : nat)
  : option FieldSpec :=
  getFieldCommon spec nm len false.

Definition IndexSpec_GetFieldCase (spec : IndexSpec) (nm : string) (n : nat)
  : option FieldSpec :=
  getFieldCommon spec nm n true.

Definition IndexSpec_CreateTextId (sp : IndexSpec) : Z :=
  let maxId :=
    fold_left
      (λ maxId fs,
         if FIELD_IS fs INDEXFLD_T_FULLTEXT then
           if FS.ftId fs =? T_FIELDID_NONE then maxId else Z.max (FS.ftId fs) maxId
         else maxId)
      (take (numFields sp) (fields sp)) (-1) in
  if SPEC_MAX_FIELD_ID <=? maxId + 1 then -1 else maxId + 1.

(** [IndexSpec_CreateField]: the array is reallocated to [numFields + 1]
    cells and the new cell filled in; the result is the index of the cell.
    [tagFlags] is assigned twice, the second time with the default separator. *)
Definition IndexSpec_CreateField (sp : IndexSpec) (nm : string) : nat * IndexSpec :=
  let n := numFields sp in
  let fs :=
    {| FS.name := nm; FS.types := 0; FS.options := 0; FS.ftId := T_FIELDID_NONE;
       FS.ftWeight := DOUBLE_ONE; FS.sortIdx := -1;
       FS.tagFlags := TAG_FIELD_DEFAULT_SEP; FS.tagSep := 0; FS.index := n |} in
  (n, set_numFields
        (set_fields sp (<[n := fs]> (resize (S n) FieldSpec_zero (fields sp))))
        (S n)).

(** The block of the loop body that gives an indexable full-text field its
    id; [fs] is the index of the cell being filled.  [false]: [goto reset]. *)
Definition add_field_text_id (isNew : bool) (sp : IndexSpec) (fs : nat)
    (status : QueryError) : bool * IndexSpec * QueryError :=
  let f := field_at sp fs in
  if FIELD_IS f INDEXFLD_T_FULLTEXT && FieldSpec_IsIndexable f then
    let textId := IndexSpec_CreateTextId sp in
    if textId <? 0 then
      (false, sp, QueryError_SetError status QUERY_ELIMIT "Too many TEXT fields in schema")
    else if (SPEC_WIDEFIELD_THRESHOLD <=? textId)
            && has_flag (flags sp) Index_StoreFieldFlags then
      if isNew then
        (true,
         set_field (set_flags sp (Z.lor (flags sp) Index_WideSchema)) fs
           (set_ftId f textId), status)
      else if Z.land (flags sp) Index_WideSchema =? 0 then
        (false, sp, QueryError_SetError status QUERY_ELIMIT "Cannot add more fields")
      else (true, set_field sp fs (set_ftId f textId), status)
    else (true, set_field sp fs (set_ftId f textId), status)
  else (true, sp, status).

(** The block that enters a sortable field in the sorting table. *)
Definition add_field_sortable (sp : IndexSpec) (fs : nat) (status : QueryError)
  : bool * IndexSpec * QueryError :=
  let f := field_at sp fs in
  if FieldSpec_IsSortable f then
    if has_flag (FS.options f) FieldSpec_Dynamic then
      (false, sp,
       QueryError_SetError status QUERY_EBADOPTION "Cannot set dynamic field to sortable")
    else
      let '(tbl, idx) :=
        RSSortingTable_Add (sortables sp) (FS.name f)
          (fieldTypeToValueType (FS.types f)) in
      (true, set_field (set_sortables sp tbl) fs (set_sortIdx f idx), status)
  else (true, set_field sp fs (set_sortIdx f (-1)), status).

(** One turn of the loop of [IndexSpec_AddFieldsInternal].  The result tells
    whether the field was added; when it was not, control goes to [reset]
    with the cell [fs] that was being filled, if any. *)
Definition add_field (isNew : bool) (sp : IndexSpec) (ac : ArgsCursor)
    (status : QueryError)
  : option (bool * option nat * IndexSpec * ArgsCursor * QueryError) :=
  let '(fieldName, ac) := AC_GetStringNC ac in
  let fieldName := default "" fieldName in
  match IndexSpec_GetField sp fieldName (String.length fieldName) with
  | Some _ =>
      Some (false, None, sp, ac,
            QueryError_SetError status QUERY_EINVAL "Duplicate field in schema")
  | None =>
      let '(fs, sp) := IndexSpec_CreateField sp fieldName in
      match parseFieldSpec ac (field_at sp fs) status with
      | None => None
      | Some (rc, f, ac, status) =>
          let sp := set_field sp fs f in
          if rc =? 0 then Some (false, Some fs, sp, ac, status)
          else
            let '(ok, sp, status) := add_field_text_id isNew sp fs status in
            if negb ok then Some (false, Some fs, sp, ac, status)
            else
              let '(ok, sp, status) := add_field_sortable sp fs status in
              if negb ok then Some (false, Some fs, sp, ac, status)
              else
                let sp :=
                  if FieldSpec_IsPhonetics (field_at sp fs)
                  then set_flags sp (Z.lor (flags sp) Index_HasPhonetic)
                  else sp in
                Some (true, None, sp, ac, status)
      end
  end.

(** The [while (!AC_IsAtEnd(ac))] loop; every turn consumes the field name. *)
Fixpoint AddFields_loop (fuel : nat) (isNew : bool) (sp : IndexSpec) (ac : ArgsCursor)
    (status : QueryError)
  : option (bool * option nat * IndexSpec * ArgsCursor * QueryError) :=
  if AC_IsAtEnd ac then Some (true, None, sp, ac, status)
  else
    match fuel with
    | O => None
    | S fuel =>
        match add_field isNew sp ac status with
        | None => None
        | Some (ok, fs, sp, ac, status) =>
            if ok then AddFields_loop fuel isNew sp ac status
            else Some (false, fs, sp, ac, status)
        end
    end.

(** The [reset:] label. *)
Definition AddFields_reset (sp : IndexSpec) (fs : option nat)
    (prevNumFields : nat) (prevSortLen : Z) : IndexSpec :=
  let sp :=
    match fs with
    | Some i =>
        let sp := set_numFields sp (pred (numFields sp)) in
        set_field sp i (FieldSpec_Cleanup (field_at sp i))
    | None => sp
    end in
  let sp :=
    fold_left (λ sp ii, set_field sp ii (FieldSpec_Cleanup (field_at sp ii)))
      (seq prevNumFields (numFields sp - prevNumFields)) sp in
  let sp := set_numFields sp prevNumFields in
  set_sortables sp
    {| len := prevSortLen; sort_fields := sort_fields (sortables sp) |}.

Definition IndexSpec_AddFieldsInternal (sp : IndexSpec) (ac : ArgsCursor)
    (status : QueryError) (isNew : bool)
  : option (Z * IndexSpec * ArgsCursor * QueryError) :=
  let sp := if spcache sp then set_spcache sp false else sp in
  let prevNumFields := numFields sp in
  let prevSortLen := len (sortables sp) in
  match AddFields_loop (length ac) isNew sp ac status with
  | None => None
  | Some (ok, fs, sp, ac, status) =>
      if ok then Some (1, sp, ac, status)
      else Some (0, AddFields_reset sp fs prevNumFields prevSortLen, ac, status)
  end.

Definition IndexSpec_AddFields (sp : IndexSpec) (ac : ArgsCursor) (status : QueryError)
  : option (Z * IndexSpec * ArgsCursor * QueryError) :=
  IndexSpec_AddFieldsInternal sp ac status false.

(** *** Creating an index *)

(** What [AC_ParseArgSpec] leaves in the targets of [argopts]: the index
    flags, the rule arguments, the [PREFIX] and [STOPWORDS] sub-cursors and
    the timeout (-1 when [TEMPORARY] is not given). *)
Record CreateOptions := {
  opt_flags : Z;
  opt_rule_args : SchemaRuleArgs;
  opt_rule_prefixes : list string;
  opt_timeout : Z;
  opt_stopwords : option (list string);
}.

(** Collaborators: the option parser of util/args.h, with the name of the
    argument it stopped at, and the rule constructor. *)
Variable AC_ParseArgSpec : ArgsCursor → Z → Z * string * CreateOptions * ArgsCursor.
Variable SchemaRule_Create :
  SchemaRuleArgs → IndexSpec → QueryError → option SchemaRule * QueryError.

(** The globals of spec.c.  [specDict] maps a name to its index spec (the
    spec is entered with the unique id it is given right after [dictAdd]);
    [cleanPool] holds the temporary specs whose release is queued. *)
Record Globals := {
  specDict : dict IndexSpec;
  spec_unique_ids : Z;
  cleanPool : list IndexSpec;
}.

Definition IndexSpec_FreeInternals (g : Globals) (spec : IndexSpec) : Globals :=
  {| specDict := (dictDelete (specDict g) (name spec)).2;
     spec_unique_ids := spec_unique_ids g;
     cleanPool := cleanPool g |}.

Definition IndexSpec_Free (g : Globals) (spec : IndexSpec) : Globals :=
  if has_flag (flags spec) Index_Temporary then
    {| specDict := specDict g; spec_unique_ids := spec_unique_ids g;
       cleanPool := cleanPool g ++ [spec] |}
  else IndexSpec_FreeInternals g spec.

Definition NewIndexSpec (nm : string) : IndexSpec :=
  {| name := nm;
     fields := replicate SPEC_MAX_FIELDS FieldSpec_zero;
     numFields := 0;
     flags := INDEX_DEFAULT_FLAGS;
     sortables := NewSortingTable;
     spcache := false;
     rule := None;
     stopwords := DefaultStopWordList;
     timeout := 0;
     uniqueId := 0;
     docs := DocTable.NewDocTable 100 |}.

Definition IndexSpec_Parse (g : Globals) (nm : string) (argv : list string)
    (status : QueryError) : option (option IndexSpec * QueryError * Globals) :=
  let spec := NewIndexSpec nm in
  let failure (spec : IndexSpec) (status : QueryError) :=
    Some (None, status, IndexSpec_Free g spec) in
  let '(rc, errarg, o, ac) := AC_ParseArgSpec argv (flags spec) in
  let spec := set_flags spec (opt_flags o) in
  if negb (rc =? AC_OK) && negb (rc =? AC_ERR_ENOENT) then
    failure spec
      (QueryError_SetError status QUERY_EPARSEARGS ("Bad arguments for " ++ errarg))
  else
    let spec :=
      if negb (opt_timeout o =? -1)
      then set_flags spec (Z.lor (flags spec) Index_Temporary) else spec in
    let spec := set_timeout spec (opt_timeout o) in
    let rule_args :=
      let a := opt_rule_args o in
      if (0 <? length (opt_rule_prefixes o))%nat then
        {| type := type a; filter_exp_str := filter_exp_str a;
           score_field := score_field a; lang_field := lang_field a;
           payload_field := payload_field a;
           prefixes := opt_rule_prefixes o;
           nprefixes := length (opt_rule_prefixes o) |}
      else
        {| type := type a; filter_exp_str := filter_exp_str a;
           score_field := score_field a; lang_field := lang_field a;
           payload_field := payload_field a;
           prefixes := [""]; nprefixes := 1 |} in
    match SchemaRule_Create rule_args spec status with
    | (None, status) => failure spec status
    | (Some r, status) =>
        let spec := set_rule spec (Some r) in
        let spec :=
          match opt_stopwords o with
          | Some words =>
              set_flags (set_stopwords spec (NewStopWordListCStr words))
                (Z.lor (flags spec) Index_HasCustomStopwords)
          | None => spec
          end in
        let '(m, ac) := AC_AdvanceIfMatch ac SPEC_SCHEMA_STR in
        if negb m then
          if (0 <? AC_NumRemaining ac)%nat then
            failure spec
              (QueryError_SetError status QUERY_EPARSEARGS
                 ("Unknown argument `" ++ default "" (AC_GetStringNC ac).1 ++ "`"))
          else
            failure spec (QueryError_SetError status QUERY_EPARSEARGS "No schema found")
        else
          match IndexSpec_AddFieldsInternal spec ac status true with
          | None => None
          | Some (rc, spec, ac, status) =>
              if rc =? 0 then failure spec status else Some (Some spec, status, g)
          end
    end.

Definition IndexSpec_ParseRedisArgs (g : Globals) (nm : string) (argv : list string)
    (status : QueryError) : option (option IndexSpec * QueryError * Globals) :=
  IndexSpec_Parse g nm argv status.

(** [IndexSpec_CreateNew].  [None]: [argv] has no [argv[1]].  The garbage
    collector, the cursor list, the indexer and the creation hook that a new
    index is handed to afterwards are outside this model. *)
Definition IndexSpec_CreateNew (g : Globals) (argv : list string) (status : QueryError)
  : option (option IndexSpec * QueryError * Globals) :=
  match argv !! 1%nat with
  | None => None
  | Some specName =>
      match dictFetchValue (specDict g) specName with
      | Some _ => Some (None, QueryError_SetCode status QUERY_EINDEXEXISTS, g)
      | None =>
          match IndexSpec_ParseRedisArgs g specName (drop 2 argv) status with
          | None => None
          | Some (None, status, g) => Some (None, status, g)
          | Some (Some sp, status, g) =>
              let sp := set_uniqueId sp (spec_unique_ids g) in
              Some (Some sp, status,
                    {| specDict := (dictAdd (specDict g) specName sp).2;
                       spec_unique_ids := (spec_unique_ids g + 1) mod 2 ^ 64;
                       cleanPool := cleanPool g |})
          end
      end
  end.

(** *** The parsing loops terminate and never give arguments back *)

Lemma AC_AdvanceIfMatch_length (ac : ArgsCursor) kw m ac' :
  AC_AdvanceIfMatch ac kw = (m, ac') →
  if m then S (length ac') = length ac else ac' = ac.
Proof.
  destruct ac as [|cur ac]; simpl; [by intros [= <- <-]|].
  destruct (strcaseeq kw cur); by intros [= <- <-].
Qed.

Lemma AC_GetStringNC_length (ac : ArgsCursor) s ac' :
  AC_GetStringNC ac = (s, ac') → (length ac' ≤ length ac)%nat.
Proof. destruct ac; simpl; intros [= <- <-]; simpl; lia. Qed.

Lemma AC_GetDouble_length (ac : ArgsCursor) rc d ac' :
  AC_GetDouble ac = (rc, d, ac') → (length ac' ≤ length ac)%nat.
Proof.
  destruct ac as [|a ac]; simpl; [by intros [= <- <- <-]|].
  destruct (parse_double a); intros [= <- <- <-]; simpl; lia.
Qed.

Lemma parseTextField_loop_total (fuel : nat) sp (ac : ArgsCursor) status :
  (length ac ≤ fuel)%nat →
  ∃ rc sp' ac' status',
    parseTextField_loop fuel sp ac status = Some (rc, sp', ac', status')
    ∧ (length ac' ≤ length ac)%nat.
Proof.
  revert sp ac status. induction fuel as [|fuel IH]; intros sp ac status Hfuel.
  - destruct ac; simpl in *; [|lia]. by eexists _, _, _, _.
  - simpl. destruct (AC_IsAtEnd ac) eqn:Hend; [by eexists _, _, _, _|].
    destruct (AC_AdvanceIfMatch ac SPEC_NOSTEM_STR) as [m ac1] eqn:H1.
    apply AC_AdvanceIfMatch_length in H1. destruct m.
    { destruct (IH (set_options sp (Z.lor (FS.options sp) FieldSpec_NoStemming))
                  ac1 status) as (rc & sp' & ac' & st' & -> & Hlen); [lia|].
      eexists _, _, _, _. split; [done | lia]. }
    destruct (AC_AdvanceIfMatch ac SPEC_WEIGHT_STR) as [m ac2] eqn:H2.
    apply AC_AdvanceIfMatch_length in H2. destruct m.
    { destruct (AC_GetDouble ac2) as [[rc d] ac3] eqn:H3.
      apply AC_GetDouble_length in H3.
      destruct (negb (rc =? AC_OK)).
      - eexists _, _, _, _. split; [done | lia].
      - destruct (IH (set_ftWeight sp d) ac3 status)
          as (rc' & sp' & ac' & st' & -> & Hlen); [lia|].
        eexists _, _, _, _. split; [done | lia]. }
    destruct (AC_AdvanceIfMatch ac SPEC_PHONETIC_STR) as [m ac3] eqn:H3.
    apply AC_AdvanceIfMatch_length in H3. destruct m.
    { destruct (AC_IsAtEnd ac3); [eexists _, _, _, _; split; [done | lia]|].
      destruct (AC_GetStringNC ac3) as [matcher ac4] eqn:H4.
      apply AC_GetStringNC_length in H4.
      destruct (negb _).
      - eexists _, _, _, _. split; [done | lia].
      - destruct (IH (set_options sp (Z.lor (FS.options sp) FieldSpec_Phonetics))
                    ac4 status) as (rc' & sp' & ac' & st' & -> & Hlen); [lia|].
        eexists _, _, _, _. split; [done | lia]. }
    eexists _, _, _, _. split; [done | lia].
Qed.

Lemma parseFieldSpec_options_total (fuel : nat) sp (ac : ArgsCursor) :
  (length ac ≤ fuel)%nat →
  ∃ sp' ac', parseFieldSpec_options fuel sp ac = Some (sp', ac')
             ∧ (length ac' ≤ length ac)%nat.
Proof.
  revert sp ac. induction fuel as [|fuel IH]; intros sp ac Hfuel.
  - destruct ac; simpl in *; [|lia]. by eexists _, _.
  - simpl. destruct (AC_IsAtEnd ac) eqn:Hend; [by eexists _, _|].
    destruct (AC_AdvanceIfMatch ac SPEC_SORTABLE_STR) as [m ac1] eqn:H1.
    apply AC_AdvanceIfMatch_length in H1. destruct m.
    { destruct (IH (FieldSpec_SetSortable sp) ac1) as (sp' & ac' & -> & Hlen); [lia|].
      eexists _, _. split; [done | lia]. }
    destruct (AC_AdvanceIfMatch ac SPEC_NOINDEX_STR) as [m ac2] eqn:H2.
    apply AC_AdvanceIfMatch_length in H2. destruct m.
    { destruct (IH (set_options sp (Z.lor (FS.options sp) FieldSpec_NotIndexable)) ac2)
        as (sp' & ac' & -> & Hlen); [lia|].
      eexists _, _. split; [done | lia]. }
    eexists _, _. split; [done | lia].
Qed.

Lemma parseFieldSpec_total (ac : ArgsCursor) sp status :
  ∃ rc sp' ac' status',
    parseFieldSpec ac sp status = Some (rc, sp', ac', status')
    ∧ (length ac' ≤ length ac)%nat.
Proof.
  unfold parseFieldSpec.
  destruct (AC_IsAtEnd ac); [by eexists _, _, _, _|].
  assert (∀ ok sp1 ac1 st1, (length ac1 ≤ length ac)%nat →
            ∃ rc sp' ac' status',
              (if negb ok then Some (parseFieldSpec_error sp1 ac1 st1)
               else '(sp2, ac2) ← parseFieldSpec_options (length ac1) sp1 ac1;
                    Some (1, sp2, ac2, st1)) = Some (rc, sp', ac', status')
              ∧ (length ac' ≤ length ac)%nat) as Hrest.
  { intros ok sp1 ac1 st1 Hlen. destruct ok; simpl.
    - destruct (parseFieldSpec_options_total (length ac1) sp1 ac1)
        as (sp2 & ac2 & -> & Hlen2); [done|].
      simpl. eexists _, _, _, _. split; [done | lia].
    - unfold parseFieldSpec_error. by eexists _, _, _, _. }
  destruct (AC_AdvanceIfMatch ac SPEC_TEXT_STR) as [m ac1] eqn:H1.
  apply AC_AdvanceIfMatch_length in H1. destruct m.
  { unfold parseTextField.
    destruct (parseTextField_loop_total (length ac1)
                (FieldSpec_Initialize sp INDEXFLD_T_FULLTEXT) ac1 status)
      as (rc & sp' & ac' & st' & -> & Hlen); [done|].
    simpl. apply Hrest. lia. }
  destruct (AC_AdvanceIfMatch ac NUMERIC_STR) as [m ac2] eqn:H2.
  apply AC_AdvanceIfMatch_length in H2. destruct m.
  { simpl. apply (Hrest true). lia. }
  destruct (AC_AdvanceIfMatch ac GEO_STR) as [m ac3] eqn:H3.
  apply AC_AdvanceIfMatch_length in H3. destruct m.
  { simpl. apply (Hrest true). lia. }
  destruct (AC_AdvanceIfMatch ac SPEC_TAG_STR) as [m ac4] eqn:H4.
  apply AC_AdvanceIfMatch_length in H4. destruct m.
  { destruct (AC_AdvanceIfMatch ac4 SPEC_SEPARATOR_STR) as [m ac5] eqn:H5.
    apply AC_AdvanceIfMatch_length in H5. destruct m.
    - destruct (AC_IsAtEnd ac5); [simpl; apply (Hrest false); lia|].
      destruct (AC_GetStringNC ac5) as [sep ac6] eqn:H6.
      apply AC_GetStringNC_length in H6.
      destruct (default "" sep) as [|c [|]]; simpl.
      + apply (Hrest false). lia.
      + apply (Hrest true). lia.
      + apply (Hrest false). lia.
    - simpl. apply (Hrest true). subst. lia. }
  simpl. apply (Hrest false). subst. lia.
Qed.

(** *** Adding fields is atomic *)

(** [sp] has at least [n] cells and its first [n] cells are those of [l]. *)
Definition keeps (n : nat) (l : list FieldSpec) (sp : IndexSpec) : Prop :=
  (n ≤ length (fields sp))%nat ∧ take n (fields sp) = take n l.

Lemma keeps_set_field n l sp i fs :
  keeps n l sp → (n ≤ i)%nat → keeps n l (set_field sp i fs).
Proof.
  intros [Hlen Htake] Hi. unfold keeps. simpl.
  rewrite length_insert, take_insert_ge by done. done.
Qed.

Lemma keeps_same_fields n l sp sp' :
  fields sp' = fields sp → keeps n l sp → keeps n l sp'.
Proof. unfold keeps. by intros ->. Qed.

Lemma keeps_CreateField n l sp nm :
  keeps n l sp → (n ≤ numFields sp)%nat →
  keeps n l (IndexSpec_CreateField sp nm).2.
Proof.
  intros [Hlen Htake] Hn. unfold keeps. simpl.
  rewrite length_insert, length_resize, take_insert_ge by done.
  rewrite take_resize_le, resize_le by lia. split; [lia | done].
Qed.

Lemma add_field_text_id_keeps n l isNew sp fs status :
  keeps n l sp → (n ≤ fs)%nat →
  keeps n l (add_field_text_id isNew sp fs status).1.2
  ∧ numFields (add_field_text_id isNew sp fs status).1.2 = numFields sp.
Proof.
  intros Hk Hfs. unfold add_field_text_id.
  repeat case_match; simpl; (split; [|done]); try done;
    apply keeps_set_field; try done; by apply (keeps_same_fields n l sp).
Qed.

Lemma add_field_sortable_keeps n l sp fs status :
  keeps n l sp → (n ≤ fs)%nat →
  keeps n l (add_field_sortable sp fs status).1.2
  ∧ numFields (add_field_sortable sp fs status).1.2 = numFields sp.
Proof.
  intros Hk Hfs. unfold add_field_sortable.
  repeat case_match; simpl; (split; [|done]); try done;
    apply keeps_set_field; try done; by apply (keeps_same_fields n l sp).
Qed.

Lemma add_field_keeps n l isNew sp (ac : ArgsCursor) status :
  keeps n l sp → (n ≤ numFields sp)%nat →
  ∃ ok fs sp' ac' status',
    add_field isNew sp ac status = Some (ok, fs, sp', ac', status')
    ∧ keeps n l sp' ∧ (n ≤ numFields sp')%nat
    ∧ (∀ i, fs = Some i → (n ≤ i)%nat)
    ∧ (ac ≠ [] → (length ac' < length ac)%nat).
Proof.
  intros Hk Hn. unfold add_field.
  destruct (AC_GetStringNC ac) as [fieldName ac0] eqn:Hget.
  assert (ac ≠ [] → (length ac0 < length ac)%nat) as Hlt.
  { destruct ac; simpl in Hget; injection Hget as <- <-; [done | simpl; lia]. }
  destruct (IndexSpec_GetField sp _ _).
  { eexists _, _, _, _, _. split_and!; [done | done | done | done | done]. }
  pose proof (keeps_CreateField n l sp (default "" fieldName) Hk Hn) as Hk1.
  destruct (IndexSpec_CreateField sp (default "" fieldName)) as [fs sp1] eqn:Hcreate.
  assert (fs = numFields sp ∧ numFields sp1 = S (numFields sp)) as [Hfs Hn1].
  { unfold IndexSpec_CreateField in Hcreate. by injection Hcreate as <- <-. }
  simpl in Hk1.
  destruct (parseFieldSpec_total ac0 (field_at sp1 fs) status)
    as (rc & f & ac1 & st1 & -> & Hlen1).
  assert (ac ≠ [] → (length ac1 < length ac)%nat) as Hlt1.
  { intros Hne. specialize (Hlt Hne). lia. }
  assert (n ≤ fs)%nat as Hfsn by lia.
  assert (∀ i, Some fs = Some i → (n ≤ i)%nat) as Hsome by (by intros i [= <-]).
  pose proof (keeps_set_field n l sp1 fs f Hk1 Hfsn) as Hk2.
  assert (numFields (set_field sp1 fs f) = S (numFields sp)) as Hn2 by done.
  set (sp2 := set_field sp1 fs f) in *. clearbody sp2.
  destruct (rc =? 0).
  { eexists _, _, _, _, _. split_and!; [done | done | lia | done | done]. }
  destruct (add_field_text_id_keeps n l isNew sp2 fs st1 Hk2 Hfsn) as [Hk3 Hn3].
  destruct (add_field_text_id isNew sp2 fs st1) as [[ok3 sp3] st3]. simpl in Hk3, Hn3.
  destruct ok3; simpl.
  2:{ eexists _, _, _, _, _. split_and!; [done | done | lia | done | done]. }
  destruct (add_field_sortable_keeps n l sp3 fs st3 Hk3 Hfsn) as [Hk4 Hn4].
  destruct (add_field_sortable sp3 fs st3) as [[ok4 sp4] st4]. simpl in Hk4, Hn4.
  destruct ok4; simpl.
  2:{ eexists _, _, _, _, _. split_and!; [done | done | lia | done | done]. }
  eexists _, _, _, _, _. split; [done|].
  destruct (FieldSpec_IsPhonetics _); split_and!; try done; simpl; lia.
Qed.

Lemma AddFields_loop_keeps n l (fuel : nat) isNew sp (ac : ArgsCursor) status :
  keeps n l sp → (n ≤ numFields sp)%nat → (length ac ≤ fuel)%nat →
  ∃ ok fs sp' ac' status',
    AddFields_loop fuel isNew sp ac status = Some (ok, fs, sp', ac', status')
    ∧ keeps n l sp' ∧ (n ≤ numFields sp')%nat
    ∧ (∀ i, fs = Some i → (n ≤ i)%nat).
Proof.
  revert sp ac status. induction fuel as [|fuel IH]; intros sp ac status Hk Hn Hfuel.
  - destruct ac; simpl in *; [|lia]. eexists _, _, _, _, _. by split_and!.
  - simpl. destruct (AC_IsAtEnd ac) eqn:Hend.
    { eexists _, _, _, _, _. by split_and!. }
    destruct (add_field_keeps n l isNew sp ac status Hk Hn)
      as (ok & fs & sp' & ac' & st' & -> & Hk' & Hn' & Hfs & Hlt).
    assert (ac ≠ []) as Hne by (by destruct ac).
    specialize (Hlt Hne). destruct ok.
    + apply IH; [done | done | lia].
    + eexists _, _, _, _, _. by split_and!.
Qed.

Lemma cleanup_loop_keeps n l (idxs : list nat) sp :
  keeps n l sp → Forall (λ ii, (n ≤ ii)%nat) idxs →
  let sp' := fold_left (λ sp ii, set_field sp ii (FieldSpec_Cleanup (field_at sp ii)))
               idxs sp in
  keeps n l sp' ∧ sortables sp' = sortables sp.
Proof.
  revert sp. induction idxs as [|ii idxs IH]; intros sp Hk Hall; simpl; [done|].
  apply Forall_cons in Hall as [Hii Hall].
  destruct (IH (set_field sp ii (FieldSpec_Cleanup (field_at sp ii)))) as [Hk' Hs'];
    [by apply keeps_set_field | done |]. done.
Qed.

Lemma AddFields_reset_restores n l sp fs prevSortLen :
  keeps n l sp → (∀ i, fs = Some i → (n ≤ i)%nat) →
  let sp' := AddFields_reset sp fs n prevSortLen in
  numFields sp' = n ∧ take n (fields sp') = take n l ∧ len (sortables sp') = prevSortLen.
Proof.
  intros Hk Hfs. unfold AddFields_reset. simpl. split_and!; [done | | done].
  match goal with
  | |- context [fold_left ?f ?idxs ?sp0] =>
      destruct (cleanup_loop_keeps n l idxs sp0) as [[_ Ht] _]; [| | exact Ht]
  end.
  - destruct fs as [i|]; [|done].
    apply keeps_set_field; [|by apply Hfs]. by apply (keeps_same_fields n l sp).
  - apply Forall_forall. intros ii Hin. apply elem_of_seq in Hin. lia.
Qed.

Lemma getFieldCommon_same_prefix sp sp' nm n useCase :
  numFields sp' = numFields sp →
  take (numFields sp) (fields sp') = take (numFields sp) (fields sp) →
  getFieldCommon sp' nm n useCase = getFieldCommon sp nm n useCase.
Proof. intros Hn Ht. unfold getFieldCommon. by rewrite Hn, Ht. Qed.

(** C9.  Creating an index under a name that is registered is rejected: no
    spec is returned, the status carries [QUERY_EINDEXEXISTS] and the globals,
    the registry of indexes among them, are as before. *)
Theorem create_duplicate_rejected (g : Globals) (argv : list string)
    (specName : string) (status : QueryError) :
  argv !! 1%nat = Some specName →
  is_Some (dictFetchValue (specDict g) specName) →
  Rules.code status = Rules.QUERY_OK →
  ∃ status',
    IndexSpec_CreateNew g argv status = Some (None, status', g)
    ∧ Rules.code status' = QUERY_EINDEXEXISTS.
Proof.
  intros Hargv [sp Hsp] Hclean. unfold IndexSpec_CreateNew. rewrite Hargv, Hsp.
  eexists. split; [done|]. by apply QueryError_SetCode_code.
Qed.

(** *** Further facts about the schema *)

(** X10.  The phonetic matcher that [PHONETIC] accepts is one of exactly four
    strings: double metaphone for English, Portuguese, French or Spanish. *)
Theorem checkPhoneticAlgorithmAndLang_accepts (matcher : string) :
  checkPhoneticAlgorithmAndLang matcher = true
  ↔ matcher ∈ ["dm:en"; "dm:pt"; "dm:fr"; "dm:es"].
Proof.
  split.
  - destruct matcher as [|m0 [|m1 [|m2 [|m3 [|m4 [|]]]]]]; try discriminate.
    unfold checkPhoneticAlgorithmAndLang.
    destruct (Ascii.eqb_spec m0 "d") as [-> |]; [|discriminate].
    destruct (Ascii.eqb_spec m1 "m") as [-> |]; [|discriminate].
    destruct (Ascii.eqb_spec m2 ":") as [-> |]; [|discriminate].
    cbn [negb orb existsb].
    intros Hlang. repeat apply orb_prop in Hlang as [Hlang | Hlang];
      try discriminate;
      apply andb_prop in Hlang as [->%Ascii.eqb_eq ->%Ascii.eqb_eq];
      repeat first [left | right].
  - intros Hin. repeat apply elem_of_cons in Hin as [-> | Hin]; try reflexivity.
    by apply elem_of_nil in Hin.
Qed.

(** The text ids in use: those of the full-text fields of the schema that
    have been given one. *)
Definition schema (sp : IndexSpec) : list FieldSpec := take (numFields sp) (fields sp).

Definition has_text_id (f : FieldSpec) : bool :=
  FIELD_IS f INDEXFLD_T_FULLTEXT && negb (FS.ftId f =? T_FIELDID_NONE).

Definition used_text_ids (l : list FieldSpec) : list Z :=
  map FS.ftId (List.filter has_text_id l).

Definition max_text_id (l : list FieldSpec) (start : Z) : Z :=
  fold_left
    (λ maxId fs,
       if FIELD_IS fs INDEXFLD_T_FULLTEXT then
         if FS.ftId fs =? T_FIELDID_NONE then maxId else Z.max (FS.ftId fs) maxId
       else maxId)
    l start.

Lemma max_text_id_bounds (l : list FieldSpec) (start : Z) :
  start ≤ max_text_id l start
  ∧ Forall (λ x, x ≤ max_text_id l start) (used_text_ids l).
Proof.
  revert start. induction l as [|f l IH]; intros start; simpl.
  - split; [lia | constructor].
  - unfold used_text_ids, has_text_id. simpl.
    destruct (FIELD_IS f INDEXFLD_T_FULLTEXT); simpl.
    + destruct (FS.ftId f =? T_FIELDID_NONE); simpl.
      * apply IH.
      * destruct (IH (Z.max (FS.ftId f) start)) as [Hs Hall].
        split; [lia|]. constructor; [|done]. unfold max_text_id in *. lia.
    + apply IH.
Qed.

Lemma max_text_id_app_ignored (l : list FieldSpec) (f : FieldSpec) (start : Z) :
  has_text_id f = false → max_text_id (l ++ [f]) start = max_text_id l start.
Proof.
  intros Hf. unfold max_text_id. rewrite fold_left_app. simpl.
  unfold has_text_id in Hf.
  destruct (FIELD_IS f INDEXFLD_T_FULLTEXT); [|done].
  simpl in Hf. apply negb_false_iff in Hf. by rewrite Hf.
Qed.

(** X11.  [IndexSpec_CreateTextId] returns -1 or an id that is free: it is at
    least 0, below [SPEC_MAX_FIELD_ID] and above every text id in use. *)
Theorem IndexSpec_CreateTextId_fresh (sp : IndexSpec) :
  IndexSpec_CreateTextId sp = -1
  ∨ (0 ≤ IndexSpec_CreateTextId sp < SPEC_MAX_FIELD_ID
     ∧ Forall (λ x, x < IndexSpec_CreateTextId sp) (used_text_ids (schema sp))).
Proof.
  unfold IndexSpec_CreateTextId. fold (max_text_id (take (numFields sp) (fields sp)) (-1)).
  fold (schema sp).
  destruct (max_text_id_bounds (schema sp) (-1)) as [Hlow Hall].
  destruct (Z.leb_spec SPEC_MAX_FIELD_ID (max_text_id (schema sp) (-1) + 1)); [by left|].
  right. split; [lia|]. eapply Forall_impl; [exact Hall|]. simpl. intros x ?. lia.
Qed.

(** *** What a successful step of [IndexSpec_AddFieldsInternal] adds *)

(** Parsing the options of a field changes neither its name, nor its position,
    nor its text id. *)
Definition same_identity (f g : FieldSpec) : Prop :=
  FS.name f = FS.name g ∧ FS.index f = FS.index g ∧ FS.ftId f = FS.ftId g.

Lemma FieldSpec_Initialize_same sp types :
  same_identity (FieldSpec_Initialize sp types) sp.
Proof. unfold FieldSpec_Initialize. by destruct (FIELD_IS _ _). Qed.

Lemma parseTextField_loop_same (fuel : nat) sp (ac : ArgsCursor) status rc sp' ac' status' :
  parseTextField_loop fuel sp ac status = Some (rc, sp', ac', status') →
  same_identity sp' sp.
Proof.
  revert sp ac status. induction fuel as [|fuel IH]; intros sp ac status; simpl.
  - destruct (AC_IsAtEnd ac); [|done]. by intros [= <- <- <- <-].
  - destruct (AC_IsAtEnd ac); [by intros [= <- <- <- <-]|].
    destruct (AC_AdvanceIfMatch ac SPEC_NOSTEM_STR) as [[] ac1].
    { intros Heq%IH. exact Heq. }
    destruct (AC_AdvanceIfMatch ac SPEC_WEIGHT_STR) as [[] ac2].
    { destruct (AC_GetDouble ac2) as [[rc2 d] ac3].
      destruct (negb _); [by intros [= <- <- <- <-]|].
      intros Heq%IH. exact Heq. }
    destruct (AC_AdvanceIfMatch ac SPEC_PHONETIC_STR) as [[] ac3].
    { destruct (AC_IsAtEnd ac3); [by intros [= <- <- <- <-]|].
      destruct (AC_GetStringNC ac3) as [matcher ac4].
      destruct (negb _); [by intros [= <- <- <- <-]|].
      intros Heq%IH. exact Heq. }
    by intros [= <- <- <- <-].
Qed.

Lemma parseFieldSpec_options_same (fuel : nat) sp (ac : ArgsCursor) sp' ac' :
  parseFieldSpec_options fuel sp ac = Some (sp', ac') → same_identity sp' sp.
Proof.
  revert sp ac. induction fuel as [|fuel IH]; intros sp ac; simpl.
  - destruct (AC_IsAtEnd ac); [|done]. by intros [= <- <-].
  - destruct (AC_IsAtEnd ac); [by intros [= <- <-]|].
    destruct (AC_AdvanceIfMatch ac SPEC_SORTABLE_STR) as [[] ac1].
    { intros Heq%IH. exact Heq. }
    destruct (AC_AdvanceIfMatch ac SPEC_NOINDEX_STR) as [[] ac2].
    { intros Heq%IH. exact Heq. }
    by intros [= <- <-].
Qed.

Lemma same_identity_trans f g h :
  same_identity f g → same_identity g h → same_identity f h.
Proof. unfold same_identity. intuition congruence. Qed.

Lemma parseFieldSpec_same (ac : ArgsCursor) sp status rc sp' ac' status' :
  parseFieldSpec ac sp status = Some (rc, sp', ac', status') →
  rc ≠ 0 → same_identity sp' sp.
Proof.
  unfold parseFieldSpec.
  destruct (AC_IsAtEnd ac); [by intros [= <- <- <- <-]|].
  assert (∀ ok sp1 ac1 st1, same_identity sp1 sp →
            (if negb ok then Some (parseFieldSpec_error sp1 ac1 st1)
             else '(sp2, ac2) ← parseFieldSpec_options (length ac1) sp1 ac1;
                  Some (1, sp2, ac2, st1)) = Some (rc, sp', ac', status') →
            rc ≠ 0 → same_identity sp' sp) as Hrest.
  { intros ok sp1 ac1 st1 Hsame. destruct ok; simpl.
    - destruct (parseFieldSpec_options _ _ _) as [[sp2 ac2]|] eqn:Hopt; [|done].
      simpl. intros [= <- <- <- <-] _.
      apply parseFieldSpec_options_same in Hopt. by eapply same_identity_trans.
    - unfold parseFieldSpec_error. by intros [= <- <- <- <-]. }
  pose proof (FieldSpec_Initialize_same sp) as Hinit.
  destruct (AC_AdvanceIfMatch ac SPEC_TEXT_STR) as [[] ac1].
  { unfold parseTextField.
    destruct (parseTextField_loop _ _ _ _) as [[[[rc1 sp1] ac2] st1]|] eqn:Htext; [|done].
    simpl. apply Hrest. apply parseTextField_loop_same in Htext.
    by eapply same_identity_trans. }
  destruct (AC_AdvanceIfMatch ac NUMERIC_STR) as [[] ac2].
  { simpl. apply (Hrest true). apply Hinit. }
  destruct (AC_AdvanceIfMatch ac GEO_STR) as [[] ac3].
  { simpl. apply (Hrest true). apply Hinit. }
  destruct (AC_AdvanceIfMatch ac SPEC_TAG_STR) as [[] ac4].
  { destruct (AC_AdvanceIfMatch ac4 SPEC_SEPARATOR_STR) as [[] ac5].
    - destruct (AC_IsAtEnd ac5); [simpl; apply (Hrest false); apply Hinit|].
      destruct (AC_GetStringNC ac5) as [sep ac6].
      destruct (default "" sep) as [|c [|]]; simpl.
      + apply (Hrest false). apply Hinit.
      + apply (Hrest true). apply (Hinit INDEXFLD_T_TAG).
      + apply (Hrest false). apply Hinit.
    - simpl. apply (Hrest true). apply Hinit. }
  simpl. by apply (Hrest false).
Qed.

Lemma insert_resize_snoc (n : nat) (z x : FieldSpec) (l : list FieldSpec) :
  (n ≤ length l)%nat → <[n := x]> (resize (S n) z l) = take n l ++ [x].
Proof.
  intros Hn. apply list_eq. intros i.
  destruct (lt_eq_lt_dec i n) as [[Hi | ->] | Hi].
  - rewrite list_lookup_insert_ne, lookup_resize by lia.
    rewrite lookup_app_l by (rewrite length_take; lia).
    by rewrite lookup_take_lt.
  - rewrite list_lookup_insert_eq by (rewrite length_resize; lia).
    rewrite lookup_app_r by (rewrite length_take; lia).
    rewrite length_take. by replace (n - n `min` length l)%nat with 0%nat by lia.
  - rewrite list_lookup_insert_ne, lookup_resize_old by lia.
    symmetry. apply lookup_ge_None. rewrite length_app, length_take. simpl. lia.
Qed.

Lemma insert_snoc (l : list FieldSpec) (x y : FieldSpec) :
  <[length l := y]> (l ++ [x]) = l ++ [y].
Proof. rewrite insert_app_r_alt by lia. by rewrite Nat.sub_diag. Qed.

Lemma lookup_snoc (l : list FieldSpec) (x : FieldSpec) :
  (l ++ [x]) !! length l = Some x.
Proof. rewrite lookup_app_r by lia. by rewrite Nat.sub_diag. Qed.

Lemma land_lor_same_r (a b : Z) : Z.land (Z.lor a b) b = b.
Proof.
  apply Z.bits_inj'. intros i _. rewrite Z.land_spec, Z.lor_spec.
  by destruct (Z.testbit a i), (Z.testbit b i).
Qed.

Lemma land_lor_same_l (a b : Z) : Z.land (Z.lor a b) a = a.
Proof. rewrite Z.lor_comm. apply land_lor_same_r. Qed.

(** [flags'] has every bit of [flags]. *)
Definition flags_grow (old new : Z) : Prop := Z.land new old = old.

Lemma flags_grow_refl a : flags_grow a a.
Proof. apply Z.land_diag. Qed.

Lemma flags_grow_trans a b c : flags_grow a b → flags_grow b c → flags_grow a c.
Proof.
  unfold flags_grow. intros Hab Hbc.
  rewrite <- Hab at 1. rewrite Z.land_assoc, Hbc. exact Hab.
Qed.

(** The text-id block on the cell just created: the cell gets a fresh text id
    or is left alone. *)
Lemma add_field_text_id_added isNew sp (l : list FieldSpec) (f : FieldSpec) status sp' status' :
  fields sp = l ++ [f] → numFields sp = S (length l) →
  FS.ftId f = T_FIELDID_NONE →
  add_field_text_id isNew sp (length l) status = (true, sp', status') →
  ∃ f',
    fields sp' = l ++ [f'] ∧ numFields sp' = numFields sp
    ∧ FS.name f' = FS.name f ∧ FS.index f' = FS.index f
    ∧ FS.types f' = FS.types f ∧ FS.options f' = FS.options f
    ∧ (has_text_id f' = true →
       0 ≤ FS.ftId f' < SPEC_MAX_FIELD_ID
       ∧ Forall (λ x, x < FS.ftId f') (used_text_ids l))
    ∧ name sp' = name sp ∧ sortables sp' = sortables sp
    ∧ flags_grow (flags sp) (flags sp').
Proof.
  intros Hfields Hnum Hnone. unfold add_field_text_id.
  assert (field_at sp (length l) = f) as ->.
  { unfold field_at. by rewrite Hfields, lookup_snoc. }
  assert (has_text_id f = false) as Hignored.
  { unfold has_text_id. rewrite Hnone, Z.eqb_refl. apply andb_false_r. }
  destruct (FIELD_IS f INDEXFLD_T_FULLTEXT && FieldSpec_IsIndexable f).
  2:{ intros [= <- <-]. exists f. split_and!; try done.
      - by rewrite Hignored.
      - apply flags_grow_refl. }
  assert (IndexSpec_CreateTextId sp
          = if SPEC_MAX_FIELD_ID <=? max_text_id l (-1) + 1 then -1
            else max_text_id l (-1) + 1) as Hid.
  { unfold IndexSpec_CreateTextId.
    fold (max_text_id (take (numFields sp) (fields sp)) (-1)).
    rewrite Hnum, Hfields.
    replace (S (length l)) with (length (l ++ [f])) by (rewrite length_app; simpl; lia).
    rewrite take_ge by done. by rewrite max_text_id_app_ignored. }
  destruct (max_text_id_bounds l (-1)) as [Hlow Hall].
  set (textId := IndexSpec_CreateTextId sp) in *.
  destruct (Z.ltb_spec textId 0) as [|Hpos]; [done|].
  assert (0 ≤ textId < SPEC_MAX_FIELD_ID ∧ Forall (λ x, x < textId) (used_text_ids l))
    as Hfresh.
  { destruct (Z.leb_spec SPEC_MAX_FIELD_ID (max_text_id l (-1) + 1)); [lia|].
    split; [lia|]. eapply Forall_impl; [exact Hall|]. simpl. intros x ?. lia. }
  assert (∀ sp0, fields sp0 = fields sp →
            fields (set_field sp0 (length l) (set_ftId f textId))
            = l ++ [set_ftId f textId]) as Hcell.
  { intros sp0 Hsp0. simpl. rewrite Hsp0, Hfields. apply insert_snoc. }
  destruct (_ && _).
  - destruct isNew.
    + intros [= <- <-]. exists (set_ftId f textId). rewrite Hcell by done.
      split_and!; try done. simpl. unfold flags_grow. apply land_lor_same_l.
    + destruct (_ =? 0); [done|].
      intros [= <- <-]. exists (set_ftId f textId). rewrite Hcell by done.
      split_and!; try done. apply flags_grow_refl.
  - intros [= <- <-]. exists (set_ftId f textId). rewrite Hcell by done.
    split_and!; try done. apply flags_grow_refl.
Qed.

(** The sortable block: only the sorting index of the cell changes. *)
Lemma add_field_sortable_added sp (l : list FieldSpec) (f : FieldSpec) status sp' status' :
  fields sp = l ++ [f] →
  add_field_sortable sp (length l) status = (true, sp', status') →
  ∃ idx,
    fields sp' = l ++ [set_sortIdx f idx] ∧ numFields sp' = numFields sp
    ∧ name sp' = name sp ∧ flags sp' = flags sp.
Proof.
  intros Hfields. unfold add_field_sortable.
  assert (field_at sp (length l) = f) as ->.
  { unfold field_at. by rewrite Hfields, lookup_snoc. }
  destruct (FieldSpec_IsSortable f).
  - destruct (has_flag _ _); [done|].
    destruct (RSSortingTable_Add _ _ _) as [tbl idx].
    intros [= <- <-]. exists idx. simpl. by rewrite Hfields, insert_snoc.
  - intros [= <- <-]. exists (-1). simpl. by rewrite Hfields, insert_snoc.
Qed.

(** One successful turn of the loop appends one field to the schema.  The
    field has the name given, the next position, a name that could not be
    looked up before and, if it has a text id, a fresh one. *)
Lemma add_field_added isNew sp (ac : ArgsCursor) status fs sp' ac' status' :
  (numFields sp ≤ length (fields sp))%nat →
  add_field isNew sp ac status = Some (true, fs, sp', ac', status') →
  ∃ f,
    fields sp' = schema sp ++ [f] ∧ numFields sp' = S (numFields sp)
    ∧ FS.name f = default "" (head ac)
    ∧ FS.index f = numFields sp
    ∧ IndexSpec_GetField sp (FS.name f) (String.length (FS.name f)) = None
    ∧ (has_text_id f = true →
       0 ≤ FS.ftId f < SPEC_MAX_FIELD_ID
       ∧ Forall (λ x, x < FS.ftId f) (used_text_ids (schema sp)))
    ∧ name sp' = name sp
    ∧ flags_grow (flags sp) (flags sp')
    ∧ (FieldSpec_IsPhonetics f = true → flags_grow Index_HasPhonetic (flags sp'))
    ∧ (length ac' ≤ pred (length ac))%nat.
Proof.
  intros Hwf. unfold add_field.
  destruct (AC_GetStringNC ac) as [fieldName ac0] eqn:Hget.
  assert (default "" fieldName = default "" (head ac)
          ∧ length ac0 = pred (length ac)) as [Hname Hlen0].
  { destruct ac; simpl in Hget; by injection Hget as <- <-. }
  destruct (IndexSpec_GetField sp _ _) eqn:Hfind; [done|].
  unfold IndexSpec_CreateField.
  rewrite insert_resize_snoc by done. fold (schema sp).
  assert (length (schema sp) = numFields sp) as Hlen.
  { unfold schema. rewrite length_take. lia. }
  match goal with
  | |- context [set_numFields (set_fields sp (schema sp ++ [?fs0])) _] =>
      set (f0 := fs0); set (sp1 := set_numFields (set_fields sp (schema sp ++ [f0])) _)
  end.
  assert (field_at sp1 (numFields sp) = f0) as ->.
  { unfold field_at. simpl. by rewrite <- Hlen, lookup_snoc. }
  destruct (parseFieldSpec ac0 f0 status) as [[[[rc f1] ac1] st1]|] eqn:Hparse; [|done].
  destruct (parseFieldSpec_total ac0 f0 status) as (? & ? & ? & ? & Hparse' & Hlen1).
  rewrite Hparse in Hparse'. injection Hparse' as <- <- <- <-.
  destruct (Z.eqb_spec rc 0) as [|Hrc]; [done|].
  destruct (parseFieldSpec_same _ _ _ _ _ _ _ Hparse Hrc) as (Hn1 & Hi1 & Hid1).
  set (sp2 := set_field sp1 (numFields sp) f1).
  assert (fields sp2 = schema sp ++ [f1]) as Hf2.
  { simpl. rewrite <- Hlen. apply insert_snoc. }
  assert (numFields sp2 = S (length (schema sp))) as Hnum2 by (by rewrite Hlen).
  destruct (add_field_text_id isNew sp2 (numFields sp) st1) as [[ok3 sp3] st3] eqn:Htext.
  destruct ok3; [|done]. rewrite <- Hlen in Htext.
  destruct (add_field_text_id_added _ _ _ _ _ _ _ Hf2 Hnum2 Hid1 Htext)
    as (f3 & Hf3 & Hnum3 & Hn3 & Hi3 & Ht3 & Ho3 & Hfresh & Hname3 & _ & Hflags3).
  simpl negb. cbv iota.
  destruct (add_field_sortable sp3 (numFields sp) st3) as [[ok4 sp4] st4] eqn:Hsort.
  destruct ok4; [|done]. rewrite <- Hlen in Hsort.
  destruct (add_field_sortable_added _ _ _ _ _ _ Hf3 Hsort)
    as (idx & Hf4 & Hnum4 & Hname4 & Hflags4).
  simpl negb. cbv iota.
  assert (field_at sp4 (numFields sp) = set_sortIdx f3 idx) as ->.
  { unfold field_at. by rewrite Hf4, <- Hlen, lookup_snoc. }
  intros [= _ <- <- <-].
  exists (set_sortIdx f3 idx).
  assert (flags_grow (flags sp) (flags sp4)) as Hgrow by (by rewrite Hflags4).
  split_and!.
  - by destruct (FieldSpec_IsPhonetics _).
  - destruct (FieldSpec_IsPhonetics _); simpl; lia.
  - simpl. by rewrite Hn3, Hn1.
  - simpl. by rewrite Hi3, Hi1.
  - simpl. rewrite Hn3, Hn1. simpl. exact Hfind.
  - exact Hfresh.
  - destruct (FieldSpec_IsPhonetics _); simpl; by rewrite Hname4, Hname3.
  - destruct (FieldSpec_IsPhonetics _); simpl; [|done].
    eapply flags_grow_trans; [exact Hgrow|]. unfold flags_grow. apply land_lor_same_l.
  - intros Hph. rewrite Hph. simpl. unfold flags_grow. apply land_lor_same_r.
  - lia.
Qed.

(** The index flags only gain bits in a turn of the loop, whether the field
    is added or not. *)
Lemma add_field_text_id_flags isNew sp fs status :
  flags_grow (flags sp) (flags (add_field_text_id isNew sp fs status).1.2).
Proof.
  unfold add_field_text_id.
  repeat case_match; simpl; try apply flags_grow_refl.
  unfold flags_grow. apply land_lor_same_l.
Qed.

Lemma add_field_sortable_flags sp fs status :
  flags (add_field_sortable sp fs status).1.2 = flags sp.
Proof. unfold add_field_sortable. by repeat case_match. Qed.

Lemma add_field_flags isNew sp (ac : ArgsCursor) status ok fs sp' ac' status' :
  add_field isNew sp ac status = Some (ok, fs, sp', ac', status') →
  flags_grow (flags sp) (flags sp').
Proof.
  unfold add_field.
  destruct (AC_GetStringNC ac) as [fieldName ac0].
  destruct (IndexSpec_GetField sp _ _).
  { intros [= _ _ <- _ _]. apply flags_grow_refl. }
  destruct (IndexSpec_CreateField sp (default "" fieldName)) as [i sp1] eqn:Hcreate.
  assert (flags sp1 = flags sp) as Hf1.
  { unfold IndexSpec_CreateField in Hcreate. by injection Hcreate as <- <-. }
  destruct (parseFieldSpec _ _ _) as [[[[rc f1] ac1] st1]|]; [|done].
  set (sp2 := set_field sp1 i f1).
  assert (flags sp2 = flags sp) as Hf2 by done. clearbody sp2.
  destruct (rc =? 0).
  { intros [= _ _ <- _ _]. rewrite Hf2. apply flags_grow_refl. }
  pose proof (add_field_text_id_flags isNew sp2 i st1) as Hf3.
  destruct (add_field_text_id isNew sp2 i st1) as [[ok3 sp3] st3]. simpl in Hf3.
  rewrite Hf2 in Hf3.
  destruct ok3; simpl; [|by intros [= _ _ <- _ _]].
  pose proof (add_field_sortable_flags sp3 i st3) as Hf4.
  destruct (add_field_sortable sp3 i st3) as [[ok4 sp4] st4]. simpl in Hf4.
  destruct ok4; simpl; [|intros [= _ _ <- _ _]; by rewrite Hf4].
  intros [= _ _ <- _ _].
  destruct (FieldSpec_IsPhonetics _); simpl; rewrite Hf4; [|done].
  eapply flags_grow_trans; [exact Hf3|]. unfold flags_grow. apply land_lor_same_l.
Qed.

Lemma schema_length sp :
  (numFields sp ≤ length (fields sp))%nat → length (schema sp) = numFields sp.
Proof. intros Hwf. unfold schema. rewrite length_take. lia. Qed.

Lemma schema_full sp (l : list FieldSpec) :
  fields sp = l → numFields sp = length l → schema sp = l.
Proof. intros Hf Hn. unfold schema. rewrite Hf, Hn. by apply take_ge. Qed.

(** What the loop of [IndexSpec_AddFieldsInternal] keeps.  [P] is a property
    of the schema and the flags that survives new flag bits and that every
    successful turn re-establishes. *)
Section loop_invariant.
Variable P : list FieldSpec → Z → Prop.
Hypothesis P_flags : ∀ l a b, flags_grow a b → P l a → P l b.
Hypothesis P_step :
  ∀ l fl sp (f : FieldSpec) fl',
    schema sp = l → (numFields sp ≤ length (fields sp))%nat →
    P l fl → flags_grow fl fl' →
    FS.index f = length l →
    IndexSpec_GetField sp (FS.name f) (String.length (FS.name f)) = None →
    (has_text_id f = true →
     0 ≤ FS.ftId f < SPEC_MAX_FIELD_ID ∧ Forall (λ x, x < FS.ftId f) (used_text_ids l)) →
    (FieldSpec_IsPhonetics f = true → flags_grow Index_HasPhonetic fl') →
    P (l ++ [f]) fl'.

Lemma AddFields_loop_invariant (fuel : nat) isNew sp (ac : ArgsCursor) status
    ok fs sp' ac' status' :
  (numFields sp ≤ length (fields sp))%nat →
  P (schema sp) (flags sp) →
  AddFields_loop fuel isNew sp ac status = Some (ok, fs, sp', ac', status') →
  flags_grow (flags sp) (flags sp')
  ∧ (ok = true →
     P (schema sp') (flags sp') ∧ (numFields sp' ≤ length (fields sp'))%nat).
Proof.
  revert sp ac status. induction fuel as [|fuel IH]; intros sp ac status Hwf HP; simpl.
  - destruct (AC_IsAtEnd ac); [|done]. intros [= <- _ <- _ _].
    split; [apply flags_grow_refl | done].
  - destruct (AC_IsAtEnd ac).
    { intros [= <- _ <- _ _]. split; [apply flags_grow_refl | done]. }
    destruct (add_field isNew sp ac status) as [[[[[ok1 fs1] sp1] ac1] st1]|] eqn:Hadd;
      [|done].
    pose proof (add_field_flags _ _ _ _ _ _ _ _ _ Hadd) as Hgrow.
    destruct ok1.
    + destruct (add_field_added _ _ _ _ _ _ _ _ Hwf Hadd)
        as (f & Hf & Hn & _ & Hidx & Hfind & Hfresh & _ & _ & Hph & _).
      pose proof (schema_length sp Hwf) as Hlen.
      assert (schema sp1 = schema sp ++ [f]) as Hschema.
      { apply schema_full; [done|]. rewrite length_app, Hlen, Hn. simpl. lia. }
      intros Hloop. apply IH in Hloop as [Hgrow' Hok].
      * split; [by eapply flags_grow_trans | done].
      * rewrite Hf, length_app, Hlen, Hn. simpl. lia.
      * rewrite Hschema.
        apply (P_step (schema sp) (flags sp) sp f (flags sp1)); try done.
        by rewrite Hlen.
    + intros [= <- _ <- _ _]. split; [done | done].
Qed.

Lemma IndexSpec_AddFieldsInternal_invariant sp (ac : ArgsCursor) status isNew :
  (numFields sp ≤ length (fields sp))%nat →
  P (schema sp) (flags sp) →
  ∃ rc sp' ac' status',
    IndexSpec_AddFieldsInternal sp ac status isNew = Some (rc, sp', ac', status')
    ∧ P (schema sp') (flags sp').
Proof.
  intros Hwf HP. unfold IndexSpec_AddFieldsInternal.
  set (sp0 := if spcache sp then set_spcache sp false else sp).
  assert (fields sp0 = fields sp ∧ numFields sp0 = numFields sp
          ∧ flags sp0 = flags sp) as (Hf0 & Hn0 & Hfl0).
  { subst sp0. by destruct (spcache sp). }
  assert (schema sp0 = schema sp) as Hs0 by (unfold schema; by rewrite Hf0, Hn0).
  rewrite Hn0.
  destruct (AddFields_loop_keeps (numFields sp) (fields sp) (length ac) isNew sp0 ac status)
    as (ok & fs & sp1 & ac1 & st1 & Hloop & Hk1 & Hn1 & Hfs).
  { unfold keeps. by rewrite Hf0. }
  { lia. }
  { done. }
  rewrite Hloop.
  apply AddFields_loop_invariant in Hloop as [Hgrow Hok];
    [| by rewrite Hf0, Hn0 | by rewrite Hs0, Hfl0].
  destruct ok.
  - eexists _, _, _, _. split; [done|]. by apply Hok.
  - eexists _, _, _, _. split; [done|].
    destruct (AddFields_reset_restores (numFields sp) (fields sp) sp1 fs
                (len (sortables sp0)) Hk1 Hfs) as (Hn & Ht & _).
    set (sp2 := AddFields_reset sp1 fs (numFields sp) (len (sortables sp0))) in *.
    assert (schema sp2 = schema sp) as -> by (unfold schema; by rewrite Hn, Ht).
    assert (flags sp2 = flags sp1) as ->.
    { subst sp2. unfold AddFields_reset. simpl.
      match goal with
      | |- flags (fold_left ?f _ _) = _ =>
          assert (∀ idxs s0, flags (fold_left f idxs s0) = flags s0) as Hfold
      end.
      { induction idxs as [|x idxs IHl]; intros s0; simpl; [done|]. by rewrite IHl. }
      rewrite Hfold. by destruct fs. }
    apply (P_flags _ (flags sp)); [by rewrite <- Hfl0 | done].
Qed.

End loop_invariant.

(** *** Invariants of the schema *)

Lemma length_strtolower (s : string) : String.length (strtolower s) = String.length s.
Proof. induction s as [|c s IH]; simpl; [done | by rewrite IH]. Qed.

Lemma substring_full (s : string) : substring 0 (String.length s) s = s.
Proof. induction s as [|c s IH]; simpl; [done | by rewrite IH]. Qed.

Lemma strcaseeq_length (a b : string) :
  strcaseeq a b = true → String.length a = String.length b.
Proof.
  unfold strcaseeq. intros Heq%String.eqb_eq.
  by rewrite <- (length_strtolower a), Heq, length_strtolower.
Qed.

Lemma strcaseeq_sym (a b : string) : strcaseeq a b = strcaseeq b a.
Proof. unfold strcaseeq. apply String.eqb_sym. Qed.

(** A name that [IndexSpec_GetField] does not find differs, even without
    regard to case, from the name of every field of the schema. *)
Lemma IndexSpec_GetField_None_distinct sp (nm : string) (g : FieldSpec) :
  IndexSpec_GetField sp nm (String.length nm) = None →
  g ∈ schema sp → strcaseeq (FS.name g) nm = false.
Proof.
  unfold IndexSpec_GetField, getFieldCommon. fold (schema sp). intros Hfind Hin.
  apply list_elem_of_In in Hin.
  pose proof (List.find_none _ _ Hfind g Hin) as Hg. simpl in Hg.
  destruct (strcaseeq (FS.name g) nm) eqn:Heq; [|done].
  apply strcaseeq_length in Heq as Hlen.
  rewrite <- Hlen, Nat.eqb_refl in Hg. simpl in Hg.
  rewrite substring_full, Hlen, substring_full, Heq in Hg. done.
Qed.

(** No two fields of the schema have the same name, case disregarded. *)
Definition names_distinct (l : list FieldSpec) : Prop :=
  ∀ i j f g, l !! i = Some f → l !! j = Some g →
             strcaseeq (FS.name f) (FS.name g) = true → i = j.

(** Every field records its own position in the schema. *)
Definition positions_ok (l : list FieldSpec) : Prop :=
  ∀ i f, l !! i = Some f → FS.index f = i.

(** The text ids in use are pairwise different and within the limit. *)
Definition text_ids_ok (l : list FieldSpec) : Prop :=
  NoDup (used_text_ids l)
  ∧ Forall (λ x, 0 ≤ x < SPEC_MAX_FIELD_ID) (used_text_ids l).

(** An index with a phonetic field has the bits of [Index_HasPhonetic] set. *)
Definition phonetic_flagged (l : list FieldSpec) (fl : Z) : Prop :=
  ∀ f, f ∈ l → FieldSpec_IsPhonetics f = true →
       Z.land fl Index_HasPhonetic = Index_HasPhonetic.

Lemma lookup_snoc_cases (l : list FieldSpec) (x : FieldSpec) i f :
  (l ++ [x]) !! i = Some f →
  (l !! i = Some f ∧ (i < length l)%nat) ∨ (i = length l ∧ f = x).
Proof.
  intros Hi. apply lookup_app_Some in Hi as [Hi | [Hge Hi]].
  - left. split; [done|]. by eapply lookup_lt_Some.
  - right. apply list_lookup_singleton_Some in Hi as [Hz <-]. split; [lia | done].
Qed.

(** X12.  Adding fields keeps the names of the schema distinct (case
    disregarded), whether the call succeeds or fails. *)
Theorem add_fields_names_distinct (sp : IndexSpec) (ac : ArgsCursor)
    (status : QueryError) (isNew : bool) :
  (numFields sp ≤ length (fields sp))%nat →
  names_distinct (schema sp) →
  ∃ rc sp' ac' status',
    IndexSpec_AddFieldsInternal sp ac status isNew = Some (rc, sp', ac', status')
    ∧ names_distinct (schema sp').
Proof.
  intros Hwf Hinv.
  apply (IndexSpec_AddFieldsInternal_invariant (λ l _, names_distinct l)); try done.
  clear. intros l fl sp f fl' <- Hwf Hinv _ _ Hfind _ _ i j a b Hi Hj Heq.
  apply lookup_snoc_cases in Hi as [[Hi Hlti] | [-> ->]];
    apply lookup_snoc_cases in Hj as [[Hj Hltj] | [-> ->]].
  - by eapply Hinv.
  - apply list_elem_of_lookup_2 in Hi.
    by rewrite (IndexSpec_GetField_None_distinct sp _ a Hfind Hi) in Heq.
  - apply list_elem_of_lookup_2 in Hj. rewrite strcaseeq_sym in Heq.
    by rewrite (IndexSpec_GetField_None_distinct sp _ b Hfind Hj) in Heq.
  - done.
Qed.

(** X13.  Adding fields keeps every field's recorded index equal to its
    position in the schema, whether the call succeeds or fails. *)
Theorem add_fields_positions (sp : IndexSpec) (ac : ArgsCursor)
    (status : QueryError) (isNew : bool) :
  (numFields sp ≤ length (fields sp))%nat →
  positions_ok (schema sp) →
  ∃ rc sp' ac' status',
    IndexSpec_AddFieldsInternal sp ac status isNew = Some (rc, sp', ac', status')
    ∧ positions_ok (schema sp').
Proof.
  intros Hwf Hinv.
  apply (IndexSpec_AddFieldsInternal_invariant (λ l _, positions_ok l)); try done.
  clear. intros l fl sp f fl' _ _ Hinv _ Hidx _ _ _ i a Hi.
  apply lookup_snoc_cases in Hi as [[Hi Hlti] | [-> ->]]; [by apply Hinv | done].
Qed.

Lemma used_text_ids_snoc (l : list FieldSpec) (f : FieldSpec) :
  used_text_ids (l ++ [f])
  = used_text_ids l ++ (if has_text_id f then [FS.ftId f] else []).
Proof.
  unfold used_text_ids. rewrite List.filter_app, map_app. simpl.
  by destruct (has_text_id f).
Qed.

(** X14.  Adding fields keeps the text ids in use pairwise different, at
    least 0 and below [SPEC_MAX_FIELD_ID], whether the call succeeds or
    fails. *)
Theorem add_fields_text_ids (sp : IndexSpec) (ac : ArgsCursor)
    (status : QueryError) (isNew : bool) :
  (numFields sp ≤ length (fields sp))%nat →
  text_ids_ok (schema sp) →
  ∃ rc sp' ac' status',
    IndexSpec_AddFieldsInternal sp ac status isNew = Some (rc, sp', ac', status')
    ∧ text_ids_ok (schema sp').
Proof.
  intros Hwf Hinv.
  apply (IndexSpec_AddFieldsInternal_invariant (λ l _, text_ids_ok l)); try done.
  clear. intros l fl sp f fl' _ _ [Hnd Hbound] _ _ _ Hfresh _.
  unfold text_ids_ok. rewrite used_text_ids_snoc.
  destruct (has_text_id f); [|by rewrite app_nil_r].
  destruct Hfresh as [Hrange Hlt]; [done|]. split.
  - apply NoDup_app. split_and!; [done | | apply NoDup_singleton].
    intros x Hx ->%list_elem_of_singleton.
    rewrite Forall_forall in Hlt. specialize (Hlt _ Hx). lia.
  - apply Forall_app. split; [done|]. by apply Forall_singleton.
Qed.

(** X15.  Adding fields keeps the index flagged as phonetic whenever its
    schema has a phonetic field, whether the call succeeds or fails. *)
Theorem add_fields_phonetic_flag (sp : IndexSpec) (ac : ArgsCursor)
    (status : QueryError) (isNew : bool) :
  (numFields sp ≤ length (fields sp))%nat →
  phonetic_flagged (schema sp) (flags sp) →
  ∃ rc sp' ac' status',
    IndexSpec_AddFieldsInternal sp ac status isNew = Some (rc, sp', ac', status')
    ∧ phonetic_flagged (schema sp') (flags sp').
Proof.
  intros Hwf Hinv.
  apply (IndexSpec_AddFieldsInternal_invariant phonetic_flagged); try done; clear.
  - intros l a b Hgrow Hinv f Hin Hph.
    apply (flags_grow_trans _ a); [|done]. by eapply Hinv.
  - intros l fl sp f fl' _ _ Hinv Hgrow _ _ _ Hflag g Hin Hph.
    apply elem_of_app in Hin as [Hin | ->%list_elem_of_singleton].
    + apply (flags_grow_trans _ fl); [|done]. by eapply Hinv.
    + by apply Hflag.
Qed.

(** *** A successful call *)

Lemma find_app_Some (p : FieldSpec → bool) (l k : list FieldSpec) (f : FieldSpec) :
  List.find p l = Some f → List.find p (l ++ k) = Some f.
Proof.
  induction l as [|x l IH]; simpl; [done|]. destruct (p x); [done | exact IH].
Qed.

Lemma AddFields_loop_added (fuel : nat) isNew sp (ac : ArgsCursor) status
    fs sp' ac' status' :
  (numFields sp ≤ length (fields sp))%nat →
  AddFields_loop fuel isNew sp ac status = Some (true, fs, sp', ac', status') →
  ac' = [] ∧ name sp' = name sp
  ∧ ∃ added,
      schema sp' = schema sp ++ added
      ∧ numFields sp' = (numFields sp + length added)%nat
      ∧ (length added ≤ length ac)%nat
      ∧ FS.name <$> head added = head ac.
Proof.
  revert sp ac status. induction fuel as [|fuel IH]; intros sp ac status Hwf; simpl.
  - destruct ac; simpl; [|done]. intros [= _ <- <- _].
    split_and!; [done | done|]. exists []. by rewrite app_nil_r, Nat.add_0_r.
  - destruct (AC_IsAtEnd ac) eqn:Hend.
    { destruct ac; [|done]. intros [= _ <- <- _].
      split_and!; [done | done|]. exists []. by rewrite app_nil_r, Nat.add_0_r. }
    destruct (add_field isNew sp ac status) as [[[[[ok1 fs1] sp1] ac1] st1]|] eqn:Hadd;
      [|done].
    destruct ok1; [|done].
    destruct (add_field_added _ _ _ _ _ _ _ _ Hwf Hadd)
      as (f & Hf & Hn & Hname & _ & _ & _ & Hnm & _ & _ & Hlen1).
    pose proof (schema_length sp Hwf) as Hlen.
    assert (schema sp1 = schema sp ++ [f]) as Hschema.
    { apply schema_full; [done|]. rewrite length_app, Hlen, Hn. simpl. lia. }
    intros Hloop. apply IH in Hloop as (-> & Hnm' & added & Hs & Hn' & Hle & _).
    2:{ rewrite Hf, length_app, Hlen, Hn. simpl. lia. }
    split_and!; [done | congruence|].
    exists (f :: added). rewrite Hs, Hschema, <- app_assoc. simpl.
    destruct ac as [|a ac]; [done|]. simpl in *.
    split_and!; [done | lia | lia | by rewrite Hname].
Qed.

(** X16.  When [IndexSpec_AddFieldsInternal] succeeds it has consumed every
    argument; the schema is the old one followed by the added fields, the
    first of which has the name given first; and every field that could be
    looked up before is still found by the same lookup. *)
Theorem add_fields_success (sp : IndexSpec) (ac : ArgsCursor) (status : QueryError)
    (isNew : bool) rc sp' ac' status' :
  (numFields sp ≤ length (fields sp))%nat →
  IndexSpec_AddFieldsInternal sp ac status isNew = Some (rc, sp', ac', status') →
  rc ≠ 0 →
  ac' = [] ∧ name sp' = name sp
  ∧ (∃ added,
       schema sp' = schema sp ++ added
       ∧ numFields sp' = (numFields sp + length added)%nat
       ∧ (length added ≤ length ac)%nat
       ∧ FS.name <$> head added = head ac)
  ∧ ∀ nm n f, IndexSpec_GetField sp nm n = Some f → IndexSpec_GetField sp' nm n = Some f.
Proof.
  intros Hwf. unfold IndexSpec_AddFieldsInternal.
  set (sp0 := if spcache sp then set_spcache sp false else sp).
  assert (fields sp0 = fields sp ∧ numFields sp0 = numFields sp
          ∧ name sp0 = name sp) as (Hf0 & Hn0 & Hnm0).
  { subst sp0. by destruct (spcache sp). }
  assert (schema sp0 = schema sp) as Hs0 by (unfold schema; by rewrite Hf0, Hn0).
  destruct (AddFields_loop _ _ _ _ _) as [[[[[ok fs] sp1] ac1] st1]|] eqn:Hloop; [|done].
  destruct ok; [|by intros [= <- _ _ _]].
  intros [= _ <- <- _] _.
  apply AddFields_loop_added in Hloop as (-> & Hnm & added & Hs & Hn & Hle & Hhead);
    [|by rewrite Hf0, Hn0].
  rewrite Hs0 in Hs. rewrite Hn0 in Hn.
  split_and!; [done | congruence | by exists added |].
  intros nm n f. unfold IndexSpec_GetField, getFieldCommon.
  fold (schema sp) (schema sp1). rewrite Hs. apply find_app_Some.
Qed.

(** *** Atomicity: a rejected field fails the whole call *)

(** The cell that [IndexSpec_CreateField] fills in for a field named [nm]. *)
Definition new_field (sp : IndexSpec) (nm : string) : FieldSpec :=
  field_at (IndexSpec_CreateField sp nm).2 (numFields sp).

(** The field definition that starts the arguments is rejected by the index
    [sp]: its name is in the schema already; or its definition does not
    parse (no type, an unknown type, a bad option); or it is an indexable
    full-text field and no text id is left, or the id would need the wide
    schema that an existing index does not have; or it is sortable and
    dynamic. *)
Inductive field_rejected (isNew : bool) (sp : IndexSpec) (status : QueryError)
  : ArgsCursor → Prop :=
| rejected_duplicate nm rest f :
    IndexSpec_GetField sp nm (String.length nm) = Some f →
    field_rejected isNew sp status (nm :: rest)
| rejected_definition nm rest f ac' status' :
    IndexSpec_GetField sp nm (String.length nm) = None →
    parseFieldSpec rest (new_field sp nm) status = Some (0, f, ac', status') →
    field_rejected isNew sp status (nm :: rest)
| rejected_text_limit nm rest rc f ac' status' :
    IndexSpec_GetField sp nm (String.length nm) = None →
    parseFieldSpec rest (new_field sp nm) status = Some (rc, f, ac', status') →
    FIELD_IS f INDEXFLD_T_FULLTEXT && FieldSpec_IsIndexable f = true →
    IndexSpec_CreateTextId sp < 0 →
    field_rejected isNew sp status (nm :: rest)
| rejected_wide_schema nm rest rc f ac' status' :
    IndexSpec_GetField sp nm (String.length nm) = None →
    parseFieldSpec rest (new_field sp nm) status = Some (rc, f, ac', status') →
    FIELD_IS f INDEXFLD_T_FULLTEXT && FieldSpec_IsIndexable f = true →
    SPEC_WIDEFIELD_THRESHOLD ≤ IndexSpec_CreateTextId sp →
    has_flag (flags sp) Index_StoreFieldFlags = true →
    isNew = false →
    Z.land (flags sp) Index_WideSchema = 0 →
    field_rejected isNew sp status (nm :: rest)
| rejected_sortable_dynamic nm rest rc f ac' status' :
    IndexSpec_GetField sp nm (String.length nm) = None →
    parseFieldSpec rest (new_field sp nm) status = Some (rc, f, ac', status') →
    FieldSpec_IsSortable f = true →
    has_flag (FS.options f) FieldSpec_Dynamic = true →
    field_rejected isNew sp status (nm :: rest).

(** Some field of the argument list is rejected: the one that starts the
    list, or, that one having been added, one of those that follow. *)
Inductive some_field_rejected (isNew : bool)
  : IndexSpec → QueryError → ArgsCursor → Prop :=
| rejected_here sp status ac :
    field_rejected isNew sp status ac →
    some_field_rejected isNew sp status ac
| rejected_later sp status ac fs sp' ac' status' :
    ac ≠ [] →
    add_field isNew sp ac status = Some (true, fs, sp', ac', status') →
    some_field_rejected isNew sp' status' ac' →
    some_field_rejected isNew sp status ac.

Lemma new_field_eq (sp : IndexSpec) (nm : string) :
  new_field sp nm
  = {| FS.name := nm; FS.types := 0; FS.options := 0; FS.ftId := T_FIELDID_NONE;
       FS.ftWeight := DOUBLE_ONE; FS.sortIdx := -1;
       FS.tagFlags := TAG_FIELD_DEFAULT_SEP; FS.tagSep := 0;
       FS.index := numFields sp |}.
Proof.
  unfold new_field, field_at, IndexSpec_CreateField. simpl.
  rewrite list_lookup_insert_eq; [done|]. rewrite length_resize. lia.
Qed.

Lemma add_field_unfold isNew sp (nm : string) (rest : ArgsCursor) status :
  add_field isNew sp (nm :: rest) status
  = match IndexSpec_GetField sp nm (String.length nm) with
    | Some _ =>
        Some (false, None, sp, rest,
              QueryError_SetError status QUERY_EINVAL "Duplicate field in schema")
    | None =>
        match parseFieldSpec rest (new_field sp nm) status with
        | None => None
        | Some (rc, f, ac, status) =>
            let sp2 := set_field (IndexSpec_CreateField sp nm).2 (numFields sp) f in
            if rc =? 0 then Some (false, Some (numFields sp), sp2, ac, status)
            else
              let '(ok, sp3, status) :=
                add_field_text_id isNew sp2 (numFields sp) status in
              if negb ok then Some (false, Some (numFields sp), sp3, ac, status)
              else
                let '(ok, sp4, status) := add_field_sortable sp3 (numFields sp) status in
                if negb ok then Some (false, Some (numFields sp), sp4, ac, status)
                else
                  Some (true, None,
                        if FieldSpec_IsPhonetics (field_at sp4 (numFields sp))
                        then set_flags sp4 (Z.lor (flags sp4) Index_HasPhonetic)
                        else sp4,
                        ac, status)
        end
    end.
Proof. reflexivity. Qed.

(** The index with the parsed field in its new cell. *)
Lemma parsed_cell sp (nm : string) (f : FieldSpec) :
  (numFields sp ≤ length (fields sp))%nat →
  let sp2 := set_field (IndexSpec_CreateField sp nm).2 (numFields sp) f in
  fields sp2 = schema sp ++ [f] ∧ numFields sp2 = S (length (schema sp))
  ∧ flags sp2 = flags sp
  ∧ (FS.ftId f = T_FIELDID_NONE → IndexSpec_CreateTextId sp2 = IndexSpec_CreateTextId sp).
Proof.
  intros Hwf sp2. pose proof (schema_length sp Hwf) as Hlen.
  assert (fields sp2 = schema sp ++ [f]) as Hf.
  { subst sp2. unfold IndexSpec_CreateField. simpl.
    rewrite insert_resize_snoc by done. fold (schema sp).
    rewrite <- Hlen. apply insert_snoc. }
  split_and!; [done | by rewrite Hlen | done |].
  intros Hnone. unfold IndexSpec_CreateTextId.
  fold (max_text_id (take (numFields sp2) (fields sp2)) (-1)).
  fold (max_text_id (take (numFields sp) (fields sp)) (-1)). fold (schema sp).
  assert (numFields sp2 = length (schema sp ++ [f])) as ->
    by (rewrite length_app, Hlen; simpl; lia).
  rewrite Hf, take_ge, max_text_id_app_ignored; [done | | done].
  unfold has_text_id. rewrite Hnone, Z.eqb_refl. apply andb_false_r.
Qed.

Lemma add_field_text_id_fails isNew sp (l : list FieldSpec) (f : FieldSpec) status :
  fields sp = l ++ [f] →
  (add_field_text_id isNew sp (length l) status).1.1 = false
  ↔ FIELD_IS f INDEXFLD_T_FULLTEXT && FieldSpec_IsIndexable f = true
    ∧ (IndexSpec_CreateTextId sp < 0
       ∨ (SPEC_WIDEFIELD_THRESHOLD ≤ IndexSpec_CreateTextId sp
          ∧ has_flag (flags sp) Index_StoreFieldFlags = true
          ∧ isNew = false
          ∧ Z.land (flags sp) Index_WideSchema = 0)).
Proof.
  intros Hfields. unfold add_field_text_id.
  assert (field_at sp (length l) = f) as ->.
  { unfold field_at. by rewrite Hfields, lookup_snoc. }
  destruct (FIELD_IS f INDEXFLD_T_FULLTEXT && FieldSpec_IsIndexable f); simpl.
  2:{ split; [done | by intros [? _]]. }
  destruct (Z.ltb_spec (IndexSpec_CreateTextId sp) 0); simpl.
  { split; [intros _; split; [done | by left] | done]. }
  destruct (Z.leb_spec SPEC_WIDEFIELD_THRESHOLD (IndexSpec_CreateTextId sp)); simpl.
  2:{ split; [done | intros [_ [? | (? & _)]]; lia]. }
  destruct (has_flag (flags sp) Index_StoreFieldFlags); simpl.
  2:{ split; [done | intros [_ [? | (_ & ? & _)]]; [lia | done]]. }
  destruct isNew; simpl.
  { split; [done | intros [_ [? | (_ & _ & ? & _)]]; [lia | done]]. }
  destruct (Z.eqb_spec (Z.land (flags sp) Index_WideSchema) 0); simpl.
  - split; [intros _; split; [done | by right] | done].
  - split; [done | intros [_ [? | (_ & _ & _ & ?)]]; [lia | done]].
Qed.

Lemma add_field_sortable_fails sp (l : list FieldSpec) (f : FieldSpec) status :
  fields sp = l ++ [f] →
  (add_field_sortable sp (length l) status).1.1 = false
  ↔ FieldSpec_IsSortable f = true ∧ has_flag (FS.options f) FieldSpec_Dynamic = true.
Proof.
  intros Hfields. unfold add_field_sortable.
  assert (field_at sp (length l) = f) as ->.
  { unfold field_at. by rewrite Hfields, lookup_snoc. }
  destruct (FieldSpec_IsSortable f); [|split; [done | by intros [? _]]].
  destruct (has_flag (FS.options f) FieldSpec_Dynamic); simpl.
  - done.
  - destruct (RSSortingTable_Add _ _ _). simpl. split; [done | by intros [_ ?]].
Qed.

(** A turn of the loop fails exactly when the field it meets is rejected. *)
Lemma add_field_fails_iff isNew sp (nm : string) (rest : ArgsCursor) status :
  (numFields sp ≤ length (fields sp))%nat →
  ∃ ok fs sp' ac' status',
    add_field isNew sp (nm :: rest) status = Some (ok, fs, sp', ac', status')
    ∧ (ok = false ↔ field_rejected isNew sp status (nm :: rest)).
Proof.
  intros Hwf. rewrite add_field_unfold.
  destruct (IndexSpec_GetField sp nm (String.length nm)) as [dup|] eqn:Hfind.
  { eexists _, _, _, _, _. split; [done|].
    split; [intros _; by eapply rejected_duplicate | done]. }
  destruct (parseFieldSpec_total rest (new_field sp nm) status)
    as (rc & f & ac1 & st1 & Hparse & _).
  rewrite Hparse.
  assert (∀ P : Prop, field_rejected isNew sp status (nm :: rest) →
            (rc = 0 → P) →
            (FIELD_IS f INDEXFLD_T_FULLTEXT && FieldSpec_IsIndexable f = true →
             IndexSpec_CreateTextId sp < 0
             ∨ (SPEC_WIDEFIELD_THRESHOLD ≤ IndexSpec_CreateTextId sp
                ∧ has_flag (flags sp) Index_StoreFieldFlags = true
                ∧ isNew = false
                ∧ Z.land (flags sp) Index_WideSchema = 0) → P) →
            (FieldSpec_IsSortable f = true →
             has_flag (FS.options f) FieldSpec_Dynamic = true → P) → P) as Hcases.
  { intros P Hrej Hdef Htext Hsort.
    inversion Hrej as [? ? ? Hdup | ? ? ? ? ? _ Hp | ? ? ? ? ? ? _ Hp Hc Hlim
                       | ? ? ? ? ? ? _ Hp Hc Hth Hst Hnew Hw | ? ? ? ? ? ? _ Hp Hs Hd];
      subst.
    - rewrite Hfind in Hdup. done.
    - rewrite Hparse in Hp. injection Hp as Hrc0 _ _ _. by apply Hdef.
    - rewrite Hparse in Hp. injection Hp as <- <- <- <-. apply Htext; [done | by left].
    - rewrite Hparse in Hp. injection Hp as <- <- <- <-. apply Htext; [done | by right].
    - rewrite Hparse in Hp. injection Hp as <- <- <- <-. by apply Hsort. }
  destruct (parsed_cell sp nm f Hwf) as (Hf2 & Hn2 & Hfl2 & Hid2).
  set (sp2 := set_field (IndexSpec_CreateField sp nm).2 (numFields sp) f) in *.
  cbv zeta. fold sp2.
  pose proof (schema_length sp Hwf) as Hlen.
  destruct (Z.eqb_spec rc 0) as [-> | Hrc].
  { eexists _, _, _, _, _. split; [done|].
    split; [intros _; by eapply rejected_definition | done]. }
  destruct (parseFieldSpec_same _ _ _ _ _ _ _ Hparse Hrc) as (_ & _ & Hnone).
  rewrite new_field_eq in Hnone. simpl in Hnone. specialize (Hid2 Hnone).
  pose proof (add_field_text_id_fails isNew sp2 (schema sp) f st1 Hf2) as Htext.
  rewrite Hid2, Hfl2, Hlen in Htext.
  destruct (add_field_text_id isNew sp2 (numFields sp) st1) as [[ok3 sp3] st3] eqn:Hrun3.
  simpl in Htext. destruct ok3; simpl negb; cbv iota.
  2:{ eexists _, _, _, _, _. split; [done|]. split; [intros _ | done].
      destruct Htext as [Htext _]. destruct (Htext eq_refl) as [Hc [Hlim | Hwide]].
      - by eapply rejected_text_limit.
      - destruct Hwide as (? & ? & ? & ?). by eapply rejected_wide_schema. }
  rewrite <- Hlen in Hrun3.
  destruct (add_field_text_id_added _ _ _ _ _ _ _ Hf2 Hn2 Hnone Hrun3)
    as (f3 & Hf3 & _ & _ & _ & _ & Ho3 & _).
  pose proof (add_field_sortable_fails sp3 (schema sp) f3 st3 Hf3) as Hsort.
  rewrite Hlen in Hsort.
  assert (FieldSpec_IsSortable f3 = FieldSpec_IsSortable f) as Hs3
    by (unfold FieldSpec_IsSortable; by rewrite Ho3).
  rewrite Hs3, Ho3 in Hsort.
  destruct (add_field_sortable sp3 (numFields sp) st3) as [[ok4 sp4] st4].
  simpl in Hsort. destruct ok4; simpl negb; cbv iota.
  2:{ eexists _, _, _, _, _. split; [done|]. split; [intros _ | done].
      destruct Hsort as [Hsort _]. destruct (Hsort eq_refl) as [Hs Hd].
      by eapply rejected_sortable_dynamic. }
  eexists _, _, _, _, _. split; [done|]. split; [done|].
  intros Hrej. apply (Hcases _ Hrej).
  - done.
  - intros Hc Hlim. destruct Htext as [_ Htext]. by discriminate Htext.
  - intros Hs Hd. destruct Hsort as [_ Hsort]. by discriminate Hsort.
Qed.

(** The loop fails exactly when it meets a rejected field. *)
Lemma AddFields_loop_rejects (fuel : nat) isNew sp (ac : ArgsCursor) status :
  (numFields sp ≤ length (fields sp))%nat → (length ac ≤ fuel)%nat →
  ∃ ok fs sp' ac' status',
    AddFields_loop fuel isNew sp ac status = Some (ok, fs, sp', ac', status')
    ∧ (ok = false ↔ some_field_rejected isNew sp status ac).
Proof.
  revert sp ac status. induction fuel as [|fuel IH]; intros sp ac status Hwf Hfuel.
  - destruct ac; simpl in *; [|lia]. eexists _, _, _, _, _. split; [done|].
    split; [done|]. intros Hrej. inversion Hrej as [? ? ? Hr | ]; [inversion Hr | done].
  - destruct ac as [|nm rest].
    { eexists _, _, _, _, _. split; [done|].
      split; [done|]. intros Hrej. inversion Hrej as [? ? ? Hr | ]; [inversion Hr | done]. }
    cbn [AddFields_loop AC_IsAtEnd].
    destruct (add_field_fails_iff isNew sp nm rest status Hwf)
      as (ok & fs & sp1 & ac1 & st1 & Hadd & Hiff).
    rewrite Hadd. destruct ok.
    + destruct (add_field_added _ _ _ _ _ _ _ _ Hwf Hadd)
        as (f & Hf & Hn & _ & _ & _ & _ & _ & _ & _ & Hlen1).
      pose proof (schema_length sp Hwf) as Hlen.
      destruct (IH sp1 ac1 st1) as (ok & fs' & sp2 & ac2 & st2 & Hloop & Hiff').
      { rewrite Hf, length_app, Hlen, Hn. simpl. lia. }
      { simpl in *. lia. }
      rewrite Hloop. eexists _, _, _, _, _. split; [done|].
      rewrite Hiff'. split.
      * intros Hrej. by eapply rejected_later.
      * intros Hrej. inversion Hrej as [? ? ? Hr | ? ? ? ? ? ? ? _ Hadd' Hrest]; subst.
        -- apply Hiff in Hr. done.
        -- rewrite Hadd in Hadd'. by injection Hadd' as <- <- <- <-.
    + eexists _, _, _, _, _. split; [done|].
      split; [intros _ | done]. apply rejected_here. by apply Hiff.
Qed.

(** The spec cache that the call drops has no part in what is rejected. *)
Lemma add_field_text_id_spcache isNew sp c i status :
  add_field_text_id isNew (set_spcache sp c) i status
  = ((add_field_text_id isNew sp i status).1.1,
     set_spcache (add_field_text_id isNew sp i status).1.2 c,
     (add_field_text_id isNew sp i status).2).
Proof.
  unfold add_field_text_id.
  change (field_at (set_spcache sp c) i) with (field_at sp i).
  change (IndexSpec_CreateTextId (set_spcache sp c)) with (IndexSpec_CreateTextId sp).
  change (flags (set_spcache sp c)) with (flags sp).
  by repeat case_match.
Qed.

Lemma add_field_sortable_spcache sp c i status :
  add_field_sortable (set_spcache sp c) i status
  = ((add_field_sortable sp i status).1.1,
     set_spcache (add_field_sortable sp i status).1.2 c,
     (add_field_sortable sp i status).2).
Proof.
  unfold add_field_sortable.
  change (field_at (set_spcache sp c) i) with (field_at sp i).
  change (sortables (set_spcache sp c)) with (sortables sp).
  by repeat case_match.
Qed.

Lemma add_field_spcache isNew sp c (ac : ArgsCursor) status :
  add_field isNew (set_spcache sp c) ac status
  = match add_field isNew sp ac status with
    | Some (ok, fs, sp', ac', status') => Some (ok, fs, set_spcache sp' c, ac', status')
    | None => None
    end.
Proof.
  unfold add_field. destruct (AC_GetStringNC ac) as [fieldName ac0].
  change (IndexSpec_GetField (set_spcache sp c) (default "" fieldName)
            (String.length (default "" fieldName)))
    with (IndexSpec_GetField sp (default "" fieldName)
            (String.length (default "" fieldName))).
  destruct (IndexSpec_GetField sp _ _); [done|].
  change (IndexSpec_CreateField (set_spcache sp c) (default "" fieldName))
    with ((IndexSpec_CreateField sp (default "" fieldName)).1,
          set_spcache (IndexSpec_CreateField sp (default "" fieldName)).2 c).
  destruct (IndexSpec_CreateField sp (default "" fieldName)) as [i sp1]. cbn [fst snd].
  change (field_at (set_spcache sp1 c) i) with (field_at sp1 i).
  destruct (parseFieldSpec ac0 (field_at sp1 i) status) as [[[[rc f] ac1] st1]|]; [|done].
  change (set_field (set_spcache sp1 c) i f) with (set_spcache (set_field sp1 i f) c).
  destruct (rc =? 0); [done|].
  rewrite add_field_text_id_spcache.
  destruct (add_field_text_id isNew (set_field sp1 i f) i st1) as [[ok3 sp3] st3].
  cbn [fst snd]. destruct ok3; [|done]. simpl negb. cbv iota.
  rewrite add_field_sortable_spcache.
  destruct (add_field_sortable sp3 i st3) as [[ok4 sp4] st4].
  cbn [fst snd]. destruct ok4; [|done]. simpl negb. cbv iota.
  change (field_at (set_spcache sp4 c) i) with (field_at sp4 i).
  by destruct (FieldSpec_IsPhonetics _).
Qed.

Lemma field_rejected_spcache isNew sp c status (ac : ArgsCursor) :
  field_rejected isNew (set_spcache sp c) status ac ↔ field_rejected isNew sp status ac.
Proof.
  split; intros Hrej;
    inversion Hrej as [? ? ? Hdup | ? ? ? ? ? Hfree Hp | ? ? ? ? ? ? Hfree Hp Hc Hlim
                       | ? ? ? ? ? ? Hfree Hp Hc Hth Hst Hnew Hw
                       | ? ? ? ? ? ? Hfree Hp Hs Hd]; subst.
  all: first
    [ eapply rejected_duplicate; exact Hdup
    | eapply rejected_definition; [exact Hfree | exact Hp]
    | eapply rejected_text_limit; [exact Hfree | exact Hp | exact Hc | exact Hlim]
    | eapply rejected_wide_schema;
        [exact Hfree | exact Hp | exact Hc | exact Hth | exact Hst | reflexivity | exact Hw]
    | eapply rejected_sortable_dynamic; [exact Hfree | exact Hp | exact Hs | exact Hd] ].
Qed.

Lemma some_field_rejected_spcache isNew sp c status (ac : ArgsCursor) :
  some_field_rejected isNew (set_spcache sp c) status ac
  ↔ some_field_rejected isNew sp status ac.
Proof.
  split.
  - intros Hrej. remember (set_spcache sp c) as s eqn:Hs. revert sp Hs.
    induction Hrej as [s status ac Hr | s status ac fs s' ac' status' Hne Hadd _ IH];
      intros sp ->.
    + apply rejected_here. by apply field_rejected_spcache in Hr.
    + rewrite add_field_spcache in Hadd.
      destruct (add_field isNew sp ac status) as [[[[[ok fs0] sp0] ac0] st0]|] eqn:Hrun;
        [|done].
      injection Hadd as -> -> <- -> ->.
      eapply rejected_later; [done | exact Hrun | by apply IH].
  - intros Hrej. revert c.
    induction Hrej as [s status ac Hr | s status ac fs s' ac' status' Hne Hadd _ IH];
      intros c.
    + apply rejected_here. by apply field_rejected_spcache.
    + eapply rejected_later; [done | | apply (IH c)].
      by rewrite add_field_spcache, Hadd.
Qed.

(** C10.  Adding fields to a well-formed index always returns 0 or 1.  It
    returns 0 exactly when some field of the argument list is rejected (a
    duplicate name, a definition that does not parse, no text id left, a
    sortable dynamic field), and then the field count, the cells of the field
    array that make up the schema and the length of the sorting table are what
    they were before the call; no field of the failed call can be looked up. *)
Theorem add_fields_atomic (sp : IndexSpec) (ac : ArgsCursor) (status : QueryError)
    (isNew : bool) :
  (numFields sp ≤ length (fields sp))%nat →
  ∃ rc sp' ac' status',
    IndexSpec_AddFieldsInternal sp ac status isNew = Some (rc, sp', ac', status')
    ∧ (rc = 0 ∨ rc = 1)
    ∧ (rc = 0 ↔ some_field_rejected isNew sp status ac)
    ∧ (rc = 0 →
       numFields sp' = numFields sp
       ∧ take (numFields sp) (fields sp') = take (numFields sp) (fields sp)
       ∧ len (sortables sp') = len (sortables sp)
       ∧ ∀ nm n, IndexSpec_GetField sp' nm n = IndexSpec_GetField sp nm n).
Proof.
  intros Hwf. unfold IndexSpec_AddFieldsInternal.
  set (sp0 := if spcache sp then set_spcache sp false else sp).
  assert (fields sp0 = fields sp ∧ numFields sp0 = numFields sp
          ∧ sortables sp0 = sortables sp) as (Hf0 & Hn0 & Hs0).
  { subst sp0. by destruct (spcache sp). }
  assert (some_field_rejected isNew sp0 status ac
          ↔ some_field_rejected isNew sp status ac) as Hcache.
  { subst sp0. destruct (spcache sp); [apply some_field_rejected_spcache | done]. }
  rewrite Hn0, Hs0.
  destruct (AddFields_loop_keeps (numFields sp) (fields sp) (length ac) isNew sp0 ac status)
    as (ok & fs & sp1 & ac1 & st1 & Hloop & Hk1 & Hn1 & Hfs).
  { unfold keeps. by rewrite Hf0. }
  { lia. }
  { done. }
  destruct (AddFields_loop_rejects (length ac) isNew sp0 ac status)
    as (ok' & fs' & sp1' & ac1' & st1' & Hloop' & Hiff); [by rewrite Hf0, Hn0 | done |].
  rewrite Hloop in Hloop'. injection Hloop' as <- <- <- <- <-.
  rewrite Hloop. destruct ok.
  - eexists _, _, _, _. split_and!; [done | by right | | done].
    split; [done|]. intros Hrej. apply Hcache, Hiff in Hrej. done.
  - eexists _, _, _, _. split_and!; [done | by left | |].
    { split; [intros _ | done]. by apply Hcache, Hiff. }
    intros _.
    destruct (AddFields_reset_restores (numFields sp) (fields sp) sp1 fs
                (len (sortables sp)) Hk1 Hfs) as (Hn & Ht & Hl).
    split_and!; [done | done | done |].
    intros nm n. by apply getFieldCommon_same_prefix.
Qed.

(** What makes a definition fail to parse, whatever the field: no type, or a
    type that is none of the four. *)
Lemma parseFieldSpec_no_type (f : FieldSpec) status :
  ∃ f' ac' status', parseFieldSpec [] f status = Some (0, f', ac', status').
Proof. by eexists _, _, _. Qed.

Lemma parseFieldSpec_unknown_type (ty : string) (rest : ArgsCursor) (f : FieldSpec) status :
  strcaseeq SPEC_TEXT_STR ty = false → strcaseeq NUMERIC_STR ty = false →
  strcaseeq GEO_STR ty = false → strcaseeq SPEC_TAG_STR ty = false →
  ∃ f' ac' status', parseFieldSpec (ty :: rest) f status = Some (0, f', ac', status').
Proof.
  intros Ht Hn Hg Hta. unfold parseFieldSpec. simpl. rewrite Ht, Hn, Hg, Hta. simpl.
  unfold parseFieldSpec_error. by eexists _, _, _.
Qed.

(** *** The registry of indexes *)

Lemma dictDelete_absent (d : dict IndexSpec) (key : string) :
  dictFind d key = None → dictDelete d key = (DICT_ERR, d).
Proof.
  induction d as [|[k v] d IH]; simpl; [done|].
  destruct (String.eqb k key); [done|]. intros Hd. by rewrite IH.
Qed.

Lemma dictDelete_middle (kept rest : dict IndexSpec) (key : string) (v : IndexSpec) :
  key ∉ keys kept →
  dictDelete (kept ++ (key, v) :: rest) key = (DICT_OK, kept ++ rest).
Proof.
  induction kept as [|[k w] kept IH]; simpl; intros Hnot.
  - by rewrite String.eqb_refl.
  - apply not_elem_of_cons in Hnot as [Hne Hnot].
    destruct (String.eqb_spec k key) as [->|_]; [done|]. by rewrite IH.
Qed.

Lemma dictFind_snoc (d : dict IndexSpec) (key k : string) (v : IndexSpec) :
  dictFind (d ++ [(key, v)]) k
  = match dictFind d k with
    | Some e => Some e
    | None => if String.eqb key k then Some (key, v) else None
    end.
Proof.
  induction d as [|[k' w] d IH]; simpl; [done|].
  by destruct (String.eqb k' k).
Qed.

Lemma dictFetchValue_None (d : dict IndexSpec) (key : string) :
  dictFetchValue d key = None → dictFind d key = None.
Proof. unfold dictFetchValue. by destruct (dictFind d key). Qed.

(** The name of a spec is never changed by adding fields to it. *)
Lemma add_field_name isNew sp (ac : ArgsCursor) status ok fs sp' ac' status' :
  add_field isNew sp ac status = Some (ok, fs, sp', ac', status') →
  name sp' = name sp.
Proof.
  unfold add_field.
  destruct (AC_GetStringNC ac) as [fieldName ac0].
  destruct (IndexSpec_GetField sp _ _); [by intros [= _ _ <- _ _]|].
  destruct (IndexSpec_CreateField sp (default "" fieldName)) as [i sp1] eqn:Hcreate.
  assert (name sp1 = name sp) as Hf1.
  { unfold IndexSpec_CreateField in Hcreate. by injection Hcreate as <- <-. }
  destruct (parseFieldSpec _ _ _) as [[[[rc f1] ac1] st1]|]; [|done].
  set (sp2 := set_field sp1 i f1).
  assert (name sp2 = name sp) as Hf2 by done. clearbody sp2.
  destruct (rc =? 0); [by intros [= _ _ <- _ _]|].
  assert (name (add_field_text_id isNew sp2 i st1).1.2 = name sp2) as Hf3.
  { unfold add_field_text_id. by repeat case_match. }
  destruct (add_field_text_id isNew sp2 i st1) as [[ok3 sp3] st3]. simpl in Hf3.
  destruct ok3; simpl; [|intros [= _ _ <- _ _]; congruence].
  assert (name (add_field_sortable sp3 i st3).1.2 = name sp3) as Hf4.
  { unfold add_field_sortable. by repeat case_match. }
  destruct (add_field_sortable sp3 i st3) as [[ok4 sp4] st4]. simpl in Hf4.
  destruct ok4; simpl; [|intros [= _ _ <- _ _]; congruence].
  intros [= _ _ <- _ _].
  destruct (FieldSpec_IsPhonetics _); simpl; congruence.
Qed.

Lemma AddFields_loop_name (fuel : nat) isNew sp (ac : ArgsCursor) status
    ok fs sp' ac' status' :
  AddFields_loop fuel isNew sp ac status = Some (ok, fs, sp', ac', status') →
  name sp' = name sp.
Proof.
  revert sp ac status. induction fuel as [|fuel IH]; intros sp ac status; simpl.
  - destruct (AC_IsAtEnd ac); [|done]. by intros [= _ _ <- _ _].
  - destruct (AC_IsAtEnd ac); [by intros [= _ _ <- _ _]|].
    destruct (add_field isNew sp ac status) as [[[[[ok1 fs1] sp1] ac1] st1]|] eqn:Hadd;
      [|done].
    apply add_field_name in Hadd.
    destruct ok1; [|intros [= _ _ <- _ _]; done].
    intros Hloop%IH. congruence.
Qed.

Lemma IndexSpec_AddFieldsInternal_name sp (ac : ArgsCursor) status isNew
    rc sp' ac' status' :
  IndexSpec_AddFieldsInternal sp ac status isNew = Some (rc, sp', ac', status') →
  name sp' = name sp.
Proof.
  unfold IndexSpec_AddFieldsInternal.
  set (sp0 := if spcache sp then set_spcache sp false else sp).
  assert (name sp0 = name sp) as Hnm0 by (subst sp0; by destruct (spcache sp)).
  destruct (AddFields_loop _ _ _ _ _) as [[[[[ok fs] sp1] ac1] st1]|] eqn:Hloop; [|done].
  apply AddFields_loop_name in Hloop.
  destruct ok; intros [= _ <- _ _]; [congruence|].
  unfold AddFields_reset. simpl.
  match goal with
  | |- name (fold_left ?f _ _) = _ =>
      assert (∀ idxs s0, name (fold_left f idxs s0) = name s0) as Hfold
  end.
  { induction idxs as [|x idxs IHl]; intros s0; simpl; [done|]. by rewrite IHl. }
  rewrite Hfold. destruct fs; simpl; congruence.
Qed.

(** What [IndexSpec_Parse] returns: on success the globals are untouched and
    the spec has the name asked for; on failure the half-built spec, which
    has that name too, has been handed to [IndexSpec_Free]. *)
Lemma IndexSpec_Parse_result (g : Globals) (nm : string) (argv : list string)
    (status : QueryError) r status' g' :
  IndexSpec_Parse g nm argv status = Some (r, status', g') →
  match r with
  | Some sp => g' = g ∧ name sp = nm
  | None => ∃ sp, name sp = nm ∧ g' = IndexSpec_Free g sp
  end.
Proof.
  unfold IndexSpec_Parse.
  destruct (AC_ParseArgSpec argv _) as [[[rc errarg] o] ac].
  destruct (_ && _).
  { intros [= <- _ <-]. eexists. split; [|reflexivity]. done. }
  destruct (SchemaRule_Create _ _ _) as [[r0|] st1].
  2:{ intros [= <- _ <-]. eexists. split; [|reflexivity]. by destruct (negb _). }
  match goal with
  | |- context [AC_AdvanceIfMatch ac SPEC_SCHEMA_STR] =>
      destruct (AC_AdvanceIfMatch ac SPEC_SCHEMA_STR) as [m ac1]
  end.
  match goal with
  | |- context [IndexSpec_AddFieldsInternal ?s _ _ _] =>
      set (spec := s); assert (name spec = nm) as Hspec
  end.
  { subst spec. destruct (opt_stopwords o); simpl; by destruct (negb _). }
  destruct m; simpl.
  2:{ destruct (_ <? _)%nat; intros [= <- _ <-]; by exists spec. }
  destruct (IndexSpec_AddFieldsInternal spec ac1 st1 true)
    as [[[[rc1 sp1] ac2] st2]|] eqn:Hadd; [|done].
  apply IndexSpec_AddFieldsInternal_name in Hadd.
  destruct (rc1 =? 0); intros [= <- _ <-].
  - exists sp1. split; [congruence | done].
  - split; [done | congruence].
Qed.

(** What [IndexSpec_CreateNew] does to the registry: a spec that is returned
    has been appended under its name, which was free; otherwise the registry
    is as it was. *)
Lemma IndexSpec_CreateNew_specDict (g : Globals) (argv : list string)
    (status : QueryError) r status' g' :
  IndexSpec_CreateNew g argv status = Some (r, status', g') →
  match r with
  | Some sp =>
      dictFetchValue (specDict g) (name sp) = None
      ∧ specDict g' = specDict g ++ [(name sp, sp)]
  | None => specDict g' = specDict g
  end.
Proof.
  unfold IndexSpec_CreateNew, IndexSpec_ParseRedisArgs.
  destruct (argv !! 1%nat) as [specName|]; [|done].
  destruct (dictFetchValue (specDict g) specName) eqn:Hfetch.
  { by intros [= <- _ <-]. }
  destruct (IndexSpec_Parse g specName (drop 2 argv) status)
    as [[[[sp|] st1] g1]|] eqn:Hparse; [| | done].
  - apply IndexSpec_Parse_result in Hparse as [-> Hname].
    intros [= <- _ <-]. simpl. rewrite Hname. split; [done|].
    unfold dictAdd. by rewrite (dictFetchValue_None _ _ Hfetch).
  - apply IndexSpec_Parse_result in Hparse as (sp & Hname & ->).
    intros [= <- _ <-]. unfold IndexSpec_Free, IndexSpec_FreeInternals.
    destruct (has_flag (flags sp) Index_Temporary); simpl; [done|].
    by rewrite Hname, dictDelete_absent by (by apply dictFetchValue_None).
Qed.

(** X17.  A creation that fails leaves the registry and the id counter as
    they were; the clean pool is as it was or has gained the half-built
    temporary spec of that name. *)
Theorem create_failure_keeps_registry (g : Globals) (argv : list string)
    (status : QueryError) status' g' :
  IndexSpec_CreateNew g argv status = Some (None, status', g') →
  specDict g' = specDict g
  ∧ spec_unique_ids g' = spec_unique_ids g
  ∧ (cleanPool g' = cleanPool g
     ∨ ∃ sp, argv !! 1%nat = Some (name sp) ∧ cleanPool g' = cleanPool g ++ [sp]).
Proof.
  unfold IndexSpec_CreateNew, IndexSpec_ParseRedisArgs.
  destruct (argv !! 1%nat) as [specName|]; [|done].
  destruct (dictFetchValue (specDict g) specName) eqn:Hfetch.
  { intros [= _ <-]. split_and!; [done | done | by left]. }
  destruct (IndexSpec_Parse g specName (drop 2 argv) status)
    as [[[[sp|] st1] g1]|] eqn:Hparse; [done | | done].
  intros [= _ <-].
  apply IndexSpec_Parse_result in Hparse as (sp & Hname & ->).
  unfold IndexSpec_Free, IndexSpec_FreeInternals.
  destruct (has_flag (flags sp) Index_Temporary); simpl.
  - split_and!; [done | done |]. right. exists sp. by rewrite Hname.
  - rewrite Hname, dictDelete_absent by (by apply dictFetchValue_None).
    split_and!; [done | done | by left].
Qed.

(** Every index is registered once, under its own name. *)
Definition registry_ok (g : Globals) : Prop :=
  NoDup (keys (specDict g))
  ∧ ∀ k sp, (k, sp) ∈ specDict g → name sp = k.

(** X18.  A creation that succeeds appends the new spec to the registry under
    the name asked for, with the next unique id; the name was free before,
    the spec is found under it afterwards, and creating under it again is
    rejected with [QUERY_EINDEXEXISTS], the globals untouched. *)
Theorem create_registers (g : Globals) (argv : list string) (status : QueryError)
    sp status' g' :
  IndexSpec_CreateNew g argv status = Some (Some sp, status', g') →
  argv !! 1%nat = Some (name sp)
  ∧ uniqueId sp = spec_unique_ids g
  ∧ dictFetchValue (specDict g) (name sp) = None
  ∧ specDict g' = specDict g ++ [(name sp, sp)]
  ∧ dictFetchValue (specDict g') (name sp) = Some sp
  ∧ cleanPool g' = cleanPool g
  ∧ ∀ argv2 status2,
      argv2 !! 1%nat = Some (name sp) →
      IndexSpec_CreateNew g' argv2 status2
      = Some (None, QueryError_SetCode status2 QUERY_EINDEXEXISTS, g').
Proof.
  unfold IndexSpec_CreateNew at 1. unfold IndexSpec_ParseRedisArgs.
  destruct (argv !! 1%nat) as [specName|]; [|done].
  destruct (dictFetchValue (specDict g) specName) eqn:Hfetch; [done|].
  destruct (IndexSpec_Parse g specName (drop 2 argv) status)
    as [[[[sp0|] st1] g1]|] eqn:Hparse; [| done | done].
  apply IndexSpec_Parse_result in Hparse as [-> Hname].
  intros [= <- _ <-]. simpl. rewrite Hname.
  apply dictFetchValue_None in Hfetch as Hfind.
  assert (dictFetchValue
            (dictAdd (specDict g) specName (set_uniqueId sp0 (spec_unique_ids g))).2
            specName = Some (set_uniqueId sp0 (spec_unique_ids g))) as Hnew.
  { unfold dictAdd. rewrite Hfind. simpl. unfold dictFetchValue.
    by rewrite dictFind_snoc, Hfind, String.eqb_refl. }
  split_and!; try done.
  - unfold dictAdd. by rewrite Hfind.
  - intros argv2 status2 Hargv2. unfold IndexSpec_CreateNew.
    rewrite Hargv2. simpl. by rewrite Hnew.
Qed.

(** X19.  [IndexSpec_CreateNew] keeps the registry well formed: whatever it
    returns, every index is still registered once and under its own name. *)
Theorem create_keeps_registry_ok (g : Globals) (argv : list string)
    (status : QueryError) r status' g' :
  registry_ok g →
  IndexSpec_CreateNew g argv status = Some (r, status', g') →
  registry_ok g'.
Proof.
  intros [Hnd Hnames] Hcreate.
  apply IndexSpec_CreateNew_specDict in Hcreate. destruct r as [sp|].
  - destruct Hcreate as [Hfree Hdict]. unfold registry_ok. rewrite Hdict. split.
    + unfold keys. rewrite map_app. apply NoDup_app.
      split_and!; [done | | apply NoDup_singleton].
      intros x Hx ->%list_elem_of_singleton.
      apply dictFetchValue_None, dictFind_None in Hfree. done.
    + intros k sp0 [Hin | Hin%list_elem_of_singleton]%elem_of_app.
      * by apply Hnames.
      * by injection Hin as -> ->.
  - unfold registry_ok. by rewrite Hcreate.
Qed.

(** X20.  A parse that fails releases the half-built spec.  A temporary one
    is queued in the clean pool and the registry is left alone; any other is
    released at once, which deletes the registry entry of that name, also
    when the entry belongs to an index registered earlier. *)
Theorem parse_failure_releases (g : Globals) (nm : string) (argv : list string)
    (status : QueryError) status' g' :
  IndexSpec_Parse g nm argv status = Some (None, status', g') →
  spec_unique_ids g' = spec_unique_ids g
  ∧ ((specDict g' = (dictDelete (specDict g) nm).2 ∧ cleanPool g' = cleanPool g)
     ∨ (specDict g' = specDict g
        ∧ ∃ sp, name sp = nm ∧ has_flag (flags sp) Index_Temporary = true
                ∧ cleanPool g' = cleanPool g ++ [sp])).
Proof.
  intros (sp & Hname & ->)%IndexSpec_Parse_result.
  unfold IndexSpec_Free, IndexSpec_FreeInternals.
  destruct (has_flag (flags sp) Index_Temporary) eqn:Htemp; simpl.
  - split; [done|]. right. split; [done|]. by exists sp.
  - split; [done|]. left. by rewrite Hname.
Qed.

(** *** Server events: loading and flushing *)

(** The sub-events of redismodule.h, and the scan of the keyspace that
    re-indexes every key, which reads what is outside these globals. *)
Variable REDISMODULE_SUBEVENT_LOADING_RDB_START : Z.
Variable REDISMODULE_SUBEVENT_LOADING_AOF_START : Z.
Variable REDISMODULE_SUBEVENT_LOADING_REPL_START : Z.
Variable REDISMODULE_SUBEVENT_LOADING_ENDED : Z.
Variable REDISMODULE_SUBEVENT_FLUSHDB_START : Z.
Variable IndexSpec_ScanAndReindex : Globals → Globals.

(** [IndexSpec_LoadingEvent]: when a load starts the specs are collected in
    an array and each is released with [IndexSpec_FreeInternals]. *)
Definition IndexSpec_LoadingEvent (g : Globals) (subevent : Z) : Globals :=
  if (subevent =? REDISMODULE_SUBEVENT_LOADING_RDB_START)
     || (subevent =? REDISMODULE_SUBEVENT_LOADING_AOF_START)
     || (subevent =? REDISMODULE_SUBEVENT_LOADING_REPL_START)
  then
    let specs := map snd (specDict g) in
    fold_left IndexSpec_FreeInternals specs g
  else if subevent =? REDISMODULE_SUBEVENT_LOADING_ENDED then IndexSpec_ScanAndReindex g
  else g.

(** [IndexSpec_CleanAll]: the safe iterator hands out the entries the
    registry has when the iteration starts; each spec is given to
    [IndexSpec_Free]. *)
Definition IndexSpec_CleanAll (g : Globals) : Globals :=
  fold_left IndexSpec_Free (map snd (specDict g)) g.

Definition onFlush (g : Globals) (subevent : Z) : Globals :=
  if negb (subevent =? REDISMODULE_SUBEVENT_FLUSHDB_START) then g
  else IndexSpec_CleanAll g.

Definition is_temporary (e : string * IndexSpec) : bool :=
  has_flag (flags e.2) Index_Temporary.

Lemma free_internals_all (l kept : dict IndexSpec) (g : Globals) :
  specDict g = kept ++ l →
  NoDup (keys (kept ++ l)) →
  (∀ k sp, (k, sp) ∈ l → name sp = k) →
  let g' := fold_left IndexSpec_FreeInternals (map snd l) g in
  specDict g' = kept ∧ cleanPool g' = cleanPool g
  ∧ spec_unique_ids g' = spec_unique_ids g.
Proof.
  revert g. induction l as [|[k sp] l IH]; intros g Hdict Hnd Hnames; simpl.
  - by rewrite app_nil_r in Hdict.
  - assert (name sp = k) as Hk by (apply Hnames; left).
    assert ((k ∉ keys kept) ∧ NoDup (keys (kept ++ l))) as [Hfresh Hnd'].
    { unfold keys in *. rewrite map_app in Hnd. simpl in Hnd.
      apply NoDup_app in Hnd as (Hnd1 & Hdisj & Hnd2).
      apply NoDup_cons in Hnd2 as [Hk2 Hnd2]. split.
      - intros Hin. apply (Hdisj _ Hin). left.
      - rewrite map_app. apply NoDup_app. split_and!; [done | | done].
        intros x Hx Hx'. apply (Hdisj _ Hx). by right. }
    destruct (IH (IndexSpec_FreeInternals g sp)) as (Hd & Hp & Hi).
    + unfold IndexSpec_FreeInternals. simpl.
      by rewrite Hdict, Hk, dictDelete_middle.
    + done.
    + intros k' sp' Hin. apply Hnames. by right.
    + done.
Qed.

Lemma free_all (l kept : dict IndexSpec) (g : Globals) :
  specDict g = kept ++ l →
  NoDup (keys (kept ++ l)) →
  (∀ k sp, (k, sp) ∈ l → name sp = k) →
  let g' := fold_left IndexSpec_Free (map snd l) g in
  specDict g' = kept ++ List.filter is_temporary l
  ∧ cleanPool g' = cleanPool g ++ map snd (List.filter is_temporary l)
  ∧ spec_unique_ids g' = spec_unique_ids g.
Proof.
  revert kept g. induction l as [|[k sp] l IH]; intros kept g Hdict Hnd Hnames.
  - simpl. by rewrite !app_nil_r in *.
  - assert (name sp = k) as Hk by (apply Hnames; left).
    assert (∀ k' sp', (k', sp') ∈ l → name sp' = k') as Hnames'.
    { intros k' sp' Hin. apply Hnames. by right. }
    cbn [map fold_left snd List.filter].
    assert (is_temporary (k, sp) = has_flag (flags sp) Index_Temporary) as -> by done.
    destruct (has_flag (flags sp) Index_Temporary) eqn:Htemp.
    + destruct (IH (kept ++ [(k, sp)]) (IndexSpec_Free g sp)) as (Hd & Hp & Hi).
      * unfold IndexSpec_Free. rewrite Htemp. simpl. by rewrite Hdict, <- app_assoc.
      * by rewrite <- app_assoc.
      * done.
      * rewrite Hd, Hp, Hi. unfold IndexSpec_Free. rewrite Htemp.
        cbn [map snd cleanPool spec_unique_ids]. by rewrite <- !app_assoc.
    + assert ((k ∉ keys kept) ∧ NoDup (keys (kept ++ l))) as [Hfresh Hnd'].
      { unfold keys in *. rewrite map_app in Hnd. simpl in Hnd.
        apply NoDup_app in Hnd as (Hnd1 & Hdisj & Hnd2).
        apply NoDup_cons in Hnd2 as [Hk2 Hnd2]. split.
        - intros Hin. apply (Hdisj _ Hin). left.
        - rewrite map_app. apply NoDup_app. split_and!; [done | | done].
          intros x Hx Hx'. apply (Hdisj _ Hx). by right. }
      destruct (IH kept (IndexSpec_Free g sp)) as (Hd & Hp & Hi).
      * unfold IndexSpec_Free, IndexSpec_FreeInternals. rewrite Htemp. simpl.
        by rewrite Hdict, Hk, dictDelete_middle.
      * done.
      * done.
      * rewrite Hd, Hp, Hi. unfold IndexSpec_Free. by rewrite Htemp.
Qed.

(** X21.  When a load starts (from an RDB file, an AOF file or a master),
    every index, temporary or not, is removed from a well-formed registry;
    nothing is queued in the clean pool. *)
Theorem loading_start_empties_registry (g : Globals) (subevent : Z) :
  registry_ok g →
  subevent ∈ [REDISMODULE_SUBEVENT_LOADING_RDB_START;
              REDISMODULE_SUBEVENT_LOADING_AOF_START;
              REDISMODULE_SUBEVENT_LOADING_REPL_START] →
  specDict (IndexSpec_LoadingEvent g subevent) = []
  ∧ cleanPool (IndexSpec_LoadingEvent g subevent) = cleanPool g
  ∧ spec_unique_ids (IndexSpec_LoadingEvent g subevent) = spec_unique_ids g.
Proof.
  intros [Hnd Hnames] Hsub. unfold IndexSpec_LoadingEvent.
  assert (((subevent =? REDISMODULE_SUBEVENT_LOADING_RDB_START)
           || (subevent =? REDISMODULE_SUBEVENT_LOADING_AOF_START)
           || (subevent =? REDISMODULE_SUBEVENT_LOADING_REPL_START)) = true) as ->.
  { repeat apply elem_of_cons in Hsub as [-> | Hsub];
      rewrite ?Z.eqb_refl, ?orb_true_r; try done. by apply elem_of_nil in Hsub. }
  by apply (free_internals_all (specDict g) []).
Qed.

(** X22.  When a flush starts, the indexes that are not temporary are removed
    from a well-formed registry; the temporary ones stay registered and are
    queued, in order, in the clean pool.  Any other flush sub-event changes
    nothing. *)
Theorem flush_releases_indexes (g : Globals) (subevent : Z) :
  registry_ok g →
  (subevent = REDISMODULE_SUBEVENT_FLUSHDB_START →
   specDict (onFlush g subevent) = List.filter is_temporary (specDict g)
   ∧ cleanPool (onFlush g subevent)
     = cleanPool g ++ map snd (List.filter is_temporary (specDict g))
   ∧ spec_unique_ids (onFlush g subevent) = spec_unique_ids g)
  ∧ (subevent ≠ REDISMODULE_SUBEVENT_FLUSHDB_START → onFlush g subevent = g).
Proof.
  intros [Hnd Hnames]. unfold onFlush. split.
  - intros ->. rewrite Z.eqb_refl. simpl.
    by apply (free_all (specDict g) []).
  - intros Hne. by destruct (Z.eqb_spec subevent REDISMODULE_SUBEVENT_FLUSHDB_START).
Qed.

(** *** Saving and loading a field *)

(** What is written to and read from an RDB stream: unsigned and signed
    integers, doubles (as their bit pattern) and byte buffers. *)
Inductive RdbValue :=
| IoUnsigned (n : Z)
| IoSigned (n : Z)
| IoDouble (d : Z)
| IoBuffer (bytes : string).

Definition RedisModuleIO : Type := list RdbValue.

(** The result of reading: the value and the rest of the stream, a failed
    [RS_LOG_ASSERT], or a stream that does not hold the value asked for. *)
Inductive load_result (A : Type) :=
| Loaded (a : A) (rdb : RedisModuleIO)
| LoadAssertFailed (msg : string)
| LoadError.
Arguments Loaded {A} a rdb.
Arguments LoadAssertFailed {A} msg.
Arguments LoadError {A}.

Definition io (A : Type) : Type := RedisModuleIO → load_result A.

Definition io_ret {A} (a : A) : io A := λ rdb, Loaded a rdb.

Definition io_bind {A B} (m : io A) (k : A → io B) : io B :=
  λ rdb,
    match m rdb with
    | Loaded a rdb' => k a rdb'
    | LoadAssertFailed msg => LoadAssertFailed msg
    | LoadError => LoadError
    end.

Local Notation "'read' x 'from' m ; k" := (io_bind m (λ x, k))
  (at level 10, x name, m at level 100, k at level 200).

Definition RS_LOG_ASSERT (cond : bool) (msg : string) : io unit :=
  λ rdb, if cond then Loaded tt rdb else LoadAssertFailed msg.

Definition RedisModule_LoadUnsigned : io Z :=
  λ rdb, match rdb with IoUnsigned n :: rdb' => Loaded n rdb' | _ => LoadError end.

Definition RedisModule_LoadSigned : io Z :=
  λ rdb, match rdb with IoSigned n :: rdb' => Loaded n rdb' | _ => LoadError end.

Definition RedisModule_LoadDouble : io Z :=
  λ rdb, match rdb with IoDouble d :: rdb' => Loaded d rdb' | _ => LoadError end.

Definition RedisModule_LoadStringBuffer : io string :=
  λ rdb, match rdb with IoBuffer s :: rdb' => Loaded s rdb' | _ => LoadError end.

(** The C string held by a buffer: its bytes up to the first NUL.  This is
    what [strlen] measures and [rm_strdup] copies. *)
Fixpoint c_str (s : string) : string :=
  match s with
  | EmptyString => EmptyString
  | String c s' => if Ascii.eqb c Ascii.zero then EmptyString else String c (c_str s')
  end.

(** [name] with its terminator: [strlen(name) + 1] bytes. *)
Definition with_terminator (s : string) : string :=
  c_str s ++ String Ascii.zero EmptyString.

(** A [char] as a byte and back. *)
Definition byte_of_char (c : Z) : ascii := ascii_of_nat (Z.to_nat (c mod 256)).
Definition char_of_byte (b : ascii) : Z := Z.of_nat (nat_of_ascii b).

Definition set_name (fs : FieldSpec) (nm : string) : FieldSpec :=
  {| FS.name := nm; FS.types := FS.types fs; FS.options := FS.options fs;
     FS.ftId := FS.ftId fs; FS.ftWeight := FS.ftWeight fs; FS.sortIdx := FS.sortIdx fs;
     FS.tagFlags := FS.tagFlags fs; FS.tagSep := FS.tagSep fs; FS.index := FS.index fs |}.

Definition set_types (fs : FieldSpec) (t : Z) : FieldSpec :=
  {| FS.name := FS.name fs; FS.types := t; FS.options := FS.options fs;
     FS.ftId := FS.ftId fs; FS.ftWeight := FS.ftWeight fs; FS.sortIdx := FS.sortIdx fs;
     FS.tagFlags := FS.tagFlags fs; FS.tagSep := FS.tagSep fs; FS.index := FS.index fs |}.

Definition set_tagFlags (fs : FieldSpec) (t : Z) : FieldSpec :=
  {| FS.name := FS.name fs; FS.types := FS.types fs; FS.options := FS.options fs;
     FS.ftId := FS.ftId fs; FS.ftWeight := FS.ftWeight fs; FS.sortIdx := FS.sortIdx fs;
     FS.tagFlags := t; FS.tagSep := FS.tagSep fs; FS.index := FS.index fs |}.

(** The encoding versions and the legacy field types of spec.h, and the
    width in bits of [t_fieldMask]. *)
Variable INDEX_MIN_WIDESCHEMA_VERSION : Z.
Variable INDEX_MIN_TAGFIELD_VERSION : Z.
Variable INDEX_MIN_MULTITYPE_VERSION : Z.
Variable IDXFLD_LEGACY_FULLTEXT : Z.
Variable IDXFLD_LEGACY_NUMERIC : Z.
Variable IDXFLD_LEGACY_GEO : Z.
Variable IDXFLD_LEGACY_TAG : Z.
Variable IDXFLD_LEGACY_MAX : Z.
Variable FIELDMASK_BITS : nat.

(** [bit]: the offset of the lowest bit lit in a field mask; 0 when none of
    the bits of the mask is lit. *)
Definition bit (id : Z) : Z :=
  match
    List.find (λ i, Z.land (Z.shiftr id (Z.of_nat i)) 1 =? 1) (seq 0 FIELDMASK_BITS)
  with
  | Some i => Z.of_nat i
  | None => 0
  end.

Definition text_options_saved (f : FieldSpec) : bool :=
  FIELD_IS f INDEXFLD_T_FULLTEXT || has_flag (FS.options f) FieldSpec_Dynamic.

Definition tag_options_saved (f : FieldSpec) : bool :=
  FIELD_IS f INDEXFLD_T_TAG || has_flag (FS.options f) FieldSpec_Dynamic.

(** [FieldSpec_RdbSave]: the values written, in order. *)
Definition FieldSpec_RdbSave (f : FieldSpec) : RedisModuleIO :=
  [IoBuffer (with_terminator (FS.name f));
   IoUnsigned (FS.types f);
   IoUnsigned (FS.options f);
   IoSigned (FS.sortIdx f)]
  ++ (if text_options_saved f
      then [IoUnsigned (FS.ftId f); IoDouble (FS.ftWeight f)] else [])
  ++ (if tag_options_saved f
      then [IoUnsigned (FS.tagFlags f);
            IoBuffer (String (byte_of_char (FS.tagSep f)) EmptyString)]
      else []).

(** [fieldTypeMap]; a later designated initialiser wins and the gaps are 0. *)
Definition fieldTypeMap (t : Z) : Z :=
  if t =? IDXFLD_LEGACY_TAG then INDEXFLD_T_TAG
  else if t =? IDXFLD_LEGACY_GEO then INDEXFLD_T_GEO
  else if t =? IDXFLD_LEGACY_NUMERIC then INDEXFLD_T_NUMERIC
  else if t =? IDXFLD_LEGACY_FULLTEXT then INDEXFLD_T_FULLTEXT
  else 0.

Definition FieldSpec_RdbLoadCompat8 (f : FieldSpec) (encver : Z) : io FieldSpec :=
  read nm from RedisModule_LoadStringBuffer;
  let f := set_name f (c_str nm) in
  read id from RedisModule_LoadUnsigned;
  let f := if encver <? INDEX_MIN_WIDESCHEMA_VERSION then set_ftId f (bit id)
           else set_ftId f id in
  read t from RedisModule_LoadUnsigned;
  let f := set_types f t in
  read w from RedisModule_LoadDouble;
  let f := set_ftWeight f w in
  let f := set_tagFlags f TAG_FIELD_DEFAULT_FLAGS in
  let f := set_tagSep f TAG_FIELD_DEFAULT_SEP in
  if 4 <=? encver then
    read o from RedisModule_LoadUnsigned;
    let f := set_options f o in
    read s from RedisModule_LoadSigned;
    io_ret (set_sortIdx f s)
  else io_ret f.

Definition FieldSpec_RdbLoad (f : FieldSpec) (encver : Z) : io FieldSpec :=
  if encver <? INDEX_MIN_TAGFIELD_VERSION then FieldSpec_RdbLoadCompat8 f encver
  else
    read nm from RedisModule_LoadStringBuffer;
    let f := set_name f (c_str nm) in
    read t from RedisModule_LoadUnsigned;
    let f := set_types f t in
    read o from RedisModule_LoadUnsigned;
    let f := set_options f o in
    read s from RedisModule_LoadSigned;
    let f := set_sortIdx f s in
    read f from
      (if encver <? INDEX_MIN_MULTITYPE_VERSION then
         read _ from RS_LOG_ASSERT (FS.types f <=? IDXFLD_LEGACY_MAX)
                       "field type should be string or numeric";
         io_ret (set_types f (fieldTypeMap (FS.types f)))
       else io_ret f);
    read f from
      (if text_options_saved f then
         read id from RedisModule_LoadUnsigned;
         read w from RedisModule_LoadDouble;
         io_ret (set_ftWeight (set_ftId f id) w)
       else io_ret f);
    if tag_options_saved f then
      read fl from RedisModule_LoadUnsigned;
      let f := set_tagFlags f fl in
      read s from RedisModule_LoadStringBuffer;
      read _ from RS_LOG_ASSERT (Nat.eqb (String.length s) 1) "buffer length should be 1";
      io_ret (set_tagSep f (char_of_byte (default Ascii.zero (String.get 0 s))))
    else io_ret f.

Lemma c_str_with_terminator (s : string) : c_str (with_terminator s) = c_str s.
Proof.
  unfold with_terminator. induction s as [|c s IH]; simpl; [done|].
  destruct (Ascii.eqb c Ascii.zero) eqn:Hc; simpl; [done|]. by rewrite Hc, IH.
Qed.

Lemma char_of_byte_of_char (c : Z) : 0 ≤ c < 256 → char_of_byte (byte_of_char c) = c.
Proof.
  intros Hc. unfold char_of_byte, byte_of_char.
  rewrite Z.mod_small by done. rewrite nat_ascii_embedding by lia. lia.
Qed.

(** X23.  A field written by [FieldSpec_RdbSave] and read by
    [FieldSpec_RdbLoad] at a version without legacy encodings comes back with
    its name, types, options and sorting index; the text id and weight come
    back if the field is full-text or dynamic, and the tag flags and
    separator if it is a tag or dynamic field, and are otherwise left as the
    target had them.  What follows the field in the stream is not read. *)
Theorem FieldSpec_rdb_roundtrip (f f0 : FieldSpec) (encver : Z) (rest : RedisModuleIO) :
  INDEX_MIN_TAGFIELD_VERSION ≤ encver →
  INDEX_MIN_MULTITYPE_VERSION ≤ encver →
  c_str (FS.name f) = FS.name f →
  0 ≤ FS.tagSep f < 256 →
  FieldSpec_RdbLoad f0 encver (FieldSpec_RdbSave f ++ rest)
  = Loaded
      {| FS.name := FS.name f; FS.types := FS.types f; FS.options := FS.options f;
         FS.ftId := if text_options_saved f then FS.ftId f else FS.ftId f0;
         FS.ftWeight := if text_options_saved f then FS.ftWeight f else FS.ftWeight f0;
         FS.sortIdx := FS.sortIdx f;
         FS.tagFlags := if tag_options_saved f then FS.tagFlags f else FS.tagFlags f0;
         FS.tagSep := if tag_options_saved f then FS.tagSep f else FS.tagSep f0;
         FS.index := FS.index f0 |}
      rest.
Proof.
  intros Htag Hmulti Hname Hsep. unfold FieldSpec_RdbLoad, FieldSpec_RdbSave.
  destruct (Z.ltb_spec encver INDEX_MIN_TAGFIELD_VERSION); [lia|].
  destruct (Z.ltb_spec encver INDEX_MIN_MULTITYPE_VERSION); [lia|].
  unfold io_bind, io_ret. cbn [app RedisModule_LoadStringBuffer RedisModule_LoadUnsigned
                                 RedisModule_LoadSigned].
  rewrite c_str_with_terminator, Hname.
  assert (∀ g, text_options_saved
                 (set_sortIdx (set_options (set_types (set_name f0 (FS.name f)) (FS.types f))
                                 (FS.options f)) g) = text_options_saved f) as -> by done.
  destruct (text_options_saved f) eqn:Htext;
    cbn [app RedisModule_LoadUnsigned RedisModule_LoadDouble].
  - assert (∀ a b c, tag_options_saved
                   (set_ftWeight (set_ftId
                      (set_sortIdx (set_options (set_types (set_name f0 (FS.name f))
                                                   (FS.types f)) (FS.options f)) a) b) c)
                 = tag_options_saved f) as -> by done.
    destruct (tag_options_saved f) eqn:Htagged;
      cbn [app RedisModule_LoadUnsigned RedisModule_LoadStringBuffer RS_LOG_ASSERT
             String.length Nat.eqb String.get default].
    + unfold id. by rewrite char_of_byte_of_char.
    + done.
  - assert (∀ a, tag_options_saved
                   (set_sortIdx (set_options (set_types (set_name f0 (FS.name f))
                                                (FS.types f)) (FS.options f)) a)
                 = tag_options_saved f) as -> by done.
    destruct (tag_options_saved f) eqn:Htagged;
      cbn [app RedisModule_LoadUnsigned RedisModule_LoadStringBuffer RS_LOG_ASSERT
             String.length Nat.eqb String.get default].
    + unfold id. by rewrite char_of_byte_of_char.
    + done.
Qed.

Lemma shiftr_land_1 (x : Z) (i : nat) :
  (Z.land (Z.shiftr x (Z.of_nat i)) 1 =? 1) = Z.testbit x (Z.of_nat i).
Proof.
  rewrite Z.testbit_odd, <- Z.bit0_odd.
  change 1 with (Z.ones 1) at 1. rewrite Z.land_ones by lia.
  change (2 ^ 1) with 2. rewrite <- Z.bit0_mod.
  by destruct (Z.testbit _ 0).
Qed.

Lemma find_seq_first (p : nat → bool) (start n i : nat) :
  (start ≤ i < start + n)%nat → p i = true →
  (∀ j, (start ≤ j < i)%nat → p j = false) →
  List.find p (seq start n) = Some i.
Proof.
  revert start. induction n as [|n IH]; intros start Hi Hp Hbefore; simpl; [lia|].
  destruct (decide (start = i)) as [->|Hne]; [by rewrite Hp|].
  rewrite Hbefore by lia. apply IH; [lia | done |]. intros j Hj. apply Hbefore. lia.
Qed.

Lemma find_seq_none (p : nat → bool) (start n : nat) :
  (∀ j, p j = false) → List.find p (seq start n) = None.
Proof.
  intros Hp. revert start. induction n as [|n IH]; intros start; simpl; [done|].
  by rewrite Hp.
Qed.

(** X24.  [bit] returns the offset of the bit of a mask with one bit lit,
    as long as the offset is within the width of a field mask; for the mask
    0 it returns 0, the offset of the mask 1. *)
Theorem bit_of_single_bit (i : nat) :
  (i < FIELDMASK_BITS)%nat →
  bit (Z.shiftl 1 (Z.of_nat i)) = Z.of_nat i ∧ bit 0 = 0.
Proof.
  intros Hi. unfold bit. split.
  - rewrite (find_seq_first _ 0 FIELDMASK_BITS i); [done | lia | |].
    + rewrite shiftr_land_1, Z.shiftl_1_l, Z.pow2_bits_true; [done | lia].
    + intros j Hj. rewrite shiftr_land_1, Z.shiftl_1_l, Z.pow2_bits_false; [done | lia].
  - rewrite find_seq_none; [done|]. intros j. by rewrite Z.shiftr_0_l.
Qed.

(** X25.  A record of the oldest encoding, where the text id is saved as a
    mask with one bit lit, is read back with the offset of that bit as text
    id and with the default tag flags and separator; the position recorded
    in the target is left alone. *)
Theorem legacy_field_load (f0 : FieldSpec) (encver : Z) (nm : string) (i : nat)
    (t w o s : Z) (rest : RedisModuleIO) :
  4 ≤ encver →
  encver < INDEX_MIN_WIDESCHEMA_VERSION →
  encver < INDEX_MIN_TAGFIELD_VERSION →
  (i < FIELDMASK_BITS)%nat →
  FieldSpec_RdbLoad f0 encver
    ([IoBuffer nm; IoUnsigned (Z.shiftl 1 (Z.of_nat i)); IoUnsigned t; IoDouble w;
      IoUnsigned o; IoSigned s] ++ rest)
  = Loaded
      {| FS.name := c_str nm; FS.types := t; FS.options := o;
         FS.ftId := Z.of_nat i; FS.ftWeight := w; FS.sortIdx := s;
         FS.tagFlags := TAG_FIELD_DEFAULT_FLAGS; FS.tagSep := TAG_FIELD_DEFAULT_SEP;
         FS.index := FS.index f0 |}
      rest.
Proof.
  intros H4 Hwide Htag Hi. unfold FieldSpec_RdbLoad, FieldSpec_RdbLoadCompat8.
  destruct (Z.ltb_spec encver INDEX_MIN_TAGFIELD_VERSION); [|lia].
  destruct (Z.ltb_spec encver INDEX_MIN_WIDESCHEMA_VERSION); [|lia].
  destruct (Z.leb_spec 4 encver); [|lia].
  assert (bit (Z.shiftl 1 (Z.of_nat i)) = Z.of_nat i) as Hbit.
  { unfold bit. rewrite (find_seq_first _ 0 FIELDMASK_BITS i); [done | lia | |].
    - rewrite shiftr_land_1, Z.shiftl_1_l, Z.pow2_bits_true; [done | lia].
    - intros j Hj. rewrite shiftr_land_1, Z.shiftl_1_l, Z.pow2_bits_false; [done | lia]. }
  unfold io_bind, io_ret.
  cbn [app RedisModule_LoadStringBuffer RedisModule_LoadUnsigned RedisModule_LoadDouble
         RedisModule_LoadSigned].
  rewrite Hbit. reflexivity.
Qed.

(** *** Phonetic matching *)

(** [IndexSpec_CheckPhoneticEnabled]; [(t_fieldMask)-1] is the mask with all
    its bits lit, and bit [ii] of the mask stands for the field at position
    [ii]. *)
Definition IndexSpec_CheckPhoneticEnabled (sp : IndexSpec) (fm : Z) : Z :=
  if negb (has_flag (flags sp) Index_HasPhonetic) then 0
  else if (fm =? 0) || (fm =? Z.ones (Z.of_nat FIELDMASK_BITS)) then 1
  else if
    existsb
      (λ ii,
         negb (Z.land fm (Z.shiftl 1 (Z.of_nat ii)) =? 0)
         && (FIELD_IS (field_at sp ii) INDEXFLD_T_FULLTEXT
             && FieldSpec_IsPhonetics (field_at sp ii)))
      (seq 0 (numFields sp))
  then 1
  else 0.

(** X26.  An index without the phonetic flag never has phonetic matching
    enabled.  In an index that is flagged whenever it has a phonetic field
    (as [IndexSpec_AddFieldsInternal] keeps it), a mask that selects the
    position of a phonetic full-text field has it enabled. *)
Theorem phonetic_field_enables (sp : IndexSpec) (fm : Z) (i : nat) (f : FieldSpec) :
  Index_HasPhonetic ≠ 0 →
  phonetic_flagged (schema sp) (flags sp) →
  schema sp !! i = Some f →
  FIELD_IS f INDEXFLD_T_FULLTEXT = true →
  FieldSpec_IsPhonetics f = true →
  Z.testbit fm (Z.of_nat i) = true →
  IndexSpec_CheckPhoneticEnabled sp fm = 1
  ∧ ∀ sp0 fm0, has_flag (flags sp0) Index_HasPhonetic = false →
               IndexSpec_CheckPhoneticEnabled sp0 fm0 = 0.
Proof.
  intros Hbit Hinv Hi Htext Hph Hfm. split.
  2:{ intros sp0 fm0 Hno. unfold IndexSpec_CheckPhoneticEnabled. by rewrite Hno. }
  unfold IndexSpec_CheckPhoneticEnabled.
  assert (has_flag (flags sp) Index_HasPhonetic = true) as ->.
  { unfold has_flag, Rules.has_flag.
    rewrite (Hinv f) by (by eapply list_elem_of_lookup_2 || done).
    by destruct (Z.eqb_spec Index_HasPhonetic 0). }
  simpl. destruct (_ || _); [done|].
  apply lookup_take_Some in Hi as [Hi Hlt].
  assert (existsb
            (λ ii,
               negb (Z.land fm (Z.shiftl 1 (Z.of_nat ii)) =? 0)
               && (FIELD_IS (field_at sp ii) INDEXFLD_T_FULLTEXT
                   && FieldSpec_IsPhonetics (field_at sp ii)))
            (seq 0 (numFields sp)) = true) as ->; [|done].
  apply existsb_exists. exists i. split; [apply in_seq; lia|].
  unfold field_at. rewrite Hi. simpl. rewrite Htext, Hph, !andb_true_r.
  apply negb_true_iff, Z.eqb_neq. intros Hzero.
  assert (Z.testbit (Z.land fm (Z.shiftl 1 (Z.of_nat i))) (Z.of_nat i) = true) as Hset.
  { rewrite Z.land_spec, Hfm, Z.shiftl_1_l, Z.pow2_bits_true; [done | lia]. }
  rewrite Hzero, Z.bits_0 in Hset. done.
Qed.

End spec_c.

Arguments Loaded {A} a rdb.
Arguments LoadAssertFailed {A} msg.
Arguments LoadError {A}.

(** *** A concrete header *)

Definition demo_SetError (status : QueryError) (c : Z) (msg : string) : QueryError :=
  if Rules.QueryError_HasError status then status
  else {| Rules.code := c; Rules.detail := Some msg |}.

Definition demo_SetCode (status : QueryError) (c : Z) : QueryError :=
  if Rules.QueryError_HasError status then status
  else {| Rules.code := c; Rules.detail := Rules.detail status |}.

Lemma demo_SetCode_code (status : QueryError) (c : Z) :
  Rules.code status = Rules.QUERY_OK → Rules.code (demo_SetCode status c) = c.
Proof.
  intros Hok. unfold demo_SetCode, Rules.QueryError_HasError. rewrite Hok. done.
Qed.

Definition demo_Cleanup (fs : FieldSpec) : FieldSpec :=
  {| FS.name := ""; FS.types := FS.types fs; FS.options := FS.options fs;
     FS.ftId := FS.ftId fs; FS.ftWeight := FS.ftWeight fs; FS.sortIdx := FS.sortIdx fs;
     FS.tagFlags := FS.tagFlags fs; FS.tagSep := FS.tagSep fs; FS.index := FS.index fs |}.

Definition demo_SortingTable_Add (tbl : RSSortingTable) (nm : string) (t : Z)
  : RSSortingTable * Z :=
  ({| len := len tbl + 1;
      sort_fields := take (Z.to_nat (len tbl)) (sort_fields tbl) ++ [(nm, t)] |},
   len tbl).

Definition demo_parse_double (s : string) : option Z :=
  if String.eqb s "1.0" then Some 4607182418800017408
  else if String.eqb s "2.0" then Some 4611686018427387904
  else None.

#[local] Instance demo_header : Header := {|
  SPEC_TEXT_STR := "TEXT";
  NUMERIC_STR := "NUMERIC";
  GEO_STR := "GEO";
  SPEC_TAG_STR := "TAG";
  SPEC_SEPARATOR_STR := "SEPARATOR";
  SPEC_NOSTEM_STR := "NOSTEM";
  SPEC_WEIGHT_STR := "WEIGHT";
  SPEC_PHONETIC_STR := "PHONETIC";
  SPEC_SORTABLE_STR := "SORTABLE";
  SPEC_NOINDEX_STR := "NOINDEX";
  SPEC_SCHEMA_STR := "SCHEMA";
  INDEXFLD_T_FULLTEXT := 1;
  INDEXFLD_T_NUMERIC := 2;
  INDEXFLD_T_GEO := 4;
  INDEXFLD_T_TAG := 8;
  FieldSpec_Sortable := 1;
  FieldSpec_NoStemming := 2;
  FieldSpec_NotIndexable := 4;
  FieldSpec_Phonetics := 8;
  FieldSpec_Dynamic := 16;
  Index_StoreFieldFlags := 2;
  Index_WideSchema := 128;
  Index_HasPhonetic := 1024;
  Index_Temporary := 512;
  Index_HasCustomStopwords := 8;
  INDEX_DEFAULT_FLAGS := 83;
  SPEC_MAX_FIELDS := 1024;
  SPEC_MAX_FIELD_ID := 128;
  SPEC_WIDEFIELD_THRESHOLD := 32;
  T_FIELDID_NONE := 65535;
  TAG_FIELD_DEFAULT_FLAGS := 3;
  TAG_FIELD_DEFAULT_SEP := 44;
  QUERY_EPARSEARGS := 3;
  QUERY_EINVAL := 9;
  QUERY_ELIMIT := 25;
  QUERY_EBADOPTION := 24;
  QUERY_EINDEXEXISTS := 23;
  AC_OK := 0;
  AC_ERR_PARSE := 1;
  AC_ERR_NOARG := 2;
  AC_ERR_ENOENT := 4;
  parse_double := demo_parse_double;
  DOUBLE_ONE := 4607182418800017408;
  QueryError_SetError := demo_SetError;
  QueryError_SetCode := demo_SetCode;
  QueryError_SetCode_code := demo_SetCode_code;
  FieldSpec_Cleanup := demo_Cleanup;
  fieldTypeToValueType := λ t, t;
  NewSortingTable := {| len := 0; sort_fields := [] |};
  RSSortingTable_Add := demo_SortingTable_Add;
|}.

(** An option parser that recognises no option, and a rule constructor that
    always succeeds. *)
Definition demo_ParseArgSpec (ac : ArgsCursor) (fl : Z)
  : Z * string * CreateOptions * ArgsCursor :=
  (4, "",
   {| opt_flags := fl;
      opt_rule_args := {| type := None; filter_exp_str := None; score_field := None;
                          lang_field := None; payload_field := None; prefixes := [];
                          nprefixes := 0 |};
      opt_rule_prefixes := []; opt_timeout := -1; opt_stopwords := None |},
   ac).

Definition demo_SchemaRule_Create (a : SchemaRuleArgs) (sp : IndexSpec unit)
    (status : QueryError) : option unit * QueryError := (Some tt, status).

Definition demo_CreateNew :=
  IndexSpec_CreateNew unit demo_ParseArgSpec demo_SchemaRule_Create.

Definition demo_g0 : Globals unit :=
  {| specDict := []; spec_unique_ids := 1; cleanPool := [] |}.

Definition demo_create : list string :=
  ["FT.CREATE"; "idx"; "SCHEMA"; "title"; "TEXT"; "SORTABLE"].

(** The globals after the index ["idx"] has been created. *)
Definition demo_g1 : Globals unit :=
  match demo_CreateNew demo_g0 demo_create Rules.QueryError_init with
  | Some (_, _, g) => g
  | None => demo_g0
  end.

(** The index ["idx"], with its one sortable field. *)
Definition demo_idx : IndexSpec unit :=
  default (NewIndexSpec unit "") (dictFetchValue (specDict unit demo_g1) "idx").

Example demo_created :
  keys (specDict unit demo_g1) = ["idx"]
  ∧ numFields unit demo_idx = 1%nat
  ∧ len (sortables unit demo_idx) = 1
  ∧ uniqueId unit demo_idx = 1
  ∧ spec_unique_ids unit demo_g1 = 2.
Proof. vm_compute. done. Qed.

Example demo_create_twice :
  ∃ status, demo_CreateNew demo_g1 demo_create Rules.QueryError_init
            = Some (None, status, demo_g1)
            ∧ Rules.code status = 23.
Proof. eexists. vm_compute. done. Qed.

(** A call that adds [price] (sortable) and then meets a field with no valid
    type, and a call that repeats a field name without regard to case. *)
Definition demo_bad_fields : list string :=
  ["price"; "NUMERIC"; "SORTABLE"; "body"; "BOGUS"].

Example demo_add_fields_fails :
  ∃ sp' ac' status',
    IndexSpec_AddFieldsInternal unit demo_idx demo_bad_fields Rules.QueryError_init false
    = Some (0, sp', ac', status')
    ∧ numFields unit sp' = 1%nat
    ∧ len (sortables unit sp') = 1
    ∧ Rules.code status' = 3.
Proof. eexists _, _, _. vm_compute. done. Qed.

Example demo_add_duplicate_fails :
  ∃ sp' ac' status',
    IndexSpec_AddFieldsInternal unit demo_idx ["body"; "TEXT"; "TITLE"; "TEXT"]
      Rules.QueryError_init false
    = Some (0, sp', ac', status')
    ∧ numFields unit sp' = 1%nat
    ∧ Rules.code status' = 9.
Proof. eexists _, _, _. vm_compute. done. Qed.

Example demo_add_fields_succeeds :
  ∃ sp' status',
    IndexSpec_AddFieldsInternal unit demo_idx ["price"; "NUMERIC"; "SORTABLE"; "body"; "TEXT"]
      Rules.QueryError_init false
    = Some (1, sp', [], status')
    ∧ numFields unit sp' = 3%nat
    ∧ len (sortables unit sp') = 2.
Proof. eexists _, _. vm_compute. done. Qed.

Example demo_add_bad_option_fails :
  ∃ sp' ac' status',
    IndexSpec_AddFieldsInternal unit demo_idx ["body"; "TEXT"; "WEIGHT"; "heavy"]
      Rules.QueryError_init false
    = Some (0, sp', ac', status')
    ∧ numFields unit sp' = 1%nat
    ∧ IndexSpec_GetField unit sp' "body" 4 = None
    ∧ Rules.code status' = 3.
Proof. eexists _, _, _. vm_compute. done. Qed.

(** What a failed call does not put back: the phonetic flag that an earlier
    field of the same call set on the index. *)
Example demo_failed_add_keeps_flag :
  ∃ sp' ac' status',
    IndexSpec_AddFieldsInternal unit demo_idx
      ["body"; "TEXT"; "PHONETIC"; "dm:en"; "other"; "BOGUS"] Rules.QueryError_init false
    = Some (0, sp', ac', status')
    ∧ numFields unit sp' = 1%nat
    ∧ has_flag (flags unit demo_idx) Index_HasPhonetic = false
    ∧ has_flag (flags unit sp') Index_HasPhonetic = true.
Proof. eexists _, _, _. vm_compute. done. Qed.

(** In [demo_bad_fields] the field [price] is added and the field [body],
    whose type is none of the four, is rejected. *)
Example demo_bad_fields_rejected :
  some_field_rejected unit false demo_idx Rules.QueryError_init demo_bad_fields.
Proof.
  eapply rejected_later; [discriminate | cbv; reflexivity |].
  apply rejected_here. eapply rejected_definition; cbv; reflexivity.
Qed.

Example demo_good_fields_accepted :
  ¬ some_field_rejected unit false demo_idx Rules.QueryError_init
      ["price"; "NUMERIC"; "SORTABLE"; "body"; "TEXT"].
Proof.
  intros Hrej.
  assert (numFields unit demo_idx ≤ length (fields unit demo_idx))%nat as Hwf
    by (vm_compute; lia).
  destruct (AddFields_loop_rejects unit 5 false demo_idx
              ["price"; "NUMERIC"; "SORTABLE"; "body"; "TEXT"] Rules.QueryError_init
              Hwf (le_n 5))
    as (ok & fs & sp' & ac' & st' & Hloop & Hiff).
  vm_compute in Hloop. injection Hloop as <- _ _ _ _.
  apply Hiff in Hrej. discriminate Hrej.
Qed.

Lemma add_fields_atomic_witness :
  (numFields unit demo_idx ≤ length (fields unit demo_idx))%nat
  ∧ ∃ rc sp' ac' status',
      IndexSpec_AddFieldsInternal unit demo_idx demo_bad_fields Rules.QueryError_init false
      = Some (rc, sp', ac', status')
      ∧ (rc = 0 ∨ rc = 1)
      ∧ (rc = 0
         ↔ some_field_rejected unit false demo_idx Rules.QueryError_init demo_bad_fields)
      ∧ (rc = 0 →
         numFields unit sp' = numFields unit demo_idx
         ∧ take (numFields unit demo_idx) (fields unit sp')
           = take (numFields unit demo_idx) (fields unit demo_idx)
         ∧ len (sortables unit sp') = len (sortables unit demo_idx)
         ∧ ∀ nm n, IndexSpec_GetField unit sp' nm n = IndexSpec_GetField unit demo_idx nm n).
Proof.
  assert (numFields unit demo_idx ≤ length (fields unit demo_idx))%nat as Hwf.
  { vm_compute. lia. }
  split; [exact Hwf|].
  apply (add_fields_atomic unit demo_idx demo_bad_fields Rules.QueryError_init false Hwf).
Defined.

Lemma create_duplicate_rejected_witness :
  (demo_create !! 1%nat = Some "idx"
   ∧ is_Some (dictFetchValue (specDict unit demo_g1) "idx")
   ∧ Rules.code Rules.QueryError_init = Rules.QUERY_OK)
  ∧ ∃ status',
      IndexSpec_CreateNew unit demo_ParseArgSpec demo_SchemaRule_Create
        demo_g1 demo_create Rules.QueryError_init
      = Some (None, status', demo_g1)
      ∧ Rules.code status' = QUERY_EINDEXEXISTS.
Proof.
  assert (is_Some (dictFetchValue (specDict unit demo_g1) "idx")) as Hreg.
  { vm_compute. eauto. }
  split; [split_and!; [reflexivity | exact Hreg | reflexivity]|].
  apply (create_duplicate_rejected unit demo_ParseArgSpec demo_SchemaRule_Create
           demo_g1 demo_create "idx" Rules.QueryError_init eq_refl Hreg eq_refl).
Defined.

(** *** The further facts on the index ["idx"] *)

(** The one field of ["idx"]. *)
Definition demo_title : FieldSpec := field_at unit demo_idx 0.

Lemma demo_idx_wf : (numFields unit demo_idx ≤ length (fields unit demo_idx))%nat.
Proof. vm_compute. lia. Defined.

Lemma demo_idx_schema : schema unit demo_idx = [demo_title].
Proof. vm_compute. reflexivity. Defined.

Definition demo_more_fields : list string :=
  ["price"; "NUMERIC"; "SORTABLE"; "body"; "TEXT"; "PHONETIC"; "dm:en"].

(** ["idx"] after [price] and [body] have been added. *)
Definition demo_idx2 : IndexSpec unit :=
  match
    IndexSpec_AddFieldsInternal unit demo_idx demo_more_fields Rules.QueryError_init false
  with
  | Some (_, sp, _, _) => sp
  | None => demo_idx
  end.

Example demo_idx2_fields :
  map FS.name (schema unit demo_idx2) = ["title"; "price"; "body"]
  ∧ map FS.index (schema unit demo_idx2) = [0; 1; 2]%nat
  ∧ used_text_ids (schema unit demo_idx2) = [0; 1]
  ∧ has_flag (flags unit demo_idx2) Index_HasPhonetic = true.
Proof. vm_compute. done. Qed.

Lemma add_fields_names_distinct_witness :
  ((numFields unit demo_idx ≤ length (fields unit demo_idx))%nat
   ∧ names_distinct (schema unit demo_idx))
  ∧ ∃ rc sp' ac' status',
      IndexSpec_AddFieldsInternal unit demo_idx demo_more_fields Rules.QueryError_init false
      = Some (rc, sp', ac', status')
      ∧ names_distinct (schema unit sp').
Proof.
  assert (names_distinct (schema unit demo_idx)) as Hinv.
  { rewrite demo_idx_schema. generalize demo_title. intros t i j f g Hi Hj _.
    apply lookup_lt_Some in Hi, Hj. cbn [length] in Hi, Hj. lia. }
  split; [split; [exact demo_idx_wf | exact Hinv]|].
  apply (add_fields_names_distinct unit demo_idx demo_more_fields Rules.QueryError_init
           false demo_idx_wf Hinv).
Defined.

Lemma add_fields_positions_witness :
  ((numFields unit demo_idx ≤ length (fields unit demo_idx))%nat
   ∧ positions_ok (schema unit demo_idx))
  ∧ ∃ rc sp' ac' status',
      IndexSpec_AddFieldsInternal unit demo_idx demo_more_fields Rules.QueryError_init false
      = Some (rc, sp', ac', status')
      ∧ positions_ok (schema unit sp').
Proof.
  assert (positions_ok (schema unit demo_idx)) as Hinv.
  { assert (FS.index demo_title = 0%nat) as Hidx by (vm_compute; reflexivity).
    rewrite demo_idx_schema. revert Hidx. generalize demo_title.
    intros t Hidx i f Hi. apply list_lookup_singleton_Some in Hi as [-> <-].
    exact Hidx. }
  split; [split; [exact demo_idx_wf | exact Hinv]|].
  apply (add_fields_positions unit demo_idx demo_more_fields Rules.QueryError_init
           false demo_idx_wf Hinv).
Defined.

Lemma add_fields_text_ids_witness :
  ((numFields unit demo_idx ≤ length (fields unit demo_idx))%nat
   ∧ text_ids_ok (schema unit demo_idx))
  ∧ ∃ rc sp' ac' status',
      IndexSpec_AddFieldsInternal unit demo_idx demo_more_fields Rules.QueryError_init false
      = Some (rc, sp', ac', status')
      ∧ text_ids_ok (schema unit sp').
Proof.
  assert (text_ids_ok (schema unit demo_idx)) as Hinv.
  { assert (used_text_ids (schema unit demo_idx) = [0]) as Hids
      by (vm_compute; reflexivity).
    assert (0 ≤ 0 < SPEC_MAX_FIELD_ID) as Hrange.
    { assert (SPEC_MAX_FIELD_ID = 128) as -> by reflexivity. lia. }
    unfold text_ids_ok. rewrite Hids. split; [apply NoDup_singleton|].
    apply Forall_singleton. exact Hrange. }
  split; [split; [exact demo_idx_wf | exact Hinv]|].
  apply (add_fields_text_ids unit demo_idx demo_more_fields Rules.QueryError_init
           false demo_idx_wf Hinv).
Defined.

Lemma add_fields_phonetic_flag_witness :
  ((numFields unit demo_idx ≤ length (fields unit demo_idx))%nat
   ∧ phonetic_flagged (schema unit demo_idx) (flags unit demo_idx))
  ∧ ∃ rc sp' ac' status',
      IndexSpec_AddFieldsInternal unit demo_idx demo_more_fields Rules.QueryError_init false
      = Some (rc, sp', ac', status')
      ∧ phonetic_flagged (schema unit sp') (flags unit sp').
Proof.
  assert (phonetic_flagged (schema unit demo_idx) (flags unit demo_idx)) as Hinv.
  { assert (FieldSpec_IsPhonetics demo_title = false) as Hnot
      by (vm_compute; reflexivity).
    rewrite demo_idx_schema. revert Hnot. generalize demo_title.
    intros t Hnot f Hin Hph. apply list_elem_of_singleton in Hin. subst f.
    rewrite Hnot in Hph. discriminate Hph. }
  split; [split; [exact demo_idx_wf | exact Hinv]|].
  apply (add_fields_phonetic_flag unit demo_idx demo_more_fields Rules.QueryError_init
           false demo_idx_wf Hinv).
Defined.

Lemma add_fields_success_witness :
  ((numFields unit demo_idx ≤ length (fields unit demo_idx))%nat
   ∧ IndexSpec_AddFieldsInternal unit demo_idx demo_more_fields Rules.QueryError_init false
     = Some (1, demo_idx2, [], Rules.QueryError_init)
   ∧ 1 ≠ 0)
  ∧ ([] : ArgsCursor) = []
  ∧ name unit demo_idx2 = name unit demo_idx
  ∧ (∃ added,
       schema unit demo_idx2 = schema unit demo_idx ++ added
       ∧ numFields unit demo_idx2 = (numFields unit demo_idx + length added)%nat
       ∧ (length added ≤ length demo_more_fields)%nat
       ∧ FS.name <$> head added = head demo_more_fields)
  ∧ ∀ nm n f, IndexSpec_GetField unit demo_idx nm n = Some f
              → IndexSpec_GetField unit demo_idx2 nm n = Some f.
Proof.
  assert (IndexSpec_AddFieldsInternal unit demo_idx demo_more_fields
            Rules.QueryError_init false
          = Some (1, demo_idx2, [], Rules.QueryError_init)) as Hrun
    by (vm_compute; reflexivity).
  assert (1 ≠ 0) as Hrc by discriminate.
  split; [split_and!; [exact demo_idx_wf | exact Hrun | exact Hrc]|].
  apply (add_fields_success unit demo_idx demo_more_fields Rules.QueryError_init false
           1 demo_idx2 [] Rules.QueryError_init demo_idx_wf Hrun Hrc).
Defined.

(** *** The further facts on the registry *)

Definition demo_bad_create : list string :=
  ["FT.CREATE"; "other"; "SCHEMA"; "body"; "BOGUS"].

Definition demo_bad_status : QueryError :=
  {| Rules.code := 3; Rules.detail := Some "Invalid field type for field `body`" |}.

Lemma demo_g1_ok : registry_ok unit demo_g1.
Proof.
  assert (specDict unit demo_g1 = [("idx", demo_idx)]) as Hdict
    by (vm_compute; reflexivity).
  assert (name unit demo_idx = "idx") as Hname by (vm_compute; reflexivity).
  unfold registry_ok. rewrite Hdict. revert Hname. generalize demo_idx.
  intros idx Hname. split.
  - apply NoDup_singleton.
  - intros k sp Hin. apply list_elem_of_singleton in Hin.
    injection Hin as -> ->. exact Hname.
Defined.

Lemma create_failure_keeps_registry_witness :
  IndexSpec_CreateNew unit demo_ParseArgSpec demo_SchemaRule_Create
    demo_g1 demo_bad_create Rules.QueryError_init
  = Some (None, demo_bad_status, demo_g1)
  ∧ specDict unit demo_g1 = specDict unit demo_g1
  ∧ spec_unique_ids unit demo_g1 = spec_unique_ids unit demo_g1
  ∧ (cleanPool unit demo_g1 = cleanPool unit demo_g1
     ∨ ∃ sp, demo_bad_create !! 1%nat = Some (name unit sp)
             ∧ cleanPool unit demo_g1 = cleanPool unit demo_g1 ++ [sp]).
Proof.
  assert (IndexSpec_CreateNew unit demo_ParseArgSpec demo_SchemaRule_Create
    demo_g1 demo_bad_create Rules.QueryError_init
          = Some (None, demo_bad_status, demo_g1)) as Hrun by (vm_compute; reflexivity).
  split; [exact Hrun|].
  apply (create_failure_keeps_registry unit demo_ParseArgSpec demo_SchemaRule_Create
           demo_g1 demo_bad_create Rules.QueryError_init demo_bad_status demo_g1 Hrun).
Defined.

Lemma create_registers_witness :
  IndexSpec_CreateNew unit demo_ParseArgSpec demo_SchemaRule_Create
    demo_g0 demo_create Rules.QueryError_init
  = Some (Some demo_idx, Rules.QueryError_init, demo_g1)
  ∧ demo_create !! 1%nat = Some (name unit demo_idx)
  ∧ uniqueId unit demo_idx = spec_unique_ids unit demo_g0
  ∧ dictFetchValue (specDict unit demo_g0) (name unit demo_idx) = None
  ∧ specDict unit demo_g1 = specDict unit demo_g0 ++ [(name unit demo_idx, demo_idx)]
  ∧ dictFetchValue (specDict unit demo_g1) (name unit demo_idx) = Some demo_idx
  ∧ cleanPool unit demo_g1 = cleanPool unit demo_g0
  ∧ ∀ argv2 status2,
      argv2 !! 1%nat = Some (name unit demo_idx) →
      IndexSpec_CreateNew unit demo_ParseArgSpec demo_SchemaRule_Create
        demo_g1 argv2 status2
      = Some (None, QueryError_SetCode status2 QUERY_EINDEXEXISTS, demo_g1).
Proof.
  assert (IndexSpec_CreateNew unit demo_ParseArgSpec demo_SchemaRule_Create
    demo_g0 demo_create Rules.QueryError_init
          = Some (Some demo_idx, Rules.QueryError_init, demo_g1)) as Hrun
    by (vm_compute; reflexivity).
  split; [exact Hrun|].
  apply (create_registers unit demo_ParseArgSpec demo_SchemaRule_Create
           demo_g0 demo_create Rules.QueryError_init demo_idx Rules.QueryError_init
           demo_g1 Hrun).
Defined.

Lemma create_keeps_registry_ok_witness :
  (registry_ok unit demo_g1
   ∧ IndexSpec_CreateNew unit demo_ParseArgSpec demo_SchemaRule_Create
    demo_g1 demo_bad_create Rules.QueryError_init
     = Some (None, demo_bad_status, demo_g1))
  ∧ registry_ok unit demo_g1.
Proof.
  assert (IndexSpec_CreateNew unit demo_ParseArgSpec demo_SchemaRule_Create
    demo_g1 demo_bad_create Rules.QueryError_init
          = Some (None, demo_bad_status, demo_g1)) as Hrun by (vm_compute; reflexivity).
  split; [split; [exact demo_g1_ok | exact Hrun]|].
  apply (create_keeps_registry_ok unit demo_ParseArgSpec demo_SchemaRule_Create
           demo_g1 demo_bad_create Rules.QueryError_init None demo_bad_status demo_g1
           demo_g1_ok Hrun).
Defined.

(** A parse under the name ["idx"], called on its own, that fails: the
    entry of the registered index is gone. *)
Definition demo_g_unregistered : Globals unit :=
  {| specDict := []; spec_unique_ids := 2; cleanPool := [] |}.

Lemma parse_failure_releases_witness :
  IndexSpec_Parse unit demo_ParseArgSpec demo_SchemaRule_Create demo_g1 "idx"
    ["SCHEMA"; "body"; "BOGUS"] Rules.QueryError_init
  = Some (None, demo_bad_status, demo_g_unregistered)
  ∧ spec_unique_ids unit demo_g_unregistered = spec_unique_ids unit demo_g1
  ∧ ((specDict unit demo_g_unregistered = (dictDelete (specDict unit demo_g1) "idx").2
      ∧ cleanPool unit demo_g_unregistered = cleanPool unit demo_g1)
     ∨ (specDict unit demo_g_unregistered = specDict unit demo_g1
        ∧ ∃ sp, name unit sp = "idx"
                ∧ has_flag (flags unit sp) Index_Temporary = true
                ∧ cleanPool unit demo_g_unregistered = cleanPool unit demo_g1 ++ [sp])).
Proof.
  assert (IndexSpec_Parse unit demo_ParseArgSpec demo_SchemaRule_Create demo_g1 "idx"
            ["SCHEMA"; "body"; "BOGUS"] Rules.QueryError_init
          = Some (None, demo_bad_status, demo_g_unregistered)) as Hrun
    by (vm_compute; reflexivity).
  split; [exact Hrun|].
  apply (parse_failure_releases unit demo_ParseArgSpec demo_SchemaRule_Create
           demo_g1 "idx" ["SCHEMA"; "body"; "BOGUS"] Rules.QueryError_init
           demo_bad_status demo_g_unregistered Hrun).
Defined.

(** The sub-events as redismodule.h numbers them; the scan is left out. *)
Definition demo_LoadingEvent :=
  IndexSpec_LoadingEvent unit 0 1 2 3 (λ g, g).

Definition demo_onFlush := onFlush unit 0.

Lemma loading_start_empties_registry_witness :
  (registry_ok unit demo_g1 ∧ 1 ∈ [0; 1; 2])
  ∧ specDict unit (demo_LoadingEvent demo_g1 1) = []
  ∧ cleanPool unit (demo_LoadingEvent demo_g1 1) = cleanPool unit demo_g1
  ∧ spec_unique_ids unit (demo_LoadingEvent demo_g1 1) = spec_unique_ids unit demo_g1.
Proof.
  assert (1 ∈ [0; 1; 2]) as Hsub by (right; left).
  split; [split; [exact demo_g1_ok | exact Hsub]|].
  apply (loading_start_empties_registry unit 0 1 2 3 (λ g, g) demo_g1 1 demo_g1_ok Hsub).
Defined.

Lemma flush_releases_indexes_witness :
  registry_ok unit demo_g1
  ∧ (0 = 0 →
     specDict unit (demo_onFlush demo_g1 0)
     = List.filter (is_temporary unit) (specDict unit demo_g1)
     ∧ cleanPool unit (demo_onFlush demo_g1 0)
       = cleanPool unit demo_g1
         ++ map snd (List.filter (is_temporary unit) (specDict unit demo_g1))
     ∧ spec_unique_ids unit (demo_onFlush demo_g1 0) = spec_unique_ids unit demo_g1)
  ∧ (0 ≠ 0 → demo_onFlush demo_g1 0 = demo_g1).
Proof.
  split; [exact demo_g1_ok|].
  apply (flush_releases_indexes unit 0 demo_g1 0 demo_g1_ok).
Defined.

Example demo_flush :
  specDict unit (demo_onFlush demo_g1 0) = []
  ∧ demo_onFlush demo_g1 1 = demo_g1.
Proof. vm_compute. done. Qed.

(** *** Saving and loading the fields of ["idx"] *)

(** The encoding versions of spec.h and a 64-bit field mask. *)
Definition demo_RdbLoad := FieldSpec_RdbLoad 7 8 14 0 1 2 3 3 64.

Example demo_save_title :
  FieldSpec_RdbSave demo_title
  = [IoBuffer (String.append "title" (String Ascii.zero EmptyString));
     IoUnsigned 1; IoUnsigned 1; IoSigned 0;
     IoUnsigned 0; IoDouble 4607182418800017408].
Proof. vm_compute. reflexivity. Qed.

Lemma FieldSpec_rdb_roundtrip_witness :
  (8 ≤ 16 ∧ 14 ≤ 16 ∧ c_str (FS.name demo_title) = FS.name demo_title
   ∧ 0 ≤ FS.tagSep demo_title < 256)
  ∧ demo_RdbLoad FieldSpec_zero 16 (FieldSpec_RdbSave demo_title ++ [IoUnsigned 7])
    = Loaded
        {| FS.name := FS.name demo_title; FS.types := FS.types demo_title;
           FS.options := FS.options demo_title;
           FS.ftId := if text_options_saved demo_title then FS.ftId demo_title
                      else FS.ftId FieldSpec_zero;
           FS.ftWeight := if text_options_saved demo_title then FS.ftWeight demo_title
                          else FS.ftWeight FieldSpec_zero;
           FS.sortIdx := FS.sortIdx demo_title;
           FS.tagFlags := if tag_options_saved demo_title then FS.tagFlags demo_title
                          else FS.tagFlags FieldSpec_zero;
           FS.tagSep := if tag_options_saved demo_title then FS.tagSep demo_title
                        else FS.tagSep FieldSpec_zero;
           FS.index := FS.index FieldSpec_zero |}
        [IoUnsigned 7].
Proof.
  assert (8 ≤ 16) as Htag by lia.
  assert (14 ≤ 16) as Hmulti by lia.
  assert (c_str (FS.name demo_title) = FS.name demo_title) as Hname
    by (vm_compute; reflexivity).
  assert (0 ≤ FS.tagSep demo_title < 256) as Hsep.
  { assert (FS.tagSep demo_title = 0) as -> by (vm_compute; reflexivity). lia. }
  split; [exact (conj Htag (conj Hmulti (conj Hname Hsep)))|].
  apply (FieldSpec_rdb_roundtrip 7 8 14 0 1 2 3 3 64 demo_title FieldSpec_zero 16
           [IoUnsigned 7] Htag Hmulti Hname Hsep).
Defined.

Lemma bit_of_single_bit_witness :
  (5 < 64)%nat ∧ bit 64 (Z.shiftl 1 (Z.of_nat 5)) = Z.of_nat 5 ∧ bit 64 0 = 0.
Proof.
  assert (5 < 64)%nat as Hi by lia.
  split; [exact Hi|]. apply (bit_of_single_bit 64 5 Hi).
Defined.

Lemma legacy_field_load_witness :
  (4 ≤ 5 ∧ 5 < 7 ∧ 5 < 8 ∧ (3 < 64)%nat)
  ∧ demo_RdbLoad FieldSpec_zero 5
      ([IoBuffer "title"; IoUnsigned (Z.shiftl 1 (Z.of_nat 3)); IoUnsigned 1;
        IoDouble 4607182418800017408; IoUnsigned 1; IoSigned 0] ++ [])
    = Loaded
        {| FS.name := c_str "title"; FS.types := 1; FS.options := 1;
           FS.ftId := Z.of_nat 3; FS.ftWeight := 4607182418800017408; FS.sortIdx := 0;
           FS.tagFlags := TAG_FIELD_DEFAULT_FLAGS; FS.tagSep := TAG_FIELD_DEFAULT_SEP;
           FS.index := FS.index FieldSpec_zero |}
        [].
Proof.
  assert (4 ≤ 5) as H4 by lia.
  assert (5 < 7) as Hwide by lia.
  assert (5 < 8) as Htag by lia.
  assert (3 < 64)%nat as Hi by lia.
  split; [split_and!; [exact H4 | exact Hwide | exact Htag | exact Hi]|].
  apply (legacy_field_load 7 8 14 0 1 2 3 3 64 FieldSpec_zero 5 "title" 3 1
           4607182418800017408 1 0 [] H4 Hwide Htag Hi).
Defined.

(** *** Phonetic matching on ["idx"] after [body] has been added *)

(** The field [body] of the extended index, at position 2. *)
Definition demo_body : FieldSpec := field_at unit demo_idx2 2.

Lemma phonetic_field_enables_witness :
  (Index_HasPhonetic ≠ 0
   ∧ phonetic_flagged (schema unit demo_idx2) (flags unit demo_idx2)
   ∧ schema unit demo_idx2 !! 2%nat = Some demo_body
   ∧ FIELD_IS demo_body INDEXFLD_T_FULLTEXT = true
   ∧ FieldSpec_IsPhonetics demo_body = true
   ∧ Z.testbit 4 (Z.of_nat 2) = true)
  ∧ IndexSpec_CheckPhoneticEnabled unit 64 demo_idx2 4 = 1
  ∧ ∀ sp0 fm0, has_flag (flags unit sp0) Index_HasPhonetic = false →
               IndexSpec_CheckPhoneticEnabled unit 64 sp0 fm0 = 0.
Proof.
  assert (Index_HasPhonetic ≠ 0) as Hbit by (vm_compute; discriminate).
  assert (phonetic_flagged (schema unit demo_idx2) (flags unit demo_idx2)) as Hinv.
  { intros f _ _. vm_compute. reflexivity. }
  assert (schema unit demo_idx2 !! 2%nat = Some demo_body) as Hi
    by (vm_compute; reflexivity).
  assert (FIELD_IS demo_body INDEXFLD_T_FULLTEXT = true) as Htext
    by (vm_compute; reflexivity).
  assert (FieldSpec_IsPhonetics demo_body = true) as Hph by (vm_compute; reflexivity).
  assert (Z.testbit 4 (Z.of_nat 2) = true) as Hfm by (vm_compute; reflexivity).
  split; [exact (conj Hbit (conj Hinv (conj Hi (conj Htext (conj Hph Hfm)))))|].
  apply (phonetic_field_enables unit 64 demo_idx2 4 2 demo_body Hbit Hinv Hi Htext Hph Hfm).
Defined.

Example demo_phonetic_by_position :
  IndexSpec_CheckPhoneticEnabled unit 64 demo_idx2 4 = 1
  ∧ IndexSpec_CheckPhoneticEnabled unit 64 demo_idx2 2 = 0
  ∧ FS.ftId demo_body = 1.
Proof. vm_compute. done. Qed.

End Spec.

(** ** The rule parser and the round trip of the registry *)

Module RuleRegistry.

Section parser.
(** Constants of headers that are not among the sources, the compiled form of
    a filter expression and its compiler, and the attributes of a match. *)
Variable REDISMODULE_AUX_BEFORE_RDB : Z.
Variable QUERY_EPARSEARGS : Z.
Variable Expression : Type.
Variable compile : string → option Expression.
Variable IndexItemAttrs : Type.

(** Modelled from the spec: the parsed part of a rule is not among the
    sources.  A schema rule has an owning index, a name, prefixes (by default
    the empty prefix alone), an optional predicate, optional score, language
    and payload fields, and its raw arguments; [ON <type>] is its record kind
    filter. *)
Record RuleBody := {
  on_type : option string;
  prefixes : list string;
  predicate : option Expression;
  score_field : option string;
  lang_field : option string;
  payload_field : option string;
}.

Definition RuleBody_default : RuleBody :=
  {| on_type := None; prefixes := [""]; predicate := None; score_field := None;
     lang_field := None; payload_field := None |}.

Abbreviation SchemaRule := (Rules.SchemaRule RuleBody).
Abbreviation SchemaRules := (Rules.SchemaRules RuleBody IndexItemAttrs).
Abbreviation Globals := (Rules.Globals RuleBody IndexItemAttrs).

(** A count written in decimal digits. *)
Definition digit (c : ascii) : option nat :=
  let n := nat_of_ascii c in
  if (48 <=? n)%nat && (n <=? 57)%nat then Some (n - 48)%nat else None.

Fixpoint parse_digits (s : string) (acc : nat) : option nat :=
  match s with
  | EmptyString => Some acc
  | String c s' =>
      match digit c with
      | Some d => parse_digits s' (10 * acc + d)%nat
      | None => None
      end
  end.

Definition parse_count (s : string) : option nat :=
  match s with
  | EmptyString => None
  | _ => parse_digits s 0
  end.

(** Modelled from the spec: the rule parser is not among the sources.
    It parses a recognized-option argument cursor into prefixes, predicate,
    score field, language field and payload field.  Accepted options, each
    optional: ON <type>, PREFIX <n> <p1..pn> (by default the empty prefix
    alone, matching everything), FILTER <expr> (compiled once at creation;
    compile failure is a creation error), SCORE <field>, LANGUAGE <field>,
    PAYLOAD <field>.  Unknown trailing arguments are an error.  Every turn
    consumes an argument, so [length ac] turns are enough; [None] is the
    error. *)
Fixpoint parse_options (fuel : nat) (ac : Spec.ArgsCursor) (b : RuleBody)
  : option RuleBody :=
  if Spec.AC_IsAtEnd ac then Some b
  else
    match fuel with
    | O => None
    | S fuel =>
        let '(m, ac1) := Spec.AC_AdvanceIfMatch ac "ON" in
        if m then
          match ac1 with
          | t :: ac2 =>
              parse_options fuel ac2
                {| on_type := Some t; prefixes := prefixes b; predicate := predicate b;
                   score_field := score_field b; lang_field := lang_field b;
                   payload_field := payload_field b |}
          | [] => None
          end
        else
        let '(m, ac1) := Spec.AC_AdvanceIfMatch ac "PREFIX" in
        if m then
          match ac1 with
          | n :: ac2 =>
              match parse_count n with
              | Some k =>
                  if (k <=? length ac2)%nat then
                    parse_options fuel (drop k ac2)
                      {| on_type := on_type b; prefixes := take k ac2;
                         predicate := predicate b; score_field := score_field b;
                         lang_field := lang_field b; payload_field := payload_field b |}
                  else None
              | None => None
              end
          | [] => None
          end
        else
        let '(m, ac1) := Spec.AC_AdvanceIfMatch ac "FILTER" in
        if m then
          match ac1 with
          | e :: ac2 =>
              match compile e with
              | Some x =>
                  parse_options fuel ac2
                    {| on_type := on_type b; prefixes := prefixes b; predicate := Some x;
                       score_field := score_field b; lang_field := lang_field b;
                       payload_field := payload_field b |}
              | None => None
              end
          | [] => None
          end
        else
        let '(m, ac1) := Spec.AC_AdvanceIfMatch ac "SCORE" in
        if m then
          match ac1 with
          | f :: ac2 =>
              parse_options fuel ac2
                {| on_type := on_type b; prefixes := prefixes b; predicate := predicate b;
                   score_field := Some f; lang_field := lang_field b;
                   payload_field := payload_field b |}
          | [] => None
          end
        else
        let '(m, ac1) := Spec.AC_AdvanceIfMatch ac "LANGUAGE" in
        if m then
          match ac1 with
          | f :: ac2 =>
              parse_options fuel ac2
                {| on_type := on_type b; prefixes := prefixes b; predicate := predicate b;
                   score_field := score_field b; lang_field := Some f;
                   payload_field := payload_field b |}
          | [] => None
          end
        else
        let '(m, ac1) := Spec.AC_AdvanceIfMatch ac "PAYLOAD" in
        if m then
          match ac1 with
          | f :: ac2 =>
              parse_options fuel ac2
                {| on_type := on_type b; prefixes := prefixes b; predicate := predicate b;
                   score_field := score_field b; lang_field := lang_field b;
                   payload_field := Some f |}
          | [] => None
          end
        else None
    end.

Definition SchemaRule_parse (args : list string) : option RuleBody :=
  parse_options (length args) args RuleBody_default.

(** "duplicate creation for an index that already has a rule replaces it";
    the list is "insertion-ordered". *)
Definition put_rule (l : list SchemaRule) (r : SchemaRule) : list SchemaRule :=
  if existsb (λ r', String.eqb (Rules.index _ r') (Rules.index _ r)) l then
    map (λ r', if String.eqb (Rules.index _ r') (Rules.index _ r) then r else r') l
  else l ++ [r].

(** Modelled from the spec: [SchemaRules_AddArgs], the creation-time parser
    that [rulesAuxLoad] calls, is not among the sources.  "createRule(indexName,
    ruleName, args, status) -> Rule | error"; "rawArgs is retained verbatim". *)
Definition SchemaRules_AddArgs (registry : SchemaRules) (index name : string)
    (args : list string) : Z * Rules.QueryError * SchemaRules :=
  match SchemaRule_parse args with
  | None =>
      (Rules.REDISMODULE_ERR,
       {| Rules.code := QUERY_EPARSEARGS; Rules.detail := Some "Bad rule arguments" |},
       registry)
  | Some b =>
      (Rules.REDISMODULE_OK, Rules.QueryError_init,
       {| Rules.rules :=
            put_rule (Rules.rules registry)
              {| Rules.index := index; Rules.rule_name := name; Rules.rawrule := args;
                 Rules.body := b |};
          Rules.actions := Rules.actions _ _ registry |})
  end.

(** Modelled from the spec: "removeRule(indexName): removes the rule". *)
Definition SchemaRules_RemoveRule (registry : SchemaRules) (index : string)
  : SchemaRules :=
  {| Rules.rules :=
       List.filter (λ r, negb (String.eqb (Rules.index _ r) index)) (Rules.rules registry);
     Rules.actions := Rules.actions _ _ registry |}.

(** The registries that the operations build: the empty one, and what adding
    a rule to one of them, or removing the rule of an index from it, gives. *)
Inductive built : SchemaRules → Prop :=
| built_create : built (Rules.SchemaRules_Create _ _)
| built_add registry index name args rc status registry' :
    built registry →
    SchemaRules_AddArgs registry index name args = (rc, status, registry') →
    built registry'
| built_remove registry index :
    built registry → built (SchemaRules_RemoveRule registry index).

Lemma built_added (registry : SchemaRules) (index name : string) (args : list string) :
  built registry → built (SchemaRules_AddArgs registry index name args).2.
Proof.
  intros Hb. destruct (SchemaRules_AddArgs registry index name args) as [[rc status] r'] eqn:Hadd.
  exact (built_add _ _ _ _ _ _ _ Hb Hadd).
Qed.

(** What every such registry keeps: no two rules for one index, and every rule
    holds what the parser makes of its raw arguments. *)
Definition consistent (registry : SchemaRules) : Prop :=
  Rules.actions _ _ registry = []
  ∧ NoDup (map (Rules.index _) (Rules.rules registry))
  ∧ Forall (λ r, SchemaRule_parse (Rules.rawrule _ r) = Some (Rules.body _ r))
      (Rules.rules registry).

Lemma put_rule_index (l : list SchemaRule) (r : SchemaRule) :
  map (Rules.index _) (put_rule l r)
  = if existsb (λ r', String.eqb (Rules.index _ r') (Rules.index _ r)) l
    then map (Rules.index _) l
    else map (Rules.index _) l ++ [Rules.index _ r].
Proof.
  unfold put_rule. destruct (existsb _ l); [|by rewrite map_app].
  rewrite map_map. apply map_ext. intros r'.
  by destruct (String.eqb_spec (Rules.index _ r') (Rules.index _ r)).
Qed.

Lemma existsb_index_false (l : list SchemaRule) (ix : string) :
  existsb (λ r', String.eqb (Rules.index _ r') ix) l = false
  ↔ ix ∉ map (Rules.index _) l.
Proof.
  induction l as [|r' l IH]; simpl.
  - split; [intros _; apply not_elem_of_nil | done].
  - rewrite orb_false_iff, IH, not_elem_of_cons.
    destruct (String.eqb_spec (Rules.index _ r') ix); intuition congruence.
Qed.

Lemma NoDup_map_filter (p : SchemaRule → bool) (l : list SchemaRule) :
  NoDup (map (Rules.index _) l) → NoDup (map (Rules.index _) (List.filter p l)).
Proof.
  induction l as [|r l IH]; simpl; [done|].
  intros [Hr Hl]%NoDup_cons. destruct (p r); simpl; [|by apply IH].
  apply NoDup_cons. split; [|by apply IH].
  intros Hin. apply Hr. apply list_elem_of_In, in_map_iff in Hin as (r' & <- & Hin).
  apply filter_In in Hin as [Hin _]. apply list_elem_of_In, in_map. exact Hin.
Qed.

Lemma built_consistent (registry : SchemaRules) : built registry → consistent registry.
Proof.
  induction 1 as [| registry index name args rc status registry' _ IH Hadd
                  | registry index _ IH].
  - split_and!; [done | constructor | constructor].
  - destruct IH as (Hact & Hnd & Hparse). unfold SchemaRules_AddArgs in Hadd.
    destruct (SchemaRule_parse args) as [b|] eqn:Hb.
    2:{ injection Hadd as _ _ <-. by split_and!. }
    injection Hadd as _ _ <-. split_and!; simpl.
    + done.
    + rewrite put_rule_index. simpl.
      destruct (existsb _ _) eqn:Hex; [done|].
      apply existsb_index_false in Hex.
      apply NoDup_app. split_and!; [done | | apply NoDup_singleton].
      intros x Hx ->%list_elem_of_singleton. done.
    + unfold put_rule. destruct (existsb _ _).
      * apply Forall_forall. intros r Hin.
        apply list_elem_of_In, in_map_iff in Hin as (r' & <- & Hin).
        destruct (String.eqb _ _); [done|].
        rewrite Forall_forall in Hparse. apply Hparse. by apply list_elem_of_In.
      * apply Forall_app. split; [done|]. by apply Forall_singleton.
  - destruct IH as (Hact & Hnd & Hparse). split_and!; simpl.
    + done.
    + by apply NoDup_map_filter.
    + apply Forall_forall. intros r Hin.
      apply list_elem_of_In, filter_In in Hin as [Hin _].
      rewrite Forall_forall in Hparse. apply Hparse. by apply list_elem_of_In.
Qed.

(** Replaying the parser over the rules of a consistent registry, from the
    empty registry, gives the registry back. *)
Lemma replay_rules (l pre : list SchemaRule) :
  NoDup (map (Rules.index _) (pre ++ l)) →
  Forall (λ r, SchemaRule_parse (Rules.rawrule _ r) = Some (Rules.body _ r)) l →
  Rules.replay RuleBody IndexItemAttrs SchemaRules_AddArgs
    {| Rules.rules := pre; Rules.actions := [] |} l
  = (Rules.REDISMODULE_OK, {| Rules.rules := pre ++ l; Rules.actions := [] |}).
Proof.
  revert pre. induction l as [|r l IH]; intros pre Hnd Hparse; simpl.
  - by rewrite app_nil_r.
  - apply Forall_cons in Hparse as [Hr Hparse].
    unfold SchemaRules_AddArgs. rewrite Hr. simpl.
    assert (put_rule pre
              {| Rules.index := Rules.index _ r; Rules.rule_name := Rules.rule_name _ r;
                 Rules.rawrule := Rules.rawrule _ r; Rules.body := Rules.body _ r |}
            = pre ++ [r]) as ->.
    { unfold put_rule. simpl.
      assert (existsb (λ r', String.eqb (Rules.index _ r') (Rules.index _ r)) pre = false)
        as ->.
      { apply existsb_index_false. rewrite map_app in Hnd.
        apply NoDup_app in Hnd as (_ & Hdisj & _). intros Hin.
        apply (Hdisj _ Hin). simpl. left. }
      by destruct r. }
    rewrite IH; [by rewrite <- app_assoc | by rewrite <- app_assoc | done].
Qed.

Lemma replay_consistent (registry : SchemaRules) :
  consistent registry →
  Rules.replay RuleBody IndexItemAttrs SchemaRules_AddArgs (Rules.SchemaRules_Create _ _)
    (Rules.rules registry)
  = (Rules.REDISMODULE_OK, registry).
Proof.
  intros (Hact & Hnd & Hparse). unfold Rules.SchemaRules_Create.
  rewrite (replay_rules (Rules.rules registry) []) by done. simpl.
  destruct registry as [l acts]. simpl in Hact. by rewrite Hact.
Qed.

(** C5.  Round trip: for every registry that the rule operations build,
    loading what the serializer wrote into an empty registry succeeds, reads
    the whole stream and gives the registry back: the same index names, the
    same raw argument tokens in the same order, the same parsed rules. *)
Theorem registry_roundtrip (g : Globals) :
  built (Rules.SchemaRules_g g) →
  ∃ g',
    Rules.rulesAuxLoad REDISMODULE_AUX_BEFORE_RDB RuleBody IndexItemAttrs SchemaRules_AddArgs
      (Rules.set_rules _ _ g (Rules.SchemaRules_Create _ _))
      (Rules.rulesAuxSave REDISMODULE_AUX_BEFORE_RDB RuleBody IndexItemAttrs g
         REDISMODULE_AUX_BEFORE_RDB)
      Rules.RULES_CURRENT_VERSION REDISMODULE_AUX_BEFORE_RDB
    = Some (Rules.REDISMODULE_OK, g', [])
    ∧ Rules.SchemaRules_g g' = Rules.SchemaRules_g g
    ∧ map (λ r, (Rules.index _ r, Rules.rule_name _ r, Rules.rawrule _ r))
        (Rules.rules (Rules.SchemaRules_g g'))
      = map (λ r, (Rules.index _ r, Rules.rule_name _ r, Rules.rawrule _ r))
          (Rules.rules (Rules.SchemaRules_g g))
    ∧ map (Rules.body _) (Rules.rules (Rules.SchemaRules_g g'))
      = map (Rules.body _) (Rules.rules (Rules.SchemaRules_g g)).
Proof.
  intros Hbuilt.
  destruct (Rules.load_saved_registry REDISMODULE_AUX_BEFORE_RDB RuleBody IndexItemAttrs
              SchemaRules_AddArgs g) as (g' & Hload & Hrules & Hraw).
  { apply replay_consistent. by apply built_consistent. }
  exists g'. split_and!; [done | done | done | by rewrite Hrules].
Qed.

End parser.

(** *** Two rules, one of them replaced, and their round trip *)

Definition demo_compile (s : string) : option string :=
  if String.eqb s "" then None else Some s.

Local Abbreviation demo_AddArgs := (SchemaRules_AddArgs 3 string demo_compile unit).

Definition demo_rules : Rules.SchemaRules (RuleBody string) unit :=
  let r0 := Rules.SchemaRules_Create _ _ in
  let r1 := (demo_AddArgs r0 "adults" "r1" ["PREFIX"; "1"; "user:"]).2 in
  let r2 := (demo_AddArgs r1 "all" "r2" []).2 in
  (demo_AddArgs r2 "adults" "r3"
     ["prefix"; "2"; "user:"; "member:"; "FILTER"; "@age>=18"; "SCORE"; "rank"]).2.

Definition demo_saved : Rules.Globals (RuleBody string) unit :=
  {| Rules.mem := Rules.demo_mem; Rules.specDict := []; Rules.rindexes_g := [];
     Rules.SchemaRules_g := demo_rules; Rules.asyncQueue_g := [] |}.

Example demo_rules_listed :
  map (λ r, (Rules.index _ r, Rules.rule_name _ r, prefixes _ (Rules.body _ r),
             predicate _ (Rules.body _ r)))
    (Rules.rules demo_rules)
  = [("adults", "r3", ["user:"; "member:"], Some "@age>=18"); ("all", "r2", [""], None)].
Proof. vm_compute. reflexivity. Qed.

Example demo_unknown_argument :
  (demo_AddArgs demo_rules "other" "r4" ["PREFIX"; "1"; "x:"; "BOGUS"]).1.1
  = Rules.REDISMODULE_ERR.
Proof. vm_compute. reflexivity. Qed.

Lemma demo_rules_built : built 3 string demo_compile unit demo_rules.
Proof.
  unfold demo_rules. cbv zeta.
  do 3 apply built_added. apply built_create.
Qed.

Lemma registry_roundtrip_witness :
  built 3 string demo_compile unit (Rules.SchemaRules_g demo_saved)
  ∧ ∃ g',
      Rules.rulesAuxLoad 1 (RuleBody string) unit demo_AddArgs
        (Rules.set_rules _ _ demo_saved (Rules.SchemaRules_Create _ _))
        (Rules.rulesAuxSave 1 (RuleBody string) unit demo_saved 1)
        Rules.RULES_CURRENT_VERSION 1
      = Some (Rules.REDISMODULE_OK, g', [])
      ∧ Rules.SchemaRules_g g' = Rules.SchemaRules_g demo_saved
      ∧ map (λ r, (Rules.index _ r, Rules.rule_name _ r, Rules.rawrule _ r))
          (Rules.rules (Rules.SchemaRules_g g'))
        = map (λ r, (Rules.index _ r, Rules.rule_name _ r, Rules.rawrule _ r))
            (Rules.rules (Rules.SchemaRules_g demo_saved))
      ∧ map (Rules.body _) (Rules.rules (Rules.SchemaRules_g g'))
        = map (Rules.body _) (Rules.rules (Rules.SchemaRules_g demo_saved)).
Proof.
  split; [exact demo_rules_built|].
  apply (registry_roundtrip 1 3 string demo_compile unit demo_saved demo_rules_built).
Defined.

End RuleRegistry.
